(** * gulp-tsc: the compiler adapter of [lib/compiler.js]

  A shallow embedding of [lib/compiler.js] and the properties of its
  argument builder, workspace manager, process runner, output rewriter
  and lifecycle registry.

  JavaScript values are embedded as the inductive type [jsval]; option
  objects are finite maps from property names to values; the asynchronous
  pipeline of [compile] is written in continuation order over an
  environment that answers for the file system, the [temp] library, the
  external [tsc] process and the other turns of the event loop. *)

From Stdlib Require Import ZArith Ascii String List Lia Bool DecimalString.
From stdpp Require Import base option list strings gmap.

Local Open Scope Z_scope.
Local Open Scope stdpp_scope.

(** ** Node's [path] module, POSIX flavour

  [path.sep] is ["/"]; the Windows branch of the source
  ([path.sep == '\\']) is therefore never taken in this model. *)
Module Path.

Definition sep : string := "/".

Definition is_slash (c : ascii) : bool := Ascii.eqb c "/"%char.

Definition nonempty (s : string) : bool :=
  match s with EmptyString => false | String _ _ => true end.

(** [s.split('/')] *)
Fixpoint split (s : string) : list string :=
  match s with
  | EmptyString => [EmptyString]
  | String c r =>
      if is_slash c then EmptyString :: split r
      else match split r with
           | h :: t => String c h :: t
           | [] => [String c EmptyString]
           end
  end.

(** [s.split('/').filter(function (p) { return !!p; })] *)
Definition parts (s : string) : list string := List.filter nonempty (split s).

(** [l.join('/')] on an array of strings *)
Fixpoint join_parts (l : list string) : string :=
  match l with
  | [] => EmptyString
  | [x] => x
  | x :: r => x +:+ "/" +:+ join_parts r
  end.

Definition isAbsolute (s : string) : bool :=
  match s with String c _ => is_slash c | EmptyString => false end.

(** One step of the segment normaliser, left to right as Node's
    [normalizeString] goes; the stack holds the segments kept so far,
    innermost first. A [".."] removes the segment before it; at the top of
    a relative path it is kept, at the root it is dropped. *)
Definition norm_step (allowAboveRoot : bool) (stack : list string) (seg : string)
  : list string :=
  if String.eqb seg "." then stack
  else if String.eqb seg ".." then
    match stack with
    | [] => if allowAboveRoot then [".."] else []
    | top :: below =>
        if String.eqb top ".." then ".." :: stack else below
    end
  else seg :: stack.

Definition normalizeArray (segs : list string) (allowAboveRoot : bool) : list string :=
  rev (fold_left (norm_step allowAboveRoot) segs []).

(** The right-to-left scan of [path.resolve]: every non-empty argument is
    prepended as [path + '/' + resolvedPath] until an absolute one is met. *)
Fixpoint resolve_scan (rev_args : list string) (acc : string) : string * bool :=
  match rev_args with
  | [] => (acc, false)
  | p :: rest =>
      if nonempty p then
        if isAbsolute p then (p +:+ "/" +:+ acc, true)
        else resolve_scan rest (p +:+ "/" +:+ acc)
      else resolve_scan rest acc
  end.

(** [path.resolve(a1, ..., an)] with [process.cwd()] passed explicitly. *)
Definition resolve (cwd : string) (args : list string) : string :=
  let '(raw, abs) := resolve_scan (rev args ++ [cwd]) EmptyString in
  let body := join_parts (normalizeArray (parts raw) (negb abs)) in
  if abs then "/" +:+ body
  else if nonempty body then body else ".".

(** The segments of [path.relative]: the common leading segments are
    dropped, one [".."] climbs out of each remaining segment of [from]. *)
Fixpoint relative_parts (fromParts toParts : list string) : list string :=
  match fromParts, toParts with
  | f :: fs, t :: ts =>
      if String.eqb f t then relative_parts fs ts
      else repeat ".." (length fromParts) ++ toParts
  | _, _ => repeat ".." (length fromParts) ++ toParts
  end.

(** [path.relative(from, to)] *)
Definition relative (cwd from to : string) : string :=
  join_parts (relative_parts (parts (resolve cwd [from])) (parts (resolve cwd [to]))).

Definition ends_with_slash (s : string) : bool :=
  match rev (String.list_ascii_of_string s) with
  | c :: _ => is_slash c
  | [] => false
  end.

(** [path.normalize(p)] *)
Definition normalize (p : string) : string :=
  let abs := isAbsolute p in
  let body := join_parts (normalizeArray (parts p) (negb abs)) in
  let body := if nonempty body then body else if abs then body else "." in
  let body := if nonempty body && ends_with_slash p then body +:+ "/" else body in
  if abs then "/" +:+ body else body.

(** Drops the characters of a reversed path up to and including the last
    run of separators that follows a non-separator character. *)
Fixpoint dirname_cut (rev_tail : list ascii) (matchedSlash : bool) : option (list ascii) :=
  match rev_tail with
  | [] => None
  | [_] => None
  | c :: rest =>
      if is_slash c then
        if matchedSlash then dirname_cut rest true else Some rest
      else dirname_cut rest false
  end.

(** [path.dirname(p)] *)
Definition dirname (p : string) : string :=
  match p with
  | EmptyString => "."
  | _ =>
      match dirname_cut (rev (String.list_ascii_of_string p)) true with
      | None => if isAbsolute p then "/" else "."
      | Some r =>
          match r with
          | [c] => if is_slash c then "//" else String.string_of_list_ascii (rev r)
          | _ => String.string_of_list_ascii (rev r)
          end
      end
  end.

(** [s.substr(-ext.length) === ext] *)
Definition ends_with (ext s : string) : bool :=
  String.prefix (String.rev ext) (String.rev s).

(** [path.basename(p, ext)]: the last segment, without the extension when
    it ends in it. *)
Definition basename (p ext : string) : string :=
  let f := List.last (parts p) EmptyString in
  if nonempty ext && ends_with ext f
  then String.substring 0 (String.length f - String.length ext) f
  else f.

(** [path.join(a1, ..., an)] *)
Definition join (args : list string) : string :=
  normalize (join_parts (List.filter nonempty args)).

(** A path segment: a non-empty string without a separator. *)
Fixpoint slash_free (s : string) : bool :=
  match s with
  | EmptyString => true
  | String c r => negb (is_slash c) && slash_free r
  end.

Definition segment (s : string) : bool := nonempty s && slash_free s.

(** A segment of a normalised absolute path: neither ["."] nor [".."]. *)
Definition plain (s : string) : bool :=
  segment s && negb (String.eqb s ".") && negb (String.eqb s "..").

End Path.


(** ** JavaScript values *)

(** A vinyl file object, together with the [originalPath] property that
    [fixOutputFilePath] adds to it. [file_contents] is [None] when the file
    carries no buffer. *)
Record File := mkFile {
  file_cwd : string;
  file_base : string;
  file_path : string;
  file_originalPath : option string;
  file_contents : option string
}.

(** The values an options object, a filter result or a parsed source map can
    hold. Numbers are the integers; objects carry data properties in
    iteration order and no methods of their own; a function is a path
    filter, called with the relative path and the file, and answers with
    the value it returns. *)
#[local] Unset Elimination Schemes.
Inductive jsval :=
| JUndefined
| JNull
| JBool (b : bool)
| JNum (n : Z)
| JStr (s : string)
| JArr (items : list jsval)
| JObj (props : list (string * jsval))
| JFile (f : File)
| JFun (f : string -> File -> jsval).
#[local] Set Elimination Schemes.

(** [!!v] *)
Definition truthy (v : jsval) : bool :=
  match v with
  | JUndefined | JNull => false
  | JBool b => b
  | JNum n => negb (n =? 0)
  | JStr s => Path.nonempty s
  | JArr _ | JObj _ | JFile _ | JFun _ => true
  end.

(** [a || b] *)
Definition js_or (a b : jsval) : jsval := if truthy a then a else b.

(** [a === 'literal'] *)
Definition strict_eq_str (a : jsval) (lit : string) : bool :=
  match a with JStr s => String.eqb s lit | _ => false end.

(** Error objects: [name] and [message]. *)
Record exn := mkExn { exn_name : string; exn_message : string }.

Definition Error (msg : string) : exn := mkExn "Error" msg.
Definition TypeError (msg : string) : exn := mkExn "TypeError" msg.

(** A computation that returns or throws. *)
Inductive result (A : Type) :=
| Ok (a : A)
| Throw (e : exn).
Arguments Ok {A} a.
Arguments Throw {A} e.

(** Sequencing, written [x ← r; k]: a throw skips the rest. *)
#[global] Instance result_bind : MBind result :=
  fun A B (k : A -> result B) (r : result A) =>
    match r with Ok a => k a | Throw e => Throw e end.

Fixpoint mapM {A B} (f : A -> result B) (l : list A) : result (list B) :=
  match l with
  | [] => Ok []
  | x :: r => y ← f x; ys ← mapM f r; Ok (y :: ys)
  end.

Definition lower_ascii (c : ascii) : ascii :=
  let n := N_of_ascii c in
  if ((65 <=? n) && (n <=? 90))%N then ascii_of_N (n + 32) else c.

Definition upper_ascii (c : ascii) : ascii :=
  let n := N_of_ascii c in
  if ((97 <=? n) && (n <=? 122))%N then ascii_of_N (n - 32) else c.

Fixpoint string_map (f : ascii -> ascii) (s : string) : string :=
  match s with
  | EmptyString => EmptyString
  | String c r => String (f c) (string_map f r)
  end.

(** [v.toLowerCase()]; only strings have the method. *)
Definition toLowerCase (v : jsval) : result jsval :=
  match v with
  | JStr s => Ok (JStr (string_map lower_ascii s))
  | _ => Throw (TypeError "toLowerCase is not a function")
  end.

(** [v.toUpperCase()] *)
Definition toUpperCase (v : jsval) : result jsval :=
  match v with
  | JStr s => Ok (JStr (string_map upper_ascii s))
  | _ => Throw (TypeError "toUpperCase is not a function")
  end.

(** [path.resolve] on values: every argument has to be a string. *)
Definition path_resolve (cwd : string) (args : list jsval) : result string :=
  strs ← mapM (fun v => match v with
                         | JStr s => Ok s
                         | _ => Throw (TypeError "Arguments to path.resolve must be strings")
                         end) args;
  Ok (Path.resolve cwd strs).

(** [o.k] on an options object: a missing property reads as [undefined]. *)
Definition prop (o : gmap string jsval) (k : string) : jsval :=
  default JUndefined (o !! k).

(** ** The compiler object *)

Record Compiler := mkCompiler {
  sourceFiles : list File;
  options : gmap string jsval;
  tscOptions : jsval * jsval;
  tempDestination : option string;
  tscArgumentsFile : option string;
  treeKeeperFile : option string
}.

(** The defaults of the constructor, lines 25 to 48. *)
Definition defaults (defaultModule : jsval) : gmap string jsval :=
  list_to_map [
    ("tscPath", JNull);
    ("tscSearch", JNull);
    ("module", defaultModule);
    ("target", JStr "ES3");
    ("out", JNull);
    ("outDir", JNull);
    ("mapRoot", JNull);
    ("sourceRoot", JNull);
    ("allowbool", JBool false);
    ("allowimportmodule", JBool false);
    ("declaration", JBool false);
    ("noImplicitAny", JBool false);
    ("noResolve", JBool false);
    ("removeComments", JBool false);
    ("sourceMap", JBool false);
    ("suppressImplicitAnyIndexErrors", JBool false);
    ("tmpDir", JStr "");
    ("noLib", JBool false);
    ("keepTree", JBool true);
    ("pathFilter", JNull);
    ("safe", JBool false);
    ("emitDecoratorMetadata", JBool false)
  ].

(** [_.extend(dst, src)]: the own properties of [src] are copied over
    [dst]; a [src] that is [undefined] or [null] contributes nothing. *)
Definition extend (dst : gmap string jsval) (src : option (gmap string jsval))
  : gmap string jsval :=
  match src with
  | Some o => o ∪ dst
  | None => dst
  end.

(** [options && options.target === 'ES6' ? null : 'commonjs'], line 23. *)
Definition defaultModule (options : option (gmap string jsval)) : jsval :=
  match options with
  | Some o => if strict_eq_str (prop o "target") "ES6" then JNull else JStr "commonjs"
  | None => JStr "commonjs"
  end.

(** [new Compiler(sourceFiles, options)]; [None] stands for an argument
    that is [undefined] or [null]. *)
Definition new_Compiler (sourceFiles : option (list File))
    (options : option (gmap string jsval)) : Compiler :=
  let opts := extend (defaults (defaultModule options)) options in
  let opts := <["sourceMap" := js_or (prop opts "sourceMap") (prop opts "sourcemap")]> opts in
  let opts := delete "sourcemap" opts in
  {| sourceFiles := default [] sourceFiles;
     options := opts;
     tscOptions := (prop opts "tscPath", prop opts "tscSearch");
     tempDestination := None;
     tscArgumentsFile := None;
     treeKeeperFile := None |}.

(** [if (cond) args.push(x1, ..., xn)] *)
Definition push_if (cond : bool) (xs : list jsval) (args : list jsval) : list jsval :=
  if cond then args ++ xs else args.

(** [buildTscArguments(version)]; [version] is [None] when the caller
    passes [undefined]. *)
Definition buildTscArguments (cwd : string) (this : Compiler) (version : option string)
  : result (list jsval) :=
  let args := [] in
  let version := match version with None => "1.5" | Some v => v end in
  let o := options this in
  args ← (if truthy (prop o "module")
           then m ← toLowerCase (prop o "module"); Ok (args ++ [JStr "--module"; m])
           else Ok args);
  args ← (if truthy (prop o "target")
           then t ← toUpperCase (prop o "target"); Ok (args ++ [JStr "--target"; t])
           else Ok args);
  let args := push_if (truthy (prop o "mapRoot")) [JStr "--mapRoot"; prop o "mapRoot"] args in
  let args := push_if (truthy (prop o "sourceRoot")) [JStr "--sourceRoot"; prop o "sourceRoot"] args in
  let args := push_if (truthy (prop o "allowbool")) [JStr "--allowbool"] args in
  let args := push_if (truthy (prop o "allowimportmodule")) [JStr "--allowimportmodule"] args in
  let args := push_if (truthy (prop o "suppressImplicitAnyIndexErrors") && String.eqb version "1.5")
                [JStr "--suppressImplicitAnyIndexErrors"] args in
  let args := push_if (truthy (prop o "declaration")) [JStr "--declaration"] args in
  let args := push_if (truthy (prop o "noImplicitAny")) [JStr "--noImplicitAny"] args in
  let args := push_if (truthy (prop o "noResolve")) [JStr "--noResolve"] args in
  let args := push_if (truthy (prop o "removeComments")) [JStr "--removeComments"] args in
  let args := push_if (truthy (prop o "sourceMap")) [JStr "--sourcemap"] args in
  let args := push_if (truthy (prop o "noLib")) [JStr "--noLib"] args in
  let args := push_if (truthy (prop o "emitDecoratorMetadata")) [JStr "--emitDecoratorMetadata"] args in
  args ← match tempDestination this with
          | Some t =>
              if Path.nonempty t then
                let args := args ++ [JStr "--outDir"; JStr t] in
                if truthy (prop o "out")
                then r ← path_resolve cwd [JStr t; prop o "out"];
                     Ok (args ++ [JStr "--out"; JStr r])
                else Ok args
              else Ok (push_if (truthy (prop o "out")) [JStr "--out"; prop o "out"] args)
          | None => Ok (push_if (truthy (prop o "out")) [JStr "--out"; prop o "out"] args)
          end;
  let args := args ++ map (fun f => JStr (file_path f)) (sourceFiles this) in
  let args := match treeKeeperFile this with
              | Some k => push_if (Path.nonempty k) [JStr k] args
              | None => args
              end in
  Ok args.

(** ** The lifecycle registry, lines 353 to 386

    [Compiler.running], [Compiler.aborted] and [Compiler.abortCallbacks] are
    the three fields of the state. A callback is known by its name; calling
    it is recorded, in order, in the list every operation returns next to
    the new state. What a callback does to the registry when it runs is its
    caller's business and is not part of this model. *)
Module Registry.

Definition callback := nat.

Record t := mk {
  running : Z;
  aborted : bool;
  abortCallbacks : list callback
}.

Definition initial : t := mk 0 false [].

(** [Compiler._allAborted()] *)
Definition _allAborted (r : t) : t * list callback :=
  let callbacks := abortCallbacks r in
  let r := mk (running r) false (abortCallbacks r) in
  let r := mk (running r) (aborted r) [] in
  (r, callbacks).

(** [Compiler.abortAll(callback)]; [None] is a call without a callback. *)
Definition abortAll (cb : option callback) (r : t) : t * list callback :=
  let r := mk (running r) true (abortCallbacks r) in
  let r := match cb with
           | Some fn => mk (running r) (aborted r) (abortCallbacks r ++ [fn])
           | None => r
           end in
  if running r =? 0 then _allAborted r else (r, []).

(** [Compiler.isAborted()] *)
Definition isAborted (r : t) : bool := aborted r.

(** [Compiler._start(compiler)]: the counter goes up; the listener it
    registers on the compiler is [on_end]. *)
Definition _start (r : t) : t := mk (running r + 1) (aborted r) (abortCallbacks r).

(** The listener of the compiler's ['end'] event, lines 371 to 376. *)
Definition on_end (r : t) : t * list callback :=
  let r := mk (running r - 1) (aborted r) (abortCallbacks r) in
  if (running r =? 0) && aborted r then _allAborted r else (r, []).

(** What can happen to the registry: an invocation starts, an invocation
    that was started ends, or somebody calls [abortAll]. *)
Inductive action :=
| Start
| End
| AbortAll (cb : option callback).

Definition step (a : action) (r : t) : t * list callback :=
  match a with
  | Start => (_start r, [])
  | End => on_end r
  | AbortAll cb => abortAll cb r
  end.

(** The states the registry goes through, each with the callbacks called
    on the way to it. *)
Fixpoint trace (actions : list action) (r : t) : list (t * list callback) :=
  match actions with
  | [] => []
  | a :: rest => let '(r', called) := step a r in (r', called) :: trace rest r'
  end.

(** The state after all the actions. *)
Fixpoint run (actions : list action) (r : t) : t :=
  match actions with
  | [] => r
  | a :: rest => run rest (fst (step a r))
  end.

Definition is_abortAll (a : action) : bool :=
  match a with AbortAll _ => true | _ => false end.

(** Invocations are in flight, an abort is asked for, and [fn] is queued. *)
Definition waiting (fn : callback) (r : t) : Prop :=
  0 < running r /\ aborted r = true /\ In fn (abortCallbacks r).

End Registry.

(** ** The output rewriter, lines 218 to 346 *)

(** What the JavaScript engine and the libraries answer for: the working
    directory, [JSON], the conversion to a number of a value that is not
    one, the text of a function, and the regular-expression replacement of
    line 333, which calls its argument on the prefix, the quote and the
    path of every match. *)
Record Engine := mkEngine {
  cwd : string;
  JSON_parse : string -> result jsval;
  JSON_stringify : jsval -> string;
  to_number : jsval -> option Z;
  function_source : (string -> File -> jsval) -> string;
  replace_references :
    string -> (string -> string -> string -> result string) -> result string
}.

(** Vinyl's [file.relative] getter. *)
Definition file_relative (cwd : string) (file : File) : result string :=
  if negb (Path.nonempty (file_base file))
  then Throw (Error "No base specified! Can not get relative.")
  else if negb (Path.nonempty (file_path file))
  then Throw (Error "No path specified! Can not get relative.")
  else Ok (Path.relative cwd (file_base file) (file_path file)).

(** [file.path = p] *)
Definition set_path (file : File) (p : string) : File :=
  {| file_cwd := file_cwd file; file_base := file_base file; file_path := p;
     file_originalPath := file_originalPath file; file_contents := file_contents file |}.

(** [file.contents = new Buffer(c)] *)
Definition set_contents (file : File) (c : string) : File :=
  {| file_cwd := file_cwd file; file_base := file_base file; file_path := file_path file;
     file_originalPath := file_originalPath file; file_contents := Some c |}.

(** The first property of that name. *)
Fixpoint assoc (k : string) (props : list (string * jsval)) : jsval :=
  match props with
  | [] => JUndefined
  | (k', v) :: rest => if String.eqb k' k then v else assoc k rest
  end.

(** [obj[k] = v]: an existing property keeps its place, a new one goes last. *)
Fixpoint assoc_set (k : string) (v : jsval) (props : list (string * jsval))
  : list (string * jsval) :=
  match props with
  | [] => [(k, v)]
  | (k', v') :: rest =>
      if String.eqb k' k then (k, v) :: rest else (k', v') :: assoc_set k v rest
  end.

(** [_.isObject(v)] *)
Definition isObject (v : jsval) : bool :=
  match v with
  | JArr _ | JObj _ | JFile _ | JFun _ => true
  | _ => false
  end.

(** [ret.path] of a value that is an object. *)
Definition path_of (v : jsval) : jsval :=
  match v with
  | JFile f => JStr (file_path f)
  | JObj props => assoc "path" props
  | _ => JUndefined
  end.

(** The [_.forOwn] loop of lines 289 to 297 over the properties that are
    left; the first match sets the path and ends the loop. *)
Fixpoint forOwn_mapping (cwd : string) (file : File) (props : list (string * jsval))
  : result File :=
  match props with
  | [] => Ok file
  | (key, val) :: rest =>
      match val with
      | JStr v =>
          let src := Path.normalize key +:+ Path.sep in
          rel ← file_relative cwd file;
          if String.eqb (String.substring 0 (String.length src) rel) src
          then
            let tail := String.substring (String.length src) (String.length rel) rel in
            Ok (set_path file
                  (Path.resolve cwd
                     [file_base file; v; if Path.nonempty tail then tail else "."]))
          else forOwn_mapping cwd file rest
      | _ => forOwn_mapping cwd file rest
      end
  end.

(** [filterOutput(file)]: the file to publish, [null] to drop it, or the
    object that takes its place. *)
Definition filterOutput (cwd : string) (this : Compiler) (file : File) : result jsval :=
  if negb (truthy (prop (options this) "pathFilter")) then Ok (JFile file)
  else
    let filter := prop (options this) "pathFilter" in
    match filter with
    | JFun f =>
        rel ← file_relative cwd file;
        let ret := f rel file in
        match ret with
        | JBool true | JUndefined => Ok (JFile file)
        | JBool false => Ok JNull
        | JStr s => Ok (JFile (set_path file (Path.resolve cwd [file_base file; s])))
        | _ =>
            if isObject ret && truthy (path_of ret) then Ok ret
            else Throw (Error "Unknown return value from pathFilter function")
        end
    | JObj props => file ← forOwn_mapping cwd file props; Ok (JFile file)
    | _ => Throw (Error "Unknown type for pathFilter")
    end.

(** What a [through2] transform does with one item: it pushes a value on,
    pushes nothing, calls [done(e)], or lets an exception escape. *)
Inductive transformed :=
| Pushed (v : jsval)
| Dropped
| Failed (e : exn)
| Raised (e : exn).

(** The [outDir] of [fixOutputFilePath], lines 247 to 252. *)
Definition output_root (cwd : string) (this : Compiler) : result (option string) :=
  if truthy (prop (options this) "outDir")
  then r ← path_resolve cwd [JStr cwd; prop (options this) "outDir"]; Ok (Some r)
  else Ok (tempDestination this).

(** The transform of [fixOutputFilePath], lines 254 to 267. *)
Definition fixOutputFilePath (cwd : string) (this : Compiler) (outDir : option string)
    (file : File) : transformed :=
  match file_relative cwd file with
  | Throw e => Raised e
  | Ok rel =>
      match outDir with
      | None => Raised (TypeError "Arguments to path.resolve must be strings")
      | Some dir =>
          let file :=
            {| file_cwd := dir; file_base := dir;
               file_path := Path.resolve cwd [dir; rel];
               file_originalPath := Some (file_path file);
               file_contents := file_contents file |} in
          if truthy (prop (options this) "pathFilter") then
            match filterOutput cwd this file with
            | Throw e => Failed e
            | Ok v => if truthy v then Pushed v else Dropped
            end
          else Pushed (JFile file)
      end
  end.

(** [/needle/.test(hay)] for a pattern without operators. *)
Definition contains (needle hay : string) : bool :=
  match String.index 0 needle hay with Some _ => true | None => false end.

(** The path rewriting of lines 314 to 315 and 336 to 337: resolved against
    the directory the file came from, then made relative to the directory
    it goes to. [path.dirname] of an [originalPath] that is [undefined]
    throws, as it does since Node 6. On POSIX [path.sep] is not a
    backslash, so lines 316 and 338 do nothing. *)
Definition rebase (cwd : string) (file : File) (p : jsval) : result string :=
  match file_originalPath file with
  | None => Throw (TypeError "Path must be a string")
  | Some orig =>
      resolved ← path_resolve cwd [JStr (Path.dirname orig); p];
      Ok (Path.relative cwd (Path.dirname (file_path file)) resolved)
  end.

(** [map['sources']] *)
Definition sources_of (map : jsval) : result jsval :=
  match map with
  | JUndefined | JNull => Throw (TypeError "Cannot read property 'sources'")
  | JObj props => Ok (assoc "sources" props)
  | _ => Ok JUndefined
  end.

(** [v.length] of a value that is neither [undefined] nor [null]. *)
Definition js_length (v : jsval) : jsval :=
  match v with
  | JArr items => JNum (Z.of_nat (length items))
  | JStr s => JNum (Z.of_nat (String.length s))
  | JObj props => assoc "length" props
  | JFun _ => JNum 2
  | _ => JUndefined
  end.

(** [v > 0] *)
Definition gt_zero (E : Engine) (v : jsval) : bool :=
  match v with
  | JNum n => 0 <? n
  | JBool b => b
  | JUndefined | JNull => false
  | _ => match to_number E v with Some n => 0 <? n | None => false end
  end.

(** Lines 311 to 320: the source map with its [sources] rewritten. *)
Definition rewrite_sources (E : Engine) (file : File) (text : string) : result File :=
  map ← JSON_parse E text;
  sources ← sources_of map;
  if truthy sources && gt_zero E (js_length sources) then
    match sources with
    | JArr items =>
        items' ← mapM (fun sourcePath =>
                         p ← rebase (cwd E) file sourcePath; Ok (JStr p)) items;
        match map with
        | JObj props =>
            Ok (set_contents file
                  (JSON_stringify E (JObj (assoc_set "sources" (JArr items') props))))
        | _ => Ok file
        end
    | _ => Throw (TypeError "map.sources.map is not a function")
    end
  else Ok file.

(** The transform of [fixSourcemapPath], lines 305 to 323. Only a vinyl
    file has [isBuffer]; nothing catches what [JSON.parse] or the path
    functions throw. *)
Definition fixSourcemapPath (E : Engine) (v : jsval) : transformed :=
  match v with
  | JFile file =>
      match file_contents file with
      | Some text =>
          if contains ".js.map" (file_path file) then
            match rewrite_sources E file text with
            | Ok file' => Pushed (JFile file')
            | Throw e => Raised e
            end
          else Pushed v
      | None => Pushed v
      end
  | _ => Raised (TypeError "file.isBuffer is not a function")
  end.

(** The transform of [fixReferencePath], lines 327 to 345. *)
Definition fixReferencePath (E : Engine) (v : jsval) : transformed :=
  match v with
  | JFile file =>
      match file_contents file with
      | Some text =>
          if contains ".d.ts" (file_path file) then
            match replace_references E text
                    (fun prefix quote refPath =>
                       p ← rebase (cwd E) file (JStr refPath);
                       Ok (prefix +:+ quote +:+ p +:+ quote)) with
            | Ok newContent => Pushed (JFile (set_contents file newContent))
            | Throw e => Raised e
            end
          else Pushed v
      | None => Pushed v
      end
  | _ => Raised (TypeError "file.isBuffer is not a function")
  end.

(** Whether [processOutputFiles] pipes through [fixSourcemapPath], line 228. *)
Definition sourcemap_stage (this : Compiler) : bool :=
  truthy (prop (options this) "sourceMap") && negb (truthy (prop (options this) "sourceRoot")).

(** Whether it pipes through [fixReferencePath], line 231. *)
Definition reference_stage (this : Compiler) : bool :=
  truthy (prop (options this) "declaration") && truthy (prop (options this) "outDir").

(** What one item leaves a chain of piped transforms as. [pipe] forwards
    no errors: only the last stream of the chain has an ['error'] listener,
    so [done(e)] anywhere before it, like an escaping exception, is an
    uncaught error. *)
Inductive piped :=
| Data (v : jsval)
| Nothing
| StreamError (e : exn)
| Uncaught (e : exn).

Fixpoint through (stages : list (jsval -> transformed)) (v : jsval) : piped :=
  match stages with
  | [] => Data v
  | stage :: rest =>
      match stage v with
      | Pushed v' => through rest v'
      | Dropped => Nothing
      | Failed e => match rest with [] => StreamError e | _ => Uncaught e end
      | Raised e => Uncaught e
      end
  end.

(** ** The invocation, lines 105 to 243 and 348 to 351 *)

(** What the external [tsc] process does: the lines and errors it emits,
    and the code it exits with, [None] inside for the [null] of a process
    ended by a signal, [None] outside for a process that never exits. *)
Inductive output :=
| Stdout (chunk : string)
| Stderr (chunk : string)
| ProcessError (e : exn).

Record process := mkProcess {
  proc_output : list output;
  proc_exit : option (option Z)
}.

(** The world around an invocation: the engine, [temp], [fs], the [tsc]
    module of the package and [vinyl-fs], each by what it answers, and what
    the other turns of the event loop do to the registry before each of the
    points where the invocation looks at it. *)
Record System := mkSystem {
  engine : Engine;
  temp_mkdir : string -> result string;
  temp_open : string -> result (string * Z);
  fs_write_close : Z -> option exn;
  fs_writeFile : string -> string -> option exn;
  tsc_version : jsval * jsval -> option string;
  tsc_exec : list string -> jsval * jsval -> process;
  fsSrc : list string -> option string -> list File * option exn;
  interfere : nat -> Registry.t -> Registry.t
}.

(** What an invocation does that can be seen from outside, in order: the
    events it emits, the calls it makes to the libraries, and the call of
    its callback. What the listeners of the events do is theirs. *)
Inductive event :=
| Emit_start
| Emit_end
| Emit_data (file : jsval)
| Emit_stdout (chunk : string)
| Emit_stderr (chunk : string)
| Emit_error (e : exn)
| Call_mkdir (dir : string)
| Call_open (dir : string)
| Call_writeFile (file content : string)
| Call_exec (args : list string)
| Call_fsSrc (patterns : list string) (cwd : option string)
| Call_rimraf (dir : option string)
| Call_unlink (file : option string)
| Call_abortCallback (fn : Registry.callback)
| Callback (err : option exn).

(** How an asynchronous operation comes to an end: its callback is called,
    an exception nobody catches takes the process down, or nothing happens
    any more. *)
Inductive completion :=
| Completed (err : option exn)
| Crashed (e : exn)
| Pending.

(** The last streams of [processOutputFiles], lines 227 to 233. *)
Definition output_stages (E : Engine) (this : Compiler) (outDir : option string)
  : list (jsval -> transformed) :=
  (fun v => match v with
            | JFile file => fixOutputFilePath (cwd E) this outDir file
            | _ => Raised (TypeError "file.relative is undefined")
            end)
  :: (if sourcemap_stage this then [fixSourcemapPath E] else [])
  ++ (if reference_stage this then [fixReferencePath E] else []).

(** The files of the source stream going down the chain one by one, the
    ['data'] events of lines 234 to 236, and the call of lines 237 to 242. *)
Fixpoint drain (stages : list (jsval -> transformed)) (files : list File)
    (source_error : option exn) : list event * completion :=
  match files with
  | [] =>
      match source_error with
      | Some e => ([], Crashed e)
      | None => ([], Completed None)
      end
  | file :: rest =>
      match through stages (JFile file) with
      | Data v =>
          let '(events, c) := drain stages rest source_error in
          (Emit_data v :: events, c)
      | Nothing => drain stages rest source_error
      | StreamError e => ([], Completed (Some e))
      | Uncaught e => ([], Crashed e)
      end
  end.

(** [processOutputFiles(callback)] *)
Definition processOutputFiles (S : System) (this : Compiler) : list event * completion :=
  let patterns :=
    "**/*{.js,.js.map,.d.ts}"
    :: match treeKeeperFile this with
       | Some k =>
           if Path.nonempty k
           then ["!**/" +:+ Path.basename k ".ts" +:+ ".*"] else []
       | None => []
       end in
  let '(files, source_error) := fsSrc S patterns (tempDestination this) in
  match output_root (cwd (engine S)) this with
  | Throw e => ([Call_fsSrc patterns (tempDestination this)], Crashed e)
  | Ok outDir =>
      let '(events, c) :=
        drain (output_stages (engine S) this outDir) files source_error in
      (Call_fsSrc patterns (tempDestination this) :: events, c)
  end.

(** The decimal numeral of an integer. *)
Definition show_Z (z : Z) : string := NilZero.string_of_int (Z.to_int z).

Definition quote : string := String (ascii_of_nat 34) EmptyString.
Definition newline : string := String (ascii_of_nat 10) EmptyString.

(** The string [Array.prototype.join] makes of an element. *)
Fixpoint to_string (E : Engine) (v : jsval) : string :=
  match v with
  | JUndefined | JNull => ""
  | JBool true => "true"
  | JBool false => "false"
  | JNum n => show_Z n
  | JStr s => s
  | JArr items =>
      String.concat ","
        ((fix each (l : list jsval) : list string :=
            match l with
            | [] => []
            | x :: r => to_string E x :: each r
            end) items)
  | JObj _ | JFile _ => "[object Object]"
  | JFun f => function_source E f
  end.

(** An invocation in flight: the compiler object, the registry as it is
    now, and what has been seen of the invocation so far. *)
Record state := mkState {
  self : Compiler;
  registry : Registry.t;
  log : list event
}.

Definition record (events : list event) (st : state) : state :=
  mkState (self st) (registry st) (log st ++ events).

Definition with_self (this : Compiler) (st : state) : state :=
  mkState this (registry st) (log st).

(** How a task of the waterfall ends: [callback(null)], [callback(err)], an
    exception thrown out of the task, or no call at all. *)
Inductive task_result :=
| Next
| Err (e : exn)
| Crash (e : exn)
| Hang.

Definition task := System -> state -> state * task_result.

(** [checkAborted(callback)], the [k]-th of the five in the waterfall. *)
Definition checkAborted (k : nat) : task := fun S st =>
  let st := mkState (self st) (interfere S k (registry st)) (log st) in
  if Registry.isAborted (registry st)
  then (st, Err (Error "aborted"))
  else (st, Next).

(** [makeTempDestinationDir(callback)] *)
Definition makeTempDestinationDir : task := fun S st =>
  let this := self st in
  match path_resolve (cwd (engine S))
          [JStr (cwd (engine S)); prop (options this) "tmpDir"] with
  | Throw e => (st, Crash e)
  | Ok dir =>
      let st := record [Call_mkdir dir] st in
      match temp_mkdir S dir with
      | Throw err => (st, Err err)
      | Ok dirPath =>
          (with_self (mkCompiler (sourceFiles this) (options this) (tscOptions this)
                        (Some dirPath) (tscArgumentsFile this) (treeKeeperFile this)) st,
           Next)
      end
  end.

(** [err.message || err], as a piece of a string. *)
Definition message_or_self (err : exn) : string :=
  if Path.nonempty (exn_message err) then exn_message err
  else exn_name err.

(** [makeTreeKeeperFile(callback)] *)
Definition makeTreeKeeperFile : task := fun S st =>
  let this := self st in
  if negb (truthy (prop (options this) "keepTree"))
     || truthy (prop (options this) "out")
     || Nat.eqb (length (sourceFiles this)) 0
  then (st, Next)
  else
    match sourceFiles this with
    | [] => (st, Next)
    | first :: _ =>
        let st := record [Call_open (file_base first)] st in
        match temp_open S (file_base first) with
        | Throw err =>
            (st, Err (Error
               ("Failed to create a temporary file on source directory: "
                +:+ message_or_self err +:+ ", "
                +:+ "To skip creating it specify { keepTree: false } to your gulp-tsc.")))
        | Ok (path, fd) =>
            let st :=
              with_self (mkCompiler (sourceFiles this) (options this) (tscOptions this)
                           (tempDestination this) (tscArgumentsFile this) (Some path)) st in
            match fs_write_close S fd with
            | Some e => (st, Err e)
            | None => (st, Next)
            end
        end
    end.

(** [getVersion(callback)]: what the callback is called with, [None] for
    [undefined]. *)
Definition getVersion (S : System) (this : Compiler) : option string :=
  tsc_version S (tscOptions this).

(** [prepareTscArgumentsFile(callback)] *)
Definition prepareTscArgumentsFile : task := fun S st =>
  let this := self st in
  match buildTscArguments (cwd (engine S)) this (getVersion S this) with
  | Throw e => (st, Crash e)
  | Ok tscArguments =>
      let content :=
        quote +:+ String.concat (quote +:+ newline +:+ quote)
                    (map (to_string (engine S)) tscArguments) +:+ quote in
      match tempDestination this with
      | None => (st, Crash (TypeError "Arguments to path.join must be strings"))
      | Some dir =>
          let file := Path.join [dir; "tscArguments"] in
          let st :=
            with_self (mkCompiler (sourceFiles this) (options this) (tscOptions this)
                         (tempDestination this) (Some file) (treeKeeperFile this)) st in
          let st := record [Call_writeFile file content] st in
          match fs_writeFile S file content with
          | Some err => (st, Err err)
          | None => (st, Next)
          end
      end
  end.

(** The message of line 200. *)
Definition exit_message (code : option Z) : string :=
  "tsc command has exited with code:"
  +:+ match code with Some n => show_Z n | None => "null" end.

(** [runTsc(callback)] *)
Definition runTsc : task := fun S st =>
  let this := self st in
  let args :=
    ["@" +:+ match tscArgumentsFile this with Some f => f | None => "null" end] in
  let proc := tsc_exec S args (tscOptions this) in
  let st := record [Call_exec args] st in
  let st := record (map (fun o => match o with
                                  | Stdout chunk => Emit_stdout chunk
                                  | Stderr chunk => Emit_stderr chunk
                                  | ProcessError e => Emit_error e
                                  end) (proc_output proc)) st in
  match proc_exit proc with
  | None => (st, Hang)
  | Some code =>
      match code with
      | Some 0 => (st, Next)
      | _ => (st, Err (Error (exit_message code)))
      end
  end.

(** [async.waterfall]: the tasks run in order up to the first that does
    not call back with [null]. *)
Fixpoint waterfall (tasks : list task) (S : System) (st : state) : state * task_result :=
  match tasks with
  | [] => (st, Next)
  | t :: rest =>
      match t S st with
      | (st', Next) => waterfall rest S st'
      | other => other
      end
  end.

(** The tasks of lines 112 to 121. *)
Definition tasks : list task :=
  [ checkAborted 0;
    makeTempDestinationDir;
    checkAborted 1;
    makeTreeKeeperFile;
    checkAborted 2;
    prepareTscArgumentsFile;
    checkAborted 3;
    runTsc;
    checkAborted 4 ].

(** [cleanup()] *)
Definition cleanup (st : state) : state :=
  record [Call_rimraf (tempDestination (self st)); Call_unlink (treeKeeperFile (self st))] st.

(** [finish(err)], lines 132 to 136; the ['end'] event runs the listener
    [Compiler._start] registered. *)
Definition finish (S : System) (err : option exn) (st : state) : state :=
  let st := cleanup st in
  let st := record [Emit_end] st in
  let '(r, called) := Registry.on_end (interfere S 5 (registry st)) in
  let st := mkState (self st) r (log st ++ map Call_abortCallback called) in
  record [Callback err] st.

(** The function the waterfall ends in, lines 122 to 130, called with the
    error the waterfall stopped at, if any. *)
Definition after_waterfall (S : System) (err : option exn) (st : state)
  : state * completion :=
  if match err with
     | Some _ => truthy (prop (options (self st)) "safe")
     | None => false
     end
  then (finish S err st, Completed err)
  else
    let '(events, c) := processOutputFiles S (self st) in
    let st := record events st in
    match c with
    | Completed err2 =>
        let e := match err with Some _ => err | None => err2 end in
        (finish S e st, Completed e)
    | other => (st, other)
    end.

(** [compile(callback)] of the compiler [this], with the registry as it is
    when the call is made. *)
Definition compile (S : System) (this : Compiler) (r : Registry.t) : state * completion :=
  let st := mkState this r [Emit_start] in
  let st := mkState (self st) (Registry._start (registry st)) (log st) in
  match waterfall tasks S st with
  | (st, Next) => after_waterfall S None st
  | (st, Err e) => after_waterfall S (Some e) st
  | (st, Crash e) => (st, Crashed e)
  | (st, Hang) => (st, Pending)
  end.

(** ** Reading a log *)

(** The argument lists of the [tsc.exec] calls of a log. *)
Fixpoint execs (events : list event) : list (list string) :=
  match events with
  | [] => []
  | Call_exec args :: rest => args :: execs rest
  | _ :: rest => execs rest
  end.

(** The [fsSrc] calls of a log, by their patterns and directory: every run
    of [processOutputFiles] makes one. *)
Fixpoint globs (events : list event) : list (list string * option string) :=
  match events with
  | [] => []
  | Call_fsSrc patterns dir :: rest => (patterns, dir) :: globs rest
  | _ :: rest => globs rest
  end.

(** From [st] to [st'] no process was launched, no output was relocated,
    and the options stayed what they were. *)
Definition calm (st st' : state) : Prop :=
  exists events,
    log st' = log st ++ events
    /\ execs events = [] /\ globs events = []
    /\ options (self st') = options (self st)
    /\ tscOptions (self st') = tscOptions (self st).

(** ** Configurations the argument builder is meant for

    The predicates below are not part of the program; they single out the
    configurations the properties are stated for. *)

(** A value that is a string or falsy: what [module], [target] and [out]
    have to be for [toLowerCase], [toUpperCase] and [path.resolve]. *)
Definition stringy (v : jsval) : bool :=
  match v with JStr _ => true | _ => negb (truthy v) end.

(** A string spelled like a flag. *)
Definition dashed (s : string) : bool :=
  match s with
  | String c1 (String c2 _) => Ascii.eqb c1 "-"%char && Ascii.eqb c2 "-"%char
  | _ => false
  end.

Definition undashed_val (v : jsval) : bool :=
  match v with JStr s => negb (dashed s) | _ => true end.

(** No option value, source path or placeholder path is spelled like a
    flag, the three string options are strings, and the temporary
    destination, once created, is an absolute path. *)
Definition config_ok (this : Compiler) : bool :=
  stringy (prop (options this) "module")
  && stringy (prop (options this) "target")
  && stringy (prop (options this) "out")
  && forallb (fun kv => undashed_val (snd kv)) (map_to_list (options this))
  && forallb (fun f => negb (dashed (file_path f))) (sourceFiles this)
  && match tempDestination this with Some t => Path.isAbsolute t | None => true end
  && match treeKeeperFile this with Some k => negb (dashed k) | None => true end.

(** The options that map to a flag of their own, lines 69 to 82 and 86 to 90. *)
Definition option_flags : list (string * string) :=
  [ ("module", "--module");
    ("target", "--target");
    ("mapRoot", "--mapRoot");
    ("sourceRoot", "--sourceRoot");
    ("allowbool", "--allowbool");
    ("allowimportmodule", "--allowimportmodule");
    ("suppressImplicitAnyIndexErrors", "--suppressImplicitAnyIndexErrors");
    ("declaration", "--declaration");
    ("noImplicitAny", "--noImplicitAny");
    ("noResolve", "--noResolve");
    ("removeComments", "--removeComments");
    ("sourceMap", "--sourcemap");
    ("noLib", "--noLib");
    ("emitDecoratorMetadata", "--emitDecoratorMetadata");
    ("out", "--out") ].

(** The result of the case conversions on a string-or-falsy value. *)
Definition cased (f : ascii -> ascii) (v : jsval) : jsval :=
  match v with JStr s => JStr (string_map f s) | _ => v end.

(** The arguments pushed by lines 69 to 82, for string-or-falsy [module]
    and [target]. *)
Definition flag_args (o : gmap string jsval) (version : string) : list jsval :=
  let args := push_if (truthy (prop o "module"))
                [JStr "--module"; cased lower_ascii (prop o "module")] [] in
  let args := push_if (truthy (prop o "target"))
                [JStr "--target"; cased upper_ascii (prop o "target")] args in
  let args := push_if (truthy (prop o "mapRoot")) [JStr "--mapRoot"; prop o "mapRoot"] args in
  let args := push_if (truthy (prop o "sourceRoot")) [JStr "--sourceRoot"; prop o "sourceRoot"] args in
  let args := push_if (truthy (prop o "allowbool")) [JStr "--allowbool"] args in
  let args := push_if (truthy (prop o "allowimportmodule")) [JStr "--allowimportmodule"] args in
  let args := push_if (truthy (prop o "suppressImplicitAnyIndexErrors") && String.eqb version "1.5")
                [JStr "--suppressImplicitAnyIndexErrors"] args in
  let args := push_if (truthy (prop o "declaration")) [JStr "--declaration"] args in
  let args := push_if (truthy (prop o "noImplicitAny")) [JStr "--noImplicitAny"] args in
  let args := push_if (truthy (prop o "noResolve")) [JStr "--noResolve"] args in
  let args := push_if (truthy (prop o "removeComments")) [JStr "--removeComments"] args in
  let args := push_if (truthy (prop o "sourceMap")) [JStr "--sourcemap"] args in
  let args := push_if (truthy (prop o "noLib")) [JStr "--noLib"] args in
  push_if (truthy (prop o "emitDecoratorMetadata")) [JStr "--emitDecoratorMetadata"] args.

(** ** Sample data for the examples *)

Definition sample_source : File := mkFile "/w" "/w/src" "/w/src/a.ts" None None.

(** An engine whose [JSON.parse] knows one document. *)
Definition sample_engine : Engine :=
  mkEngine "/w"
    (fun _ => Ok (JObj [("version", JNum 3); ("file", JStr "a.js");
                        ("sources", JArr [JStr "../src/a.ts"])]))
    (fun _ => "{}")
    (fun _ => None)
    (fun _ => "function () {}")
    (fun text _ => Ok text).

(** A system in which everything works, the placeholder apart when
    [open_fails], and [tsc] exits with [code] after one line of errors. *)
Definition sample_system (open_fails : bool) (code : Z) : System :=
  mkSystem sample_engine
    (fun dir => Ok (dir +:+ "/gulp-tsc-tmp-1"))
    (fun dir => if open_fails then Throw (Error "EACCES: permission denied")
                else Ok (dir +:+ "/.gulp-tsc-tmp-2.ts", 3))
    (fun _ => None)
    (fun _ _ => None)
    (fun _ => Some "1.5")
    (fun _ _ => mkProcess [Stderr "a.ts(1,1): error TS1005"] (Some (Some code)))
    (fun _ _ =>
       ([mkFile "/w/gulp-tsc-tmp-1" "/w/gulp-tsc-tmp-1" "/w/gulp-tsc-tmp-1/a.js"
           None (Some "var a;")], None))
    (fun _ r => r).

(** The same system with a source map among the compiled files that
    [JSON.parse] rejects. *)
Definition broken_map_system (code : Z) : System :=
  mkSystem
    (mkEngine "/w" (fun _ => Throw (mkExn "SyntaxError" "Unexpected end of input"))
       (fun _ => "{}") (fun _ => None) (fun _ => "function () {}")
       (fun text _ => Ok text))
    (temp_mkdir (sample_system false code))
    (temp_open (sample_system false code))
    (fs_write_close (sample_system false code))
    (fs_writeFile (sample_system false code))
    (tsc_version (sample_system false code))
    (tsc_exec (sample_system false code))
    (fun _ _ =>
       ([mkFile "/w/gulp-tsc-tmp-1" "/w/gulp-tsc-tmp-1" "/w/gulp-tsc-tmp-1/a.js.map"
           None (Some "{")], None))
    (interfere (sample_system false code)).

Definition sample_compiler (o : gmap string jsval) : Compiler :=
  new_Compiler (Some [sample_source]) (Some o).

(** The same compiler once its temporary directory and its placeholder
    exist. *)
Definition at_work (this : Compiler) : Compiler :=
  mkCompiler (sourceFiles this) (options this) (tscOptions this)
    (Some "/w/gulp-tsc-tmp-1") (tscArgumentsFile this) (Some "/w/src/.gulp-tsc-tmp-2.ts").

(** A compiled file as the source stream of [processOutputFiles] yields it. *)
Definition sample_output : File :=
  mkFile "/w/gulp-tsc-tmp-1" "/w/gulp-tsc-tmp-1" "/w/gulp-tsc-tmp-1/src/x.js"
    None (Some "var x;").

(** A source map after [fixOutputFilePath] has moved it. *)
Definition sample_map : File :=
  mkFile "/w/out" "/w/out" "/w/out/a.js.map"
    (Some "/w/gulp-tsc-tmp-1/a.js.map") (Some "{}").

(** ** Further notions: reading registries, logs and argument lists *)

(** The callbacks a list of actions hands to [abortAll], in order. *)
Definition registered (actions : list Registry.action) : list Registry.callback :=
  flat_map (fun a => match a with
                     | Registry.AbortAll (Some fn) => [fn]
                     | _ => []
                     end) actions.

(** Every ['end'] of the list is the end of an invocation started before
    it; [depth] invocations are in flight when the list begins. *)
Fixpoint matched (depth : nat) (actions : list Registry.action) : bool :=
  match actions with
  | [] => true
  | Registry.Start :: rest => matched (S depth) rest
  | Registry.End :: rest =>
      match depth with
      | O => false
      | S d => matched d rest
      end
  | Registry.AbortAll _ :: rest => matched depth rest
  end.

(** The invocations in flight after the actions. *)
Fixpoint depth_after (depth : nat) (actions : list Registry.action) : nat :=
  match actions with
  | [] => depth
  | Registry.Start :: rest => depth_after (S depth) rest
  | Registry.End :: rest => depth_after (Nat.pred depth) rest
  | Registry.AbortAll _ :: rest => depth_after depth rest
  end.



(** The events of the work of an invocation: the calls that prepare and
    launch the compiler, what the process emits and the relocation of the
    output. The others open and close the invocation. *)
Definition working (e : event) : bool :=
  match e with
  | Emit_start | Emit_end | Call_rimraf _ | Call_unlink _
  | Call_abortCallback _ | Callback _ => false
  | _ => true
  end.

(** The events of [processOutputFiles]. *)
Definition relocating (e : event) : bool :=
  match e with
  | Call_fsSrc _ _ | Emit_data _ => true
  | _ => false
  end.

(** The directory [temp.mkdir] has made last, according to a log. *)
Fixpoint created_dir (S : System) (acc : option string) (events : list event)
  : option string :=
  match events with
  | [] => acc
  | Call_mkdir dir :: rest =>
      created_dir S (match temp_mkdir S dir with
                     | Ok dirPath => Some dirPath
                     | Throw _ => acc
                     end) rest
  | _ :: rest => created_dir S acc rest
  end.

(** The file [temp.open] has made last, according to a log. *)
Fixpoint created_file (S : System) (acc : option string) (events : list event)
  : option string :=
  match events with
  | [] => acc
  | Call_open dir :: rest =>
      created_file S (match temp_open S dir with
                      | Ok (path, _) => Some path
                      | Throw _ => acc
                      end) rest
  | _ :: rest => created_file S acc rest
  end.

(** The compiler object knows of the directory and of the placeholder
    that were made for it, and of no other. *)
Definition tidy (S : System) (st : state) : Prop :=
  tempDestination (self st) = created_dir S None (log st)
  /\ treeKeeperFile (self st) = created_file S None (log st).

(** From [st] to [st'] the invocation only worked, the registry is what
    the other turns of the event loop made of it, and the compiler object
    has kept track of what was made. *)
Definition advance (S : System) (st st' : state) : Prop :=
  (exists events, log st' = log st ++ events /\ forallb working events = true)
  /\ (forall P : Registry.t -> Prop,
        (forall k r, P r -> P (interfere S k r)) ->
        P (registry st) -> P (registry st'))
  /\ (tidy S st -> tidy S st').

(** The system of the examples when another turn of the event loop calls
    [abortAll()] just before the [k]-th check. *)
Definition aborting_system (k : nat) : System :=
  mkSystem sample_engine
    (temp_mkdir (sample_system false 0))
    (temp_open (sample_system false 0))
    (fs_write_close (sample_system false 0))
    (fs_writeFile (sample_system false 0))
    (tsc_version (sample_system false 0))
    (tsc_exec (sample_system false 0))
    (fsSrc (sample_system false 0))
    (fun n r => if Nat.eqb n k then fst (Registry.abortAll None r) else r).

(** The system of the examples when [temp.mkdir] fails. *)
Definition mkdir_failing_system : System :=
  mkSystem sample_engine
    (fun _ => Throw (Error "EACCES: permission denied"))
    (temp_open (sample_system false 0))
    (fs_write_close (sample_system false 0))
    (fs_writeFile (sample_system false 0))
    (tsc_version (sample_system false 0))
    (tsc_exec (sample_system false 0))
    (fun _ _ => ([], None))
    (interfere (sample_system false 0)).


(** A compiled file as lines 255 to 257 leave it: under the output root
    [dir], at the place it had under its base, its old path remembered. *)
Definition relocated (cwd dir : string) (file : File) : File :=
  mkFile dir dir
    (Path.resolve cwd [dir; Path.relative cwd (file_base file) (file_path file)])
    (Some (file_path file)) (file_contents file).


(** * Properties *)

Example split_ex : Path.split "a//b/" = ["a"; ""; "b"; ""].
Proof. reflexivity. Qed.
Example resolve_ex1 : Path.resolve "/home/u" ["out"; "../lib/./x.js"] = "/home/u/lib/x.js".
Proof. reflexivity. Qed.
Example resolve_ex2 : Path.resolve "/home/u" ["/tmp/t"; "a.js"] = "/tmp/t/a.js".
Proof. reflexivity. Qed.
Example resolve_ex3 : Path.resolve "/home/u" ["/tmp/t"; "/abs/a.js"; ""] = "/abs/a.js".
Proof. reflexivity. Qed.
Example resolve_ex4 : Path.resolve "/" ["../.."] = "/".
Proof. reflexivity. Qed.
Example relative_ex1 : Path.relative "/home/u" "/tmp/t/a" "/tmp/src/b.ts" = "../../src/b.ts".
Proof. reflexivity. Qed.
Example relative_ex2 : Path.relative "/home/u" "/tmp/t" "/tmp/t" = "".
Proof. reflexivity. Qed.
Example relative_ex3 : Path.relative "/home/u" "/tmp/t" "/tmp/t/a/b.js" = "a/b.js".
Proof. reflexivity. Qed.
Example normalize_ex : Path.normalize "src/./a/../" = "src/".
Proof. reflexivity. Qed.
Example normalize_ex2 : Path.normalize "" = ".".
Proof. reflexivity. Qed.
Example dirname_ex1 : Path.dirname "/tmp/t/a/b.js.map" = "/tmp/t/a".
Proof. reflexivity. Qed.
Example dirname_ex2 : Path.dirname "/b.js" = "/".
Proof. reflexivity. Qed.
Example dirname_ex3 : Path.dirname "b.js" = ".".
Proof. reflexivity. Qed.
Example dirname_ex4 : Path.dirname "a/b/" = "a".
Proof. reflexivity. Qed.

(** ** Facts about the path model *)
Section PathFacts.
Import Path.

Lemma string_app_cons (x : ascii) (a b : string) :
  String x a +:+ b = String x (a +:+ b).
Proof. reflexivity. Qed.

Lemma string_app_nil_l (a : string) : "" +:+ a = a.
Proof. reflexivity. Qed.

Lemma string_app_assoc (a b c : string) : (a +:+ b) +:+ c = a +:+ (b +:+ c).
Proof.
  induction a as [|x a IH]; [reflexivity |].
  rewrite !string_app_cons. f_equal. exact IH.
Qed.

Lemma string_app_nil_r (a : string) : a +:+ "" = a.
Proof.
  induction a as [|x a IH]; [reflexivity |].
  rewrite string_app_cons. f_equal. exact IH.
Qed.

Lemma split_not_nil s : split s <> [].
Proof.
  destruct s as [|c r]; simpl; [discriminate |].
  destruct (is_slash c); [discriminate |].
  destruct (split r); discriminate.
Qed.

Lemma split_app_slash a b : split (a +:+ "/" +:+ b) = split a ++ split b.
Proof.
  induction a as [|c a IH]; [reflexivity |].
  rewrite string_app_cons. simpl.
  destruct (is_slash c); simpl; [now rewrite IH |].
  rewrite IH. pose proof (split_not_nil a) as Hn.
  destruct (split a); [contradiction | reflexivity].
Qed.

Lemma parts_app_slash a b : parts (a +:+ "/" +:+ b) = parts a ++ parts b.
Proof. unfold parts. now rewrite split_app_slash, List.filter_app. Qed.

Lemma parts_empty : parts "" = [].
Proof. reflexivity. Qed.

Lemma split_slash_free s : slash_free s = true -> split s = [s].
Proof.
  induction s as [|c r IH]; simpl; [reflexivity |].
  intros [Hc Hr]%andb_true_iff. apply negb_true_iff in Hc. rewrite Hc.
  now rewrite (IH Hr).
Qed.

Lemma split_all_slash_free s : Forall (fun x => slash_free x = true) (split s).
Proof.
  induction s as [|c r IH]; simpl.
  - now repeat constructor.
  - destruct (is_slash c) eqn:Hc.
    + constructor; [reflexivity | exact IH].
    + destruct (split r) as [|h t].
      * constructor; [simpl; now rewrite Hc | constructor].
      * inversion IH; subst. constructor; [simpl; now rewrite Hc | assumption].
Qed.

Lemma parts_all_segments s : Forall (fun x => segment x = true) (parts s).
Proof.
  unfold parts. pose proof (split_all_slash_free s) as H.
  induction H as [|x l Hx Hl IH]; simpl; [constructor |].
  destruct (nonempty x) eqn:Hn; [|exact IH].
  constructor; [unfold segment; now rewrite Hn, Hx | exact IH].
Qed.

Lemma parts_join l : Forall (fun x => segment x = true) l -> parts (join_parts l) = l.
Proof.
  induction 1 as [|x l Hx Hl IH]; [reflexivity |].
  apply andb_true_iff in Hx as [Hne Hsf].
  destruct l as [|y l].
  - simpl. unfold parts. rewrite (split_slash_free _ Hsf). simpl. now rewrite Hne.
  - change (join_parts (x :: y :: l)) with (x +:+ "/" +:+ join_parts (y :: l)).
    rewrite parts_app_slash, IH. unfold parts.
    rewrite (split_slash_free _ Hsf). simpl. now rewrite Hne.
Qed.

Lemma parts_slash_join l :
  Forall (fun x => segment x = true) l -> parts ("/" +:+ join_parts l) = l.
Proof.
  intros H. change ("/" +:+ join_parts l) with ("" +:+ "/" +:+ join_parts l).
  now rewrite parts_app_slash, parts_empty, parts_join.
Qed.

Lemma plain_segment s : plain s = true -> segment s = true.
Proof. unfold plain. now intros [[H _]%andb_true_iff _]%andb_true_iff. Qed.

Lemma Forall_plain_segment l :
  Forall (fun x => plain x = true) l -> Forall (fun x => segment x = true) l.
Proof. intros H. eapply Forall_impl; [exact H | exact plain_segment]. Qed.

Lemma norm_step_plain b st s : plain s = true -> norm_step b st s = s :: st.
Proof.
  unfold plain, norm_step.
  intros [[_ H1%negb_true_iff]%andb_true_iff H2%negb_true_iff]%andb_true_iff.
  now rewrite H1, H2.
Qed.

Lemma norm_step_up_plain top below :
  plain top = true -> norm_step false (top :: below) ".." = below.
Proof.
  unfold plain, norm_step. simpl.
  intros [_ H2%negb_true_iff]%andb_true_iff. now rewrite H2.
Qed.

(** Pushing plain segments only grows the stack. *)
Lemma fold_norm_plain b l st :
  Forall (fun x => plain x = true) l ->
  fold_left (norm_step b) l st = rev l ++ st.
Proof.
  intros H. revert st. induction H as [|x l Hx Hl IH]; intros st; simpl; [reflexivity |].
  rewrite (norm_step_plain _ _ _ Hx), IH. now rewrite <- app_assoc.
Qed.

(** Below the root nothing but plain segments survives. *)
Lemma norm_step_keeps_plain st s :
  segment s = true ->
  Forall (fun x => plain x = true) st ->
  Forall (fun x => plain x = true) (norm_step false st s).
Proof.
  intros Hs Hst. unfold norm_step.
  destruct (String.eqb s ".") eqn:E1; [exact Hst |].
  destruct (String.eqb s "..") eqn:E2.
  - apply String.eqb_eq in E2. subst s.
    change (Forall (fun x => plain x = true) (norm_step false st "..")).
    destruct st as [|top below]; [constructor |].
    inversion Hst as [|? ? Htop Hbelow]; subst.
    now rewrite (norm_step_up_plain top below Htop) in *.
  - constructor; [|exact Hst]. unfold plain. now rewrite Hs, E1, E2.
Qed.

Lemma fold_norm_keeps_plain l st :
  Forall (fun x => segment x = true) l ->
  Forall (fun x => plain x = true) st ->
  Forall (fun x => plain x = true) (fold_left (norm_step false) l st).
Proof.
  intros H. revert st. induction H as [|x l Hx Hl IH]; intros st Hst; simpl; [exact Hst |].
  apply IH. now apply norm_step_keeps_plain.
Qed.

Lemma normalizeArray_plain l :
  Forall (fun x => segment x = true) l ->
  Forall (fun x => plain x = true) (normalizeArray l false).
Proof.
  intros H. unfold normalizeArray. apply Forall_rev.
  apply fold_norm_keeps_plain; [exact H | constructor].
Qed.

Lemma normalizeArray_id l :
  Forall (fun x => plain x = true) l -> normalizeArray l false = l.
Proof.
  intros H. unfold normalizeArray. rewrite (fold_norm_plain _ _ _ H).
  now rewrite app_nil_r, rev_involutive.
Qed.

(** Climbing out of [length l] plain segments removes exactly those. *)
Lemma fold_norm_climb l rest st :
  Forall (fun x => plain x = true) l ->
  fold_left (norm_step false) (repeat ".." (length l) ++ rest) (l ++ st)
  = fold_left (norm_step false) rest st.
Proof.
  induction 1 as [|x l Hx Hl IH]; [reflexivity |].
  simpl. rewrite (norm_step_up_plain _ _ Hx). exact IH.
Qed.

(** Following the segments of [path.relative] from the normalised [from]
    leads to the normalised [to]. *)
Lemma fold_norm_relative fs ts pre :
  Forall (fun x => plain x = true) fs ->
  Forall (fun x => plain x = true) ts ->
  fold_left (norm_step false) (relative_parts fs ts) (rev fs ++ pre) = rev ts ++ pre.
Proof.
  intros Hfs. revert ts pre.
  induction Hfs as [|f fs Hf Hfs IH]; intros ts pre Hts.
  - destruct ts; simpl; [reflexivity |]. now apply (fold_norm_plain false (s :: ts)).
  - assert (Hclimb : forall ts', Forall (fun x => plain x = true) ts' ->
        fold_left (norm_step false) (repeat ".." (length (f :: fs)) ++ ts')
          (rev (f :: fs) ++ pre) = rev ts' ++ pre).
    { intros ts' Hts'. rewrite <- (length_rev (f :: fs)).
      rewrite fold_norm_climb by (apply Forall_rev; now constructor).
      now apply fold_norm_plain. }
    destruct ts as [|t ts].
    + now apply (Hclimb []).
    + cbn [relative_parts]. destruct (String.eqb f t) eqn:E.
      * apply String.eqb_eq in E. subst t. inversion Hts; subst.
        simpl. rewrite <- !app_assoc. simpl. now apply IH.
      * now apply Hclimb.
Qed.

Lemma relative_parts_segments fs ts :
  Forall (fun x => segment x = true) ts ->
  Forall (fun x => segment x = true) (relative_parts fs ts).
Proof.
  intros Hts.
  assert (Hup : forall n, Forall (fun x => segment x = true) (repeat ".." n ++ ts)).
  { intros n. apply Forall_app. split; [|exact Hts].
    induction n; simpl; constructor; [reflexivity | assumption]. }
  revert ts Hts Hup. induction fs as [|f fs IH]; intros ts Hts Hup.
  - destruct ts; apply (Hup 0%nat).
  - destruct ts as [|t ts]; [apply (Hup (length (f :: fs))) |].
    cbn [relative_parts]. destruct (String.eqb f t).
    + inversion Hts; subst. apply IH; [assumption |].
      intros n. apply Forall_app. split; [|assumption].
      induction n; simpl; constructor; [reflexivity | assumption].
    + apply (Hup (length (f :: fs))).
Qed.

Lemma isAbsolute_nonempty s : isAbsolute s = true -> nonempty s = true.
Proof. now destruct s. Qed.

Lemma join_segments_nonempty x l :
  segment x = true -> nonempty (join_parts (x :: l)) = true.
Proof.
  intros [Hne _]%andb_true_iff. destruct x; [discriminate |].
  destruct l; [reflexivity |]. reflexivity.
Qed.

Lemma join_segments_relative l :
  Forall (fun x => segment x = true) l -> isAbsolute (join_parts l) = false.
Proof.
  destruct 1 as [|x l Hx Hl]; [reflexivity |].
  apply andb_true_iff in Hx as [Hne Hsf].
  destruct x as [|c x]; [discriminate |].
  simpl in Hsf. apply andb_true_iff in Hsf as [Hc%negb_true_iff _].
  destruct l; simpl; [exact Hc |]. exact Hc.
Qed.

(** The accumulator of the scan only ever sits behind a separator. *)
Lemma resolve_scan_parts l acc :
  parts (fst (resolve_scan l acc)) = parts (fst (resolve_scan l "")) ++ parts acc
  /\ snd (resolve_scan l acc) = snd (resolve_scan l "").
Proof.
  revert acc. induction l as [|p rest IH]; intros acc; simpl.
  - now split.
  - destruct (nonempty p); [|apply IH].
    destruct (isAbsolute p); simpl.
    + rewrite !parts_app_slash, parts_empty, app_nil_r. now split.
    + destruct (IH (p +:+ "/" +:+ acc)) as [-> ->].
      destruct (IH (p +:+ "/" +:+ "")) as [-> ->].
      rewrite !parts_app_slash, parts_empty, app_nil_r.
      now rewrite <- app_assoc.
Qed.

Lemma resolve_scan_absolute l cwd acc :
  isAbsolute cwd = true -> snd (resolve_scan (l ++ [cwd]) acc) = true.
Proof.
  intros Habs. revert acc. induction l as [|p rest IH]; intros acc; simpl.
  - now rewrite (isAbsolute_nonempty _ Habs), Habs.
  - destruct (nonempty p); [|apply IH].
    destruct (isAbsolute p); [reflexivity | apply IH].
Qed.

(** With an absolute working directory [path.resolve] is the separator
    followed by the normalised segments of the scanned string. *)
Lemma resolve_absolute cwd args :
  isAbsolute cwd = true ->
  resolve cwd args =
    "/" +:+ join_parts (normalizeArray
                    (parts (fst (resolve_scan (rev args ++ [cwd]) ""))) false).
Proof.
  intros Habs. unfold resolve.
  pose proof (resolve_scan_absolute (rev args) cwd "" Habs) as Hs.
  destruct (resolve_scan (rev args ++ [cwd]) "") as [raw abs]. simpl in *.
  now subst abs.
Qed.

Lemma parts_resolve cwd args :
  isAbsolute cwd = true ->
  parts (resolve cwd args)
  = normalizeArray (parts (fst (resolve_scan (rev args ++ [cwd]) ""))) false
  /\ Forall (fun x => plain x = true) (parts (resolve cwd args)).
Proof.
  intros Habs. rewrite (resolve_absolute _ _ Habs).
  pose proof (normalizeArray_plain _ (parts_all_segments
    (fst (resolve_scan (rev args ++ [cwd]) "")))) as Hp.
  rewrite parts_slash_join by now apply Forall_plain_segment.
  now split.
Qed.

Lemma resolve_single_absolute cwd p :
  isAbsolute cwd = true -> isAbsolute p = true ->
  resolve cwd [p] = "/" +:+ join_parts (normalizeArray (parts p) false).
Proof.
  intros Habs Hp. rewrite (resolve_absolute _ _ Habs). simpl.
  rewrite (isAbsolute_nonempty _ Hp), Hp. simpl.
  now rewrite parts_app_slash, parts_empty, app_nil_r.
Qed.

Lemma resolve_is_absolute cwd args :
  isAbsolute cwd = true -> isAbsolute (resolve cwd args) = true.
Proof. intros Habs. now rewrite (resolve_absolute _ _ Habs). Qed.

(** [path.resolve] is idempotent. *)
Lemma resolve_resolve cwd args :
  isAbsolute cwd = true -> resolve cwd [resolve cwd args] = resolve cwd args.
Proof.
  intros Habs. destruct (parts_resolve cwd args Habs) as [Hparts Hplain].
  rewrite (resolve_single_absolute _ _ Habs (resolve_is_absolute _ _ Habs)).
  rewrite (normalizeArray_id _ Hplain), Hparts.
  now rewrite <- (resolve_absolute _ _ Habs).
Qed.

Lemma resolve_scan_skip p rest acc :
  nonempty p = false -> resolve_scan (p :: rest) acc = resolve_scan rest acc.
Proof. intros H. simpl. now rewrite H. Qed.

Lemma resolve_scan_relative p rest acc :
  nonempty p = true -> isAbsolute p = false ->
  resolve_scan (p :: rest) acc = resolve_scan rest (p +:+ "/" +:+ acc).
Proof. intros H1 H2. simpl. now rewrite H1, H2. Qed.

(** Resolving what [path.relative] returns against its [from] argument
    gives back the resolved [to] argument. *)
Lemma resolve_relative cwd from to :
  isAbsolute cwd = true ->
  resolve cwd [from; relative cwd from to] = resolve cwd [to].
Proof.
  intros Habs. unfold relative.
  destruct (parts_resolve cwd [from] Habs) as [Hf Hfp].
  destruct (parts_resolve cwd [to] Habs) as [Ht Htp].
  set (fs := parts (resolve cwd [from])) in *.
  set (ts := parts (resolve cwd [to])) in *.
  pose proof (relative_parts_segments fs ts (Forall_plain_segment _ Htp)) as Hseg.
  pose proof (fold_norm_relative fs ts [] Hfp Htp) as Hfold.
  rewrite !app_nil_r in Hfold.
  rewrite (resolve_absolute cwd [to] Habs), <- Ht.
  rewrite (resolve_absolute cwd [from; _] Habs).
  do 2 f_equal.
  change (rev [from; join_parts (relative_parts fs ts)] ++ [cwd])
    with (join_parts (relative_parts fs ts) :: (rev [from] ++ [cwd])).
  destruct (relative_parts fs ts) as [|r rp] eqn:Hrp.
  - simpl in Hfold. apply (f_equal (@rev string)) in Hfold.
    rewrite !rev_involutive in Hfold.
    rewrite resolve_scan_skip by reflexivity.
    now rewrite <- Hf, Hfold.
  - inversion Hseg as [|? ? Hr Hrest]; subst.
    rewrite (resolve_scan_relative _ _ _ (join_segments_nonempty r rp Hr)
               (join_segments_relative (r :: rp) Hseg)).
    destruct (resolve_scan_parts (rev [from] ++ [cwd]) (join_parts (r :: rp) +:+ "/" +:+ ""))
      as [-> _].
    rewrite parts_app_slash, parts_empty, app_nil_r, (parts_join _ Hseg).
    unfold normalizeArray. rewrite fold_left_app.
    unfold normalizeArray in Hf. apply (f_equal (@rev string)) in Hf.
    rewrite rev_involutive in Hf. rewrite <- Hf, Hfold.
    apply rev_involutive.
Qed.

Lemma relative_parts_below fs rest : relative_parts fs (fs ++ rest) = rest.
Proof.
  induction fs as [|f fs IH]; simpl.
  - now destruct rest.
  - now rewrite String.eqb_refl.
Qed.

Lemma resolve_scan_relative_arg p rest acc :
  isAbsolute p = false ->
  parts (fst (resolve_scan (p :: rest) acc))
  = parts (fst (resolve_scan rest "")) ++ parts p ++ parts acc
  /\ snd (resolve_scan (p :: rest) acc) = snd (resolve_scan rest "").
Proof.
  intros Hrel. simpl. rewrite Hrel. destruct (nonempty p) eqn:E.
  - destruct (resolve_scan_parts rest (p +:+ "/" +:+ acc)) as [-> ->].
    now rewrite parts_app_slash.
  - destruct p; [|discriminate]. apply resolve_scan_parts.
Qed.

(** Relative arguments made of plain segments are appended as they are. *)
Lemma parts_resolve_below cwd base v t :
  isAbsolute cwd = true ->
  isAbsolute v = false -> isAbsolute t = false ->
  Forall (fun x => plain x = true) (parts v) ->
  Forall (fun x => plain x = true) (parts t) ->
  parts (resolve cwd [base; v; t]) = parts (resolve cwd [base]) ++ parts v ++ parts t.
Proof.
  intros Habs Hv Ht Pv Pt.
  destruct (parts_resolve cwd [base; v; t] Habs) as [-> _].
  destruct (parts_resolve cwd [base] Habs) as [-> _].
  change (rev [base; v; t] ++ [cwd]) with (t :: v :: (rev [base] ++ [cwd])).
  destruct (resolve_scan_relative_arg t (v :: (rev [base] ++ [cwd])) "" Ht) as [-> _].
  destruct (resolve_scan_relative_arg v (rev [base] ++ [cwd]) "" Hv) as [-> _].
  rewrite parts_empty, !app_nil_r, <- app_assoc.
  unfold normalizeArray. rewrite fold_left_app.
  rewrite (fold_norm_plain false (parts v ++ parts t))
    by (apply Forall_app; now split).
  now rewrite rev_app_distr, rev_involutive.
Qed.

(** What [path.relative] gives back for a path made by resolving plain
    relative pieces against its [from] argument. *)
Lemma relative_resolve_below cwd base v t :
  isAbsolute cwd = true ->
  isAbsolute v = false -> isAbsolute t = false ->
  Forall (fun x => plain x = true) (parts v) ->
  Forall (fun x => plain x = true) (parts t) ->
  relative cwd base (resolve cwd [base; v; t]) = join_parts (parts v ++ parts t).
Proof.
  intros Habs Hv Ht Pv Pt. unfold relative.
  rewrite (resolve_resolve cwd [base; v; t] Habs).
  rewrite (parts_resolve_below cwd base v t Habs Hv Ht Pv Pt).
  now rewrite relative_parts_below.
Qed.

End PathFacts.

(** ** The argument builder *)

Example buildTscArguments_default :
  buildTscArguments "/w" (new_Compiler (Some [mkFile "/w" "/w/src" "/w/src/a.ts" None None]) None) None
  = Ok [JStr "--module"; JStr "commonjs"; JStr "--target"; JStr "ES3"; JStr "/w/src/a.ts"].
Proof. reflexivity. Qed.

Example buildTscArguments_module_number :
  buildTscArguments "/w" (new_Compiler None (Some {[ "module" := JNum 1 ]})) None
  = Throw (TypeError "toLowerCase is not a function").
Proof. reflexivity. Qed.

Lemma In_push_if (a : jsval) cond xs args :
  In a (push_if cond xs args) -> In a args \/ (cond = true /\ In a xs).
Proof.
  unfold push_if. destruct cond; [|now left].
  intros [H | H]%in_app_or; [now left | now right].
Qed.

Lemma push_if_app cond xs (args : list jsval) :
  push_if cond xs args = args ++ (if cond then xs else []).
Proof. unfold push_if. destruct cond; [reflexivity | now rewrite app_nil_r]. Qed.

Lemma lower_ascii_dash c : Ascii.eqb (lower_ascii c) "-"%char = Ascii.eqb c "-"%char.
Proof. destruct c as [[] [] [] [] [] [] [] []]; reflexivity. Qed.

Lemma upper_ascii_dash c : Ascii.eqb (upper_ascii c) "-"%char = Ascii.eqb c "-"%char.
Proof. destruct c as [[] [] [] [] [] [] [] []]; reflexivity. Qed.

Lemma dashed_lower s : dashed (string_map lower_ascii s) = dashed s.
Proof. destruct s as [|c1 [|c2 r]]; simpl; try reflexivity. now rewrite !lower_ascii_dash. Qed.

Lemma dashed_upper s : dashed (string_map upper_ascii s) = dashed s.
Proof. destruct s as [|c1 [|c2 r]]; simpl; try reflexivity. now rewrite !upper_ascii_dash. Qed.

Lemma undashed_cased_lower v :
  undashed_val v = true -> undashed_val (cased lower_ascii v) = true.
Proof. destruct v; simpl; try reflexivity. now rewrite dashed_lower. Qed.

Lemma undashed_cased_upper v :
  undashed_val v = true -> undashed_val (cased upper_ascii v) = true.
Proof. destruct v; simpl; try reflexivity. now rewrite dashed_upper. Qed.

Lemma absolute_not_dashed s : Path.isAbsolute s = true -> dashed s = false.
Proof.
  destruct s as [|c1 [|c2 r]]; simpl; try reflexivity.
  unfold Path.is_slash. intros ->%Ascii.eqb_eq. reflexivity.
Qed.

Lemma prop_undashed (o : gmap string jsval) k :
  forallb (fun kv => undashed_val (snd kv)) (map_to_list o) = true ->
  undashed_val (prop o k) = true.
Proof.
  intros H. unfold prop. destruct (o !! k) as [v|] eqn:E; [|reflexivity].
  rewrite forallb_forall in H. apply (H (k, v)).
  apply list_elem_of_In, elem_of_map_to_list. exact E.
Qed.

Lemma option_flags_dashed opt flag :
  In (opt, flag) option_flags -> dashed flag = true.
Proof.
  unfold option_flags. simpl.
  intros H. repeat (destruct H as [H | H]; [now inversion H |]). contradiction.
Qed.

(** A dashed string in the list is not a value of the configuration. *)
Lemma dashed_not_value flag v :
  dashed flag = true -> undashed_val v = true -> JStr flag <> v.
Proof. intros Hd Hu <-. simpl in Hu. now rewrite Hd in Hu. Qed.

Lemma resolve_absolute_base cwd t s :
  Path.isAbsolute t = true -> Path.isAbsolute (Path.resolve cwd [t; s]) = true.
Proof.
  intros Ht. unfold Path.resolve. simpl.
  rewrite (isAbsolute_nonempty _ Ht), Ht.
  destruct (Path.nonempty s); [destruct (Path.isAbsolute s)|]; reflexivity.
Qed.

(** Closes the case of a flag found in one push: it is another flag, the
    flag of an option that is set, or a value, which is not dashed. *)
Ltac close_push Hund :=
  match goal with
  | H : In _ [] |- _ => destruct H
  | H : In (JStr ?flag) (_ :: _) |- _ =>
      simpl in H;
      repeat (destruct H as [H | H];
              [ first [ discriminate H
                      | congruence
                      | exfalso; symmetry in H; revert H;
                        apply dashed_not_value; [ reflexivity | ];
                        first [ apply Hund
                              | apply undashed_cased_lower, Hund
                              | apply undashed_cased_upper, Hund ] ] | ]);
      try contradiction
  end.

Lemma flag_args_unset (o : gmap string jsval) (version : string) opt flag :
  (forall k, undashed_val (prop o k) = true) ->
  In (opt, flag) option_flags ->
  truthy (prop o opt) = false ->
  ~ In (JStr flag) (flag_args o version).
Proof.
  intros Hund Htab Hunset Hin.
  unfold option_flags in Htab. simpl in Htab.
  repeat (destruct Htab as [Htab | Htab];
          [ injection Htab as <- <-; unfold flag_args in Hin;
            repeat (apply In_push_if in Hin; destruct Hin as [Hin | [Hc Hin]];
                    [ | try (apply andb_true_iff in Hc as [Hc _]); close_push Hund ]);
            destruct Hin | ]).
  contradiction.
Qed.

Lemma lower_step (v : jsval) (flag : string) (args : list jsval) :
  stringy v = true ->
  (if truthy v then m ← toLowerCase v; Ok (args ++ [JStr flag; m]) else Ok args)
  = Ok (push_if (truthy v) [JStr flag; cased lower_ascii v] args).
Proof. destruct v as [| |b|n|s| | | |]; simpl; try discriminate; try reflexivity.
  - now destruct b.
  - now destruct (n =? 0).
  - intros _. now destruct (Path.nonempty s).
Qed.

Lemma upper_step (v : jsval) (flag : string) (args : list jsval) :
  stringy v = true ->
  (if truthy v then m ← toUpperCase v; Ok (args ++ [JStr flag; m]) else Ok args)
  = Ok (push_if (truthy v) [JStr flag; cased upper_ascii v] args).
Proof. destruct v as [| |b|n|s| | | |]; simpl; try discriminate; try reflexivity.
  - now destruct b.
  - now destruct (n =? 0).
  - intros _. now destruct (Path.nonempty s).
Qed.

(** The destination arguments, lines 84 to 91, for a string-or-falsy [out]
    and an absolute temporary destination. *)
Lemma destination_step cwd (this : Compiler) (args : list jsval) :
  stringy (prop (options this) "out") = true ->
  match tempDestination this with Some t => Path.isAbsolute t | None => true end = true ->
  match tempDestination this with
  | Some t =>
      if Path.nonempty t then
        let args := args ++ [JStr "--outDir"; JStr t] in
        if truthy (prop (options this) "out")
        then r ← path_resolve cwd [JStr t; prop (options this) "out"];
             Ok (args ++ [JStr "--out"; JStr r])
        else Ok args
      else Ok (push_if (truthy (prop (options this) "out"))
                 [JStr "--out"; prop (options this) "out"] args)
  | None => Ok (push_if (truthy (prop (options this) "out"))
                  [JStr "--out"; prop (options this) "out"] args)
  end
  = Ok (args ++
        match tempDestination this with
        | Some t =>
            JStr "--outDir" :: JStr t ::
            match prop (options this) "out" with
            | JStr out =>
                if Path.nonempty out
                then [JStr "--out"; JStr (Path.resolve cwd [t; out])] else []
            | _ => []
            end
        | None =>
            if truthy (prop (options this) "out")
            then [JStr "--out"; prop (options this) "out"] else []
        end).
Proof.
  intros Hout Htemp. destruct (tempDestination this) as [t|].
  - rewrite (isAbsolute_nonempty _ Htemp). cbv zeta.
    destruct (prop (options this) "out") as [| |b|n|s| | | |];
      simpl in Hout |- *; try discriminate; try reflexivity.
    + destruct b; [discriminate | reflexivity].
    + destruct (n =? 0); [reflexivity | discriminate].
    + destruct (Path.nonempty s); [|reflexivity].
      now rewrite <- app_assoc.
  - now rewrite push_if_app.
Qed.

Lemma config_ok_parts (this : Compiler) :
  config_ok this = true ->
  stringy (prop (options this) "module") = true
  /\ stringy (prop (options this) "target") = true
  /\ stringy (prop (options this) "out") = true
  /\ (forall k, undashed_val (prop (options this) k) = true)
  /\ (forall f, In f (sourceFiles this) -> dashed (file_path f) = false)
  /\ match tempDestination this with Some t => Path.isAbsolute t | None => true end = true
  /\ match treeKeeperFile this with Some k => negb (dashed k) | None => true end = true.
Proof.
  unfold config_ok. rewrite !andb_true_iff.
  intros [[[[[[H1 H2] H3] H4] H5] H6] H7].
  repeat split; try assumption.
  - intros k. now apply prop_undashed.
  - intros f Hf. rewrite forallb_forall in H5. apply negb_true_iff. now apply H5.
Qed.

(** Under [config_ok] the builder returns, and its result is the flags of
    lines 69 to 82, the destination arguments, and the input files. *)
Lemma buildTscArguments_regions cwd (this : Compiler) (version : option string) :
  config_ok this = true ->
  buildTscArguments cwd this version
  = Ok (flag_args (options this) (default "1.5" version)
        ++ match tempDestination this with
           | Some t =>
               JStr "--outDir" :: JStr t ::
               match prop (options this) "out" with
               | JStr out =>
                   if Path.nonempty out
                   then [JStr "--out"; JStr (Path.resolve cwd [t; out])] else []
               | _ => []
               end
           | None =>
               if truthy (prop (options this) "out")
               then [JStr "--out"; prop (options this) "out"] else []
           end
        ++ map (fun f => JStr (file_path f)) (sourceFiles this)
        ++ match treeKeeperFile this with
           | Some k => if Path.nonempty k then [JStr k] else []
           | None => []
           end).
Proof.
  intros Hok. destruct (config_ok_parts this Hok) as (Hm & Ht & Ho & _ & _ & Htmp & _).
  unfold buildTscArguments. cbv zeta.
  rewrite (lower_step _ _ _ Hm). unfold mbind at 1, result_bind at 1.
  rewrite (upper_step _ _ _ Ht). unfold mbind at 1, result_bind at 1.
  rewrite (destination_step cwd this _ Ho Htmp). unfold mbind, result_bind.
  f_equal. change (match version with Some v => v | None => "1.5" end)
    with (default "1.5" version).
  destruct (treeKeeperFile this) as [k|].
  - rewrite push_if_app, <- !app_assoc. reflexivity.
  - rewrite <- !app_assoc, app_nil_r. reflexivity.
Qed.

Lemma option_flags_out opt : In (opt, "--out") option_flags -> opt = "out".
Proof.
  unfold option_flags. simpl. intros H.
  repeat (destruct H as [H | H]; [ first [ discriminate H | now injection H ] | ]).
  contradiction.
Qed.

Lemma option_flags_not_outDir opt : ~ In (opt, "--outDir") option_flags.
Proof.
  unfold option_flags. simpl. intros H.
  repeat (destruct H as [H | H]; [ discriminate H | ]).
  contradiction.
Qed.

(** C2. For every configuration the builder is meant for, the argument list
    is some flags, the destination arguments and the input files: it holds
    no flag of an option that is unset; with a temporary destination the
    destination arguments are [--outDir] and the temporary path, followed,
    when [out] is set, by [--out] and [out] resolved against the temporary
    path; without one an [out] that is set is passed as it is; the source
    paths follow in their order, and the placeholder path, if any, is last. *)
Theorem buildTscArguments_contract cwd (this : Compiler) (version : option string) :
  config_ok this = true ->
  exists flags dest,
    buildTscArguments cwd this version
      = Ok (flags ++ dest
            ++ map (fun f => JStr (file_path f)) (sourceFiles this)
            ++ match treeKeeperFile this with
               | Some k => if Path.nonempty k then [JStr k] else []
               | None => []
               end)
    /\ (forall opt flag,
          In (opt, flag) option_flags ->
          truthy (prop (options this) opt) = false ->
          ~ In (JStr flag)
              (flags ++ dest
               ++ map (fun f => JStr (file_path f)) (sourceFiles this)
               ++ match treeKeeperFile this with
                  | Some k => if Path.nonempty k then [JStr k] else []
                  | None => []
                  end))
    /\ (forall t, tempDestination this = Some t ->
          dest = JStr "--outDir" :: JStr t ::
                 match prop (options this) "out" with
                 | JStr out =>
                     if Path.nonempty out
                     then [JStr "--out"; JStr (Path.resolve cwd [t; out])] else []
                 | _ => []
                 end)
    /\ (tempDestination this = None ->
          dest = if truthy (prop (options this) "out")
                 then [JStr "--out"; prop (options this) "out"] else []).
Proof.
  intros Hok. rewrite (buildTscArguments_regions cwd this version Hok).
  destruct (config_ok_parts this Hok) as (Hm & Ht & Ho & Hund & Hsrc & Htmp & Hkeep).
  eexists _, _. split; [reflexivity |]. split; [|split].
  - intros opt flag Htab Hunset Hin.
    pose proof (option_flags_dashed _ _ Htab) as Hdash.
    apply in_app_or in Hin as [Hin | Hin];
      [now apply (flag_args_unset _ _ _ _ Hund Htab Hunset) in Hin |].
    apply in_app_or in Hin as [Hin | Hin].
    + destruct (tempDestination this) as [t|].
      * destruct Hin as [Hin | [Hin | Hin]].
        -- injection Hin as <-. now apply option_flags_not_outDir in Htab.
        -- injection Hin as <-. now rewrite (absolute_not_dashed _ Htmp) in Hdash.
        -- destruct (prop (options this) "out") as [| | | |out| | | |] eqn:Eout;
             try contradiction.
           destruct (Path.nonempty out) eqn:Ene; [|contradiction].
           destruct Hin as [Hin | [Hin | []]].
           ++ injection Hin as <-. apply option_flags_out in Htab. subst opt.
              rewrite Eout in Hunset. simpl in Hunset. congruence.
           ++ injection Hin as <-.
              now rewrite (absolute_not_dashed _ (resolve_absolute_base cwd t out Htmp)) in Hdash.
      * destruct (truthy (prop (options this) "out")) eqn:Etr; [|contradiction].
        destruct Hin as [Hin | [Hin | []]].
        -- injection Hin as <-. apply option_flags_out in Htab. subst opt. congruence.
        -- now apply (dashed_not_value flag _ Hdash (Hund "out")).
    + apply in_app_or in Hin as [Hin | Hin].
      * apply in_map_iff in Hin as (f & Hf & Hfin). injection Hf as Hf.
        rewrite <- Hf, (Hsrc f Hfin) in Hdash. discriminate.
      * destruct (treeKeeperFile this) as [k|]; [|contradiction].
        destruct (Path.nonempty k); [|contradiction].
        destruct Hin as [Hin | []]. injection Hin as <-.
        apply negb_true_iff in Hkeep. congruence.
  - intros t Heq. now rewrite Heq.
  - intros Heq. now rewrite Heq.
Qed.

Lemma In_push_if_l (a : jsval) cond xs args : In a args -> In a (push_if cond xs args).
Proof. unfold push_if. destruct cond; [|trivial]. intros H. apply in_or_app. now left. Qed.

Lemma In_push_if_r (a : jsval) cond xs args :
  cond = true -> In a xs -> In a (push_if cond xs args).
Proof. intros -> H. apply in_or_app. now right. Qed.

(** Finds the push of a flag whose condition is among the hypotheses. *)
Ltac find_push :=
  repeat first [ apply In_push_if_r; [ eassumption | now left ]
               | apply In_push_if_l ].

(** Reduces the membership of a flag in [flag_args] to the condition of
    its own push. *)
Ltac only_push Hin Hund :=
  unfold flag_args in Hin;
  repeat (apply In_push_if in Hin;
          let Hc := fresh "Hc" in
          destruct Hin as [Hin | [Hc Hin]];
          [ | first [ exact Hc | close_push Hund ] ]);
  destruct Hin.

(** A flag among the destination arguments and the input files is one of
    the two destination flags. *)
Lemma destination_inputs_dashed cwd (this : Compiler) flag :
  config_ok this = true ->
  dashed flag = true ->
  In (JStr flag)
     (match tempDestination this with
      | Some t =>
          JStr "--outDir" :: JStr t ::
          match prop (options this) "out" with
          | JStr out =>
              if Path.nonempty out
              then [JStr "--out"; JStr (Path.resolve cwd [t; out])] else []
          | _ => []
          end
      | None =>
          if truthy (prop (options this) "out")
          then [JStr "--out"; prop (options this) "out"] else []
      end
      ++ map (fun f => JStr (file_path f)) (sourceFiles this)
      ++ match treeKeeperFile this with
         | Some k => if Path.nonempty k then [JStr k] else []
         | None => []
         end) ->
  flag = "--outDir" \/ flag = "--out".
Proof.
  intros Hok Hdash Hin.
  destruct (config_ok_parts this Hok) as (Hm & Ht & Ho & Hund & Hsrc & Htmp & Hkeep).
  apply in_app_or in Hin as [Hin | Hin].
  - destruct (tempDestination this) as [t|].
    + destruct Hin as [Hin | [Hin | Hin]].
      * injection Hin as <-. now left.
      * injection Hin as <-. now rewrite (absolute_not_dashed _ Htmp) in Hdash.
      * destruct (prop (options this) "out") as [| | | |out| | | |] eqn:Eout;
          try contradiction.
        destruct (Path.nonempty out) eqn:Ene; [|contradiction].
        destruct Hin as [Hin | [Hin | []]].
        -- injection Hin as <-. now right.
        -- injection Hin as <-.
           now rewrite (absolute_not_dashed _ (resolve_absolute_base cwd t out Htmp)) in Hdash.
    + destruct (truthy (prop (options this) "out")) eqn:Etr; [|contradiction].
      destruct Hin as [Hin | [Hin | []]].
      * injection Hin as <-. now right.
      * symmetry in Hin. now apply (dashed_not_value flag _ Hdash (Hund "out")) in Hin.
  - apply in_app_or in Hin as [Hin | Hin].
    + apply in_map_iff in Hin as (f & Hf & Hfin). injection Hf as Hf.
      rewrite <- Hf, (Hsrc f Hfin) in Hdash. discriminate.
    + destruct (treeKeeperFile this) as [k|]; [|contradiction].
      destruct (Path.nonempty k); [|contradiction].
      destruct Hin as [Hin | []]. injection Hin as <-.
      apply negb_true_iff in Hkeep. congruence.
Qed.

(** C3. With [suppressImplicitAnyIndexErrors] set, the argument list holds
    [--suppressImplicitAnyIndexErrors] exactly when the version, ["1.5"]
    if it is undefined, is the string ["1.5"]. *)
Theorem suppressImplicitAnyIndexErrors_gated cwd (this : Compiler) (version : option string) :
  config_ok this = true ->
  truthy (prop (options this) "suppressImplicitAnyIndexErrors") = true ->
  exists args,
    buildTscArguments cwd this version = Ok args
    /\ (In (JStr "--suppressImplicitAnyIndexErrors") args
        <-> default "1.5" version = "1.5").
Proof.
  intros Hok Hset. rewrite (buildTscArguments_regions cwd this version Hok).
  destruct (config_ok_parts this Hok) as (_ & _ & _ & Hund & _).
  eexists. split; [reflexivity |]. split.
  - intros [Hin | Hin]%in_app_or.
    + assert (Hc : truthy (prop (options this) "suppressImplicitAnyIndexErrors")
                   && String.eqb (default "1.5" version) "1.5" = true)
        by (only_push Hin Hund).
      apply andb_true_iff in Hc as [_ Hc]. now apply String.eqb_eq.
    + apply (destination_inputs_dashed cwd this "--suppressImplicitAnyIndexErrors" Hok)
        in Hin; [|reflexivity].
      destruct Hin; discriminate.
  - intros Hv. apply in_or_app. left.
    assert (Hc : truthy (prop (options this) "suppressImplicitAnyIndexErrors")
                 && String.eqb (default "1.5" version) "1.5" = true)
      by (rewrite Hset; now apply String.eqb_eq).
    unfold flag_args. find_push.
Qed.

(** ** The constructor *)

Lemma constructed_prop files (opts : option (gmap string jsval)) k :
  k <> "sourceMap" -> k <> "sourcemap" ->
  prop (options (new_Compiler files opts)) k
  = prop (extend (defaults (defaultModule opts)) opts) k.
Proof.
  intros H1 H2. unfold new_Compiler, prop. simpl.
  rewrite lookup_delete_ne by congruence.
  now rewrite lookup_insert_ne by congruence.
Qed.

Lemma extend_unset (dst : gmap string jsval) opts k :
  (forall o, opts = Some o -> o !! k = None) ->
  prop (extend dst opts) k = prop dst k.
Proof.
  intros H. unfold prop, extend. destruct opts as [o|]; [|reflexivity].
  now rewrite (lookup_union_r o dst k (H o eq_refl)).
Qed.





Lemma merged_sourcemap (o : gmap string jsval) dm :
  prop (o ∪ defaults dm) "sourcemap" = prop o "sourcemap".
Proof.
  unfold prop. destruct (o !! "sourcemap") as [v|] eqn:E.
  - now rewrite (lookup_union_Some_l _ _ _ _ E).
  - now rewrite (lookup_union_r _ _ _ E).
Qed.

Lemma merged_sourceMap (o : gmap string jsval) dm x :
  js_or (prop (o ∪ defaults dm) "sourceMap") x = js_or (prop o "sourceMap") x.
Proof.
  unfold prop. destruct (o !! "sourceMap") as [v|] eqn:E.
  - now rewrite (lookup_union_Some_l _ _ _ _ E).
  - now rewrite (lookup_union_r _ _ _ E).
Qed.

Lemma constructed_sourceMap files (o : gmap string jsval) :
  prop (options (new_Compiler files (Some o))) "sourceMap"
  = js_or (prop o "sourceMap") (prop o "sourcemap").
Proof.
  unfold new_Compiler, prop at 1. cbn [options extend].
  rewrite lookup_delete_ne by discriminate. rewrite lookup_insert_eq.
  cbn [default]. now rewrite merged_sourcemap, merged_sourceMap.
Qed.

Lemma flag_args_sourcemap (o : gmap string jsval) version :
  truthy (prop o "sourceMap") = true ->
  In (JStr "--sourcemap") (flag_args o version).
Proof. intros H. unfold flag_args. find_push. Qed.

(** ** The lifecycle registry *)
Section RegistryFacts.
Import Registry.

Lemma step_waiting fn a r :
  waiting fn r -> 0 < running (fst (step a r)) ->
  snd (step a r) = [] /\ waiting fn (fst (step a r)).
Proof.
  intros (Hrun & Hab & Hin) Hpos. destruct a as [| |cb]; simpl in *.
  - split; [reflexivity |]. now repeat split.
  - unfold on_end in *. simpl in *.
    destruct (running r - 1 =? 0) eqn:E; simpl in *.
    + rewrite Hab in *. simpl in *. apply Z.eqb_eq in E. lia.
    + split; [reflexivity |]. now repeat split.
  - unfold abortAll in *. destruct cb as [fn'|]; simpl in *.
    + destruct (running r =? 0) eqn:E; simpl in *.
      * apply Z.eqb_eq in E. lia.
      * split; [reflexivity |]. repeat split; try assumption.
        apply in_or_app. now left.
    + destruct (running r =? 0) eqn:E; simpl in *.
      * apply Z.eqb_eq in E. lia.
      * split; [reflexivity |]. now repeat split.
Qed.

Lemma step_drains fn a r :
  waiting fn r -> running (fst (step a r)) = 0 ->
  a = End /\ step a r = (mk 0 false [], abortCallbacks r).
Proof.
  intros (Hrun & Hab & Hin) Hzero. destruct a as [| |cb]; simpl in *.
  - lia.
  - split; [reflexivity |]. unfold on_end in *. simpl in *.
    destruct (running r - 1 =? 0) eqn:E; simpl in *.
    + rewrite Hab in *. simpl in *. apply Z.eqb_eq in E.
      unfold _allAborted. simpl. now rewrite E.
    + apply Z.eqb_neq in E. lia.
  - exfalso. unfold abortAll in *. destruct cb as [fn'|]; simpl in *;
      destruct (running r =? 0) eqn:E; simpl in *;
      try (apply Z.eqb_eq in E); lia.
Qed.

Lemma trace_waiting fn actions r :
  waiting fn r ->
  Forall (fun p => 0 < running (fst p)) (trace actions r) ->
  Forall (fun p => snd p = []) (trace actions r) /\ waiting fn (run actions r).
Proof.
  revert r. induction actions as [|a rest IH]; intros r Hw Hpos; simpl in *.
  - split; [constructor | exact Hw].
  - pose proof (step_waiting fn a r Hw) as Hstep.
    destruct (step a r) as [r' called] eqn:E. simpl in *.
    inversion Hpos as [|? ? Hhead Htail]; subst. simpl in Hhead.
    destruct (Hstep Hhead) as [Hcalled Hw'].
    destruct (IH r' Hw' Htail) as [Hnone Hfinal].
    split; [constructor; [exact Hcalled | exact Hnone] | exact Hfinal].
Qed.

Lemma run_not_aborted actions r :
  aborted r = false ->
  forallb (fun a => negb (is_abortAll a)) actions = true ->
  aborted (run actions r) = false.
Proof.
  revert r. induction actions as [|a rest IH]; intros r Hr Hno; simpl in *; [exact Hr |].
  apply andb_true_iff in Hno as [Ha Hrest]. apply IH; [|exact Hrest].
  destruct a as [| |cb]; simpl in *; try discriminate; [exact Hr |].
  unfold on_end. simpl. rewrite Hr, andb_false_r. reflexivity.
Qed.

(** C8. [abortAll(fn)] with nothing running calls every queued callback
    and [fn] at once and leaves the flag [false] and the queue empty. With
    invocations running it only sets the flag and queues [fn]: whatever
    happens next, as long as the counter stays positive nothing is called
    and [fn] stays queued, and the action that brings the counter to zero
    is the ['end'] of an invocation, which calls the queue with [fn] in it
    and clears the flag; the flag then reads [false] for all that follows,
    up to the next [abortAll]. *)
Theorem abortAll_protocol (r : t) (fn : callback) :
  (running r = 0 ->
   abortAll (Some fn) r = (mk 0 false [], abortCallbacks r ++ [fn]))
  /\ (0 < running r ->
      abortAll (Some fn) r = (mk (running r) true (abortCallbacks r ++ [fn]), [])
      /\ forall actions,
           Forall (fun p => 0 < running (fst p))
             (trace actions (mk (running r) true (abortCallbacks r ++ [fn]))) ->
           Forall (fun p => snd p = [])
             (trace actions (mk (running r) true (abortCallbacks r ++ [fn])))
           /\ In fn (abortCallbacks
                       (run actions (mk (running r) true (abortCallbacks r ++ [fn]))))
           /\ forall a,
                running (fst (step a
                  (run actions (mk (running r) true (abortCallbacks r ++ [fn]))))) = 0 ->
                a = End
                /\ step a (run actions (mk (running r) true (abortCallbacks r ++ [fn])))
                   = (mk 0 false [],
                      abortCallbacks
                        (run actions (mk (running r) true (abortCallbacks r ++ [fn]))))
                /\ forall later,
                     forallb (fun a => negb (is_abortAll a)) later = true ->
                     isAborted
                       (run later (fst (step a
                          (run actions
                             (mk (running r) true (abortCallbacks r ++ [fn])))))) = false).
Proof.
  split.
  - intros Hzero. unfold abortAll. simpl. rewrite Hzero. reflexivity.
  - intros Hpos. split.
    + unfold abortAll. simpl. destruct (running r =? 0) eqn:E; [|reflexivity].
      apply Z.eqb_eq in E. lia.
    + intros actions Hbusy.
      assert (Hw : waiting fn (mk (running r) true (abortCallbacks r ++ [fn]))).
      { repeat split; simpl; [exact Hpos |]. apply in_or_app. right. now left. }
      destruct (trace_waiting fn actions _ Hw Hbusy) as [Hnone Hw'].
      split; [exact Hnone |]. split; [apply Hw' |].
      intros a Hzero. destruct (step_drains fn a _ Hw' Hzero) as [Ha Hstep].
      split; [exact Ha |]. split; [exact Hstep |].
      intros later Hlater. rewrite Hstep. unfold isAborted.
      now apply run_not_aborted.
Qed.

Lemma abortAll_protocol_witness :
  0 < running (mk 1 false [])
  /\ abortAll (Some 7%nat) (mk 1 false []) = (mk 1 true [7%nat], [])
  /\ step End (mk 1 true [7%nat]) = (mk 0 false [], [7%nat]).
Proof.
  assert (Hpos : 0 < running (mk 1 false [])) by (simpl; lia).
  split; [exact Hpos |].
  destruct (abortAll_protocol (mk 1 false []) 7%nat) as [_ Hbusy].
  destruct (Hbusy Hpos) as [Hqueue Hlater].
  split; [exact Hqueue |].
  destruct (Hlater [] ltac:(constructor)) as (_ & _ & Hdrain).
  destruct (Hdrain End eq_refl) as (_ & Hstep & _).
  exact Hstep.
Defined.

End RegistryFacts.

(** ** The path filter *)

Lemma substring_prefix (p s : string) :
  String.eqb (String.substring 0 (String.length p) s) p = String.prefix p s.
Proof.
  revert s. induction p as [|a p IH]; intros s; simpl.
  - now destruct s.
  - destruct s as [|b s]; simpl; [reflexivity |].
    destruct (ascii_dec a b) as [->|Hne].
    + now rewrite Ascii.eqb_refl.
    + destruct (Ascii.eqb b a) eqn:E; [|reflexivity].
      apply Ascii.eqb_eq in E. congruence.
Qed.

Lemma resolve_nonempty cwd args : Path.nonempty (Path.resolve cwd args) = true.
Proof.
  unfold Path.resolve.
  destruct (Path.resolve_scan (rev args ++ [cwd]) "") as [raw abs].
  destruct abs; [reflexivity |].
  destruct (Path.nonempty (Path.join_parts (Path.normalizeArray (Path.parts raw) (negb false)))) eqn:E;
    [exact E | reflexivity].
Qed.






(** The loop over a mapping filter passes the entries that do not match. *)
Lemma forOwn_mapping_skip cwd (file : File) rel pre rest :
  file_relative cwd file = Ok rel ->
  (forall k v, In (k, JStr v) pre ->
     String.prefix (Path.normalize k +:+ "/") rel = false) ->
  forOwn_mapping cwd file (pre ++ rest) = forOwn_mapping cwd file rest.
Proof.
  intros Hrel. induction pre as [|[k v] pre IH]; intros Hpre; [reflexivity |].
  simpl. assert (Hnext : forOwn_mapping cwd file (pre ++ rest) = forOwn_mapping cwd file rest).
  { apply IH. intros k' v' Hin. apply (Hpre k' v'). now right. }
  destruct v as [| | | |s| | | |]; try exact Hnext.
  rewrite Hrel. simpl. unfold Path.sep. rewrite substring_prefix.
  rewrite (Hpre k s) by now left. exact Hnext.
Qed.

(** C6. A file that goes through a mapping filter: the first entry, in
    iteration order, whose key followed by the separator begins the
    relative path puts the file at its value followed by the rest of the
    relative path, both resolved against the output root, so that, value
    and rest being plain relative paths, the relative path of the file is
    now the value followed by the rest; a file no entry matches keeps its
    path. *)
Theorem pathFilter_mapping_first_match cwd (this : Compiler) (file : File) rel props :
  prop (options this) "pathFilter" = JObj props ->
  file_relative cwd file = Ok rel ->
  (forall pre key val post,
     props = pre ++ (key, JStr val) :: post ->
     (forall k v, In (k, JStr v) pre ->
        String.prefix (Path.normalize k +:+ "/") rel = false) ->
     String.prefix (Path.normalize key +:+ "/") rel = true ->
     let tail := String.substring (String.length (Path.normalize key +:+ "/"))
                   (String.length rel) rel in
     let moved :=
       set_path file
         (Path.resolve cwd
            [file_base file; val; if Path.nonempty tail then tail else "."]) in
     filterOutput cwd this file = Ok (JFile moved)
     /\ (Path.isAbsolute cwd = true ->
         Path.isAbsolute val = false ->
         Path.isAbsolute tail = false ->
         Path.nonempty tail = true ->
         Forall (fun x => Path.plain x = true) (Path.parts val) ->
         Forall (fun x => Path.plain x = true) (Path.parts tail) ->
         file_relative cwd moved
         = Ok (Path.join_parts (Path.parts val ++ Path.parts tail))))
  /\ ((forall k v, In (k, JStr v) props ->
         String.prefix (Path.normalize k +:+ "/") rel = false) ->
      filterOutput cwd this file = Ok (JFile file)).
Proof.
  intros Hf Hrel. split.
  - intros pre key val post -> Hpre Hkey tail moved. split.
    + unfold filterOutput. rewrite Hf. simpl.
      rewrite (forOwn_mapping_skip cwd file rel pre _ Hrel Hpre). simpl.
      rewrite Hrel. simpl. unfold Path.sep. rewrite substring_prefix, Hkey.
      reflexivity.
    + intros Habs Hval Htail Hne Pval Ptail.
      assert (Hbase : Path.nonempty (file_base file) = true).
      { unfold file_relative in Hrel.
        destruct (Path.nonempty (file_base file)); [reflexivity | discriminate]. }
      subst moved. rewrite Hne. unfold file_relative. cbn [set_path file_base file_path].
      rewrite Hbase, resolve_nonempty. simpl.
      now rewrite (relative_resolve_below cwd _ val tail Habs Hval Htail Pval Ptail).
  - intros Hnone. unfold filterOutput. rewrite Hf. simpl.
    rewrite <- (app_nil_r props), (forOwn_mapping_skip cwd file rel props [] Hrel Hnone).
    reflexivity.
Qed.

(** ** The source-map stage *)

Lemma rebase_string cwd (file : File) orig s :
  file_originalPath file = Some orig ->
  rebase cwd file (JStr s)
  = Ok (Path.relative cwd (Path.dirname (file_path file))
          (Path.resolve cwd [Path.dirname orig; s])).
Proof. intros H. unfold rebase. now rewrite H. Qed.

Lemma mapM_rebase cwd (file : File) orig srcs :
  file_originalPath file = Some orig ->
  mapM (fun sourcePath => p ← rebase cwd file sourcePath; Ok (JStr p)) (map JStr srcs)
  = Ok (map JStr
          (map (fun s => Path.relative cwd (Path.dirname (file_path file))
                           (Path.resolve cwd [Path.dirname orig; s])) srcs)).
Proof.
  intros H. induction srcs as [|s srcs IH]; [reflexivity |].
  simpl. rewrite (rebase_string cwd file orig s H). simpl.
  rewrite IH. reflexivity.
Qed.



(** ** The invocation *)

Lemma execs_app l1 l2 : execs (l1 ++ l2) = execs l1 ++ execs l2.
Proof.
  induction l1 as [|e l1 IH]; [reflexivity |].
  destruct e; simpl; rewrite IH; reflexivity.
Qed.

Lemma globs_app l1 l2 : globs (l1 ++ l2) = globs l1 ++ globs l2.
Proof.
  induction l1 as [|e l1 IH]; [reflexivity |].
  destruct e; simpl; rewrite IH; reflexivity.
Qed.

Lemma calm_refl st : calm st st.
Proof. exists []. now rewrite app_nil_r. Qed.

Lemma calm_trans st1 st2 st3 : calm st1 st2 -> calm st2 st3 -> calm st1 st3.
Proof.
  intros (e1 & L1 & X1 & G1 & O1 & T1) (e2 & L2 & X2 & G2 & O2 & T2).
  exists (e1 ++ e2). rewrite L2, L1, <- app_assoc, execs_app, globs_app, X1, X2, G1, G2.
  repeat split; congruence.
Qed.

Lemma calm_record events st :
  execs events = [] -> globs events = [] -> calm st (record events st).
Proof. intros X G. exists events. now repeat split. Qed.

Lemma checkAborted_calm k S st : calm st (fst (checkAborted k S st)).
Proof.
  unfold checkAborted. simpl.
  destruct (Registry.isAborted (interfere S k (registry st)));
    exists []; simpl; now rewrite app_nil_r.
Qed.

Lemma makeTempDestinationDir_calm S st : calm st (fst (makeTempDestinationDir S st)).
Proof.
  unfold makeTempDestinationDir.
  destruct (path_resolve _ _) as [dir|e]; [|apply calm_refl].
  destruct (temp_mkdir S dir) as [dirPath|err]; simpl;
    exists [Call_mkdir dir]; now repeat split.
Qed.

Lemma makeTreeKeeperFile_calm S st : calm st (fst (makeTreeKeeperFile S st)).
Proof.
  unfold makeTreeKeeperFile.
  destruct (_ || _ || _); [apply calm_refl |].
  destruct (sourceFiles (self st)) as [|first rest]; [apply calm_refl |].
  destruct (temp_open S (file_base first)) as [[path fd]|err]; simpl.
  - destruct (fs_write_close S fd); simpl;
      exists [Call_open (file_base first)]; now repeat split.
  - exists [Call_open (file_base first)]. now repeat split.
Qed.

Lemma prepareTscArgumentsFile_calm S st : calm st (fst (prepareTscArgumentsFile S st)).
Proof.
  unfold prepareTscArgumentsFile.
  destruct (buildTscArguments _ _ _) as [tscArguments|e]; [|apply calm_refl].
  destruct (tempDestination (self st)) as [dir|]; [|apply calm_refl].
  destruct (fs_writeFile S _ _); simpl;
    eexists [Call_writeFile _ _]; now repeat split.
Qed.

Lemma waterfall_app l1 l2 S st :
  waterfall (l1 ++ l2) S st
  = match waterfall l1 S st with
    | (st', Next) => waterfall l2 S st'
    | other => other
    end.
Proof.
  revert st. induction l1 as [|t l1 IH]; intros st; simpl; [reflexivity |].
  destruct (t S st) as [st' [| | |]]; try reflexivity. apply IH.
Qed.

Lemma waterfall_calm ts S st :
  Forall (fun t : task => forall S st, calm st (fst (t S st))) ts ->
  calm st (fst (waterfall ts S st)).
Proof.
  intros H. revert st. induction H as [|t ts Ht Hts IH]; intros st; simpl.
  - apply calm_refl.
  - pose proof (Ht S st) as Hc. destruct (t S st) as [st' [| | |]]; simpl in *;
      try exact Hc.
    eapply calm_trans; [exact Hc | apply IH].
Qed.

(** The tasks that come before the process is launched. *)
Lemma tasks_split :
  tasks = [ checkAborted 0; makeTempDestinationDir; checkAborted 1;
            makeTreeKeeperFile; checkAborted 2; prepareTscArgumentsFile;
            checkAborted 3 ] ++ [ runTsc; checkAborted 4 ].
Proof. reflexivity. Qed.

Lemma before_runTsc_calm S st :
  calm st (fst (waterfall
    [ checkAborted 0; makeTempDestinationDir; checkAborted 1;
      makeTreeKeeperFile; checkAborted 2; prepareTscArgumentsFile;
      checkAborted 3 ] S st)).
Proof.
  apply waterfall_calm.
  repeat constructor; intros;
    first [ apply checkAborted_calm | apply makeTempDestinationDir_calm
          | apply makeTreeKeeperFile_calm | apply prepareTscArgumentsFile_calm ].
Qed.

Lemma execs_outputs (l : list output) :
  execs (map (fun o => match o with
                       | Stdout chunk => Emit_stdout chunk
                       | Stderr chunk => Emit_stderr chunk
                       | ProcessError e => Emit_error e
                       end) l) = []
  /\ globs (map (fun o => match o with
                          | Stdout chunk => Emit_stdout chunk
                          | Stderr chunk => Emit_stderr chunk
                          | ProcessError e => Emit_error e
                          end) l) = [].
Proof. induction l as [|[] l [IH1 IH2]]; simpl; now split. Qed.

(** What [runTsc] adds to the log, and how it ends. *)
Lemma runTsc_log S st :
  let args :=
    ["@" +:+ match tscArgumentsFile (self st) with Some f => f | None => "null" end] in
  exists events,
    log (fst (runTsc S st)) = log st ++ Call_exec args :: events
    /\ execs events = [] /\ globs events = []
    /\ self (fst (runTsc S st)) = self st
    /\ snd (runTsc S st)
       = match proc_exit (tsc_exec S args (tscOptions (self st))) with
         | None => Hang
         | Some (Some 0) => Next
         | Some code => Err (Error (exit_message code))
         end.
Proof.
  intros args. unfold runTsc. fold args.
  destruct (execs_outputs (proc_output (tsc_exec S args (tscOptions (self st)))))
    as [X G].
  eexists. repeat split.
  - destruct (proc_exit _) as [[[| |]|]|]; simpl; rewrite <- app_assoc; reflexivity.
  - exact X.
  - exact G.
  - destruct (proc_exit _) as [[[| |]|]|]; reflexivity.
  - destruct (proc_exit _) as [[[| |]|]|]; reflexivity.
Qed.

Lemma drain_log stages files source_error :
  execs (fst (drain stages files source_error)) = []
  /\ globs (fst (drain stages files source_error)) = []
  /\ snd (drain stages files source_error) <> Pending.
Proof.
  induction files as [|file rest IH]; simpl.
  - destruct source_error; simpl; repeat split; discriminate.
  - destruct (through stages (JFile file)); simpl;
      try (repeat split; discriminate); try exact IH.
    destruct (drain stages rest source_error) as [events c]. simpl in *. exact IH.
Qed.

(** [processOutputFiles] asks [fsSrc] once, launches nothing, and ends. *)
Lemma processOutputFiles_log S (this : Compiler) :
  exists patterns events,
    fst (processOutputFiles S this)
    = Call_fsSrc patterns (tempDestination this) :: events
    /\ execs events = [] /\ globs events = []
    /\ snd (processOutputFiles S this) <> Pending.
Proof.
  unfold processOutputFiles.
  destruct (fsSrc S _ (tempDestination this)) as [files source_error].
  destruct (output_root _ this) as [outDir|e].
  - pose proof (drain_log (output_stages (engine S) this outDir) files source_error)
      as (X & G & P).
    destruct (drain _ files source_error) as [events c]. simpl in *.
    eexists _, _. repeat split; eassumption.
  - eexists _, []. repeat split. discriminate.
Qed.

Lemma execs_abortCallbacks l :
  execs (map Call_abortCallback l) = [] /\ globs (map Call_abortCallback l) = [].
Proof. induction l as [|x l [IH1 IH2]]; simpl; now split. Qed.

(** [finish(err)] cleans up, emits ['end'] and calls back, in that order. *)
Lemma finish_log S err st :
  exists events,
    log (finish S err st) = log st ++ events ++ [Callback err]
    /\ execs events = [] /\ globs events = [].
Proof.
  unfold finish, cleanup, record. simpl.
  destruct (Registry.on_end _) as [r called]. simpl.
  destruct (execs_abortCallbacks called) as [X G].
  exists ([Call_rimraf (tempDestination (self st)); Call_unlink (treeKeeperFile (self st));
           Emit_end] ++ map Call_abortCallback called).
  repeat split.
  - now rewrite <- !app_assoc.
  - rewrite execs_app, X. reflexivity.
  - rewrite globs_app, G. reflexivity.
Qed.

Lemma after_waterfall_log S err st :
  exists events,
    log (fst (after_waterfall S err st)) = log st ++ events /\ execs events = [].
Proof.
  unfold after_waterfall.
  destruct (match err with Some _ => _ | None => false end).
  - destruct (finish_log S err st) as (events & L & X & _). simpl.
    exists (events ++ [Callback err]). split; [exact L |].
    now rewrite execs_app, X.
  - destruct (processOutputFiles_log S (self st)) as (patterns & events & P & X & _ & _).
    destruct (processOutputFiles S (self st)) as [out c]. simpl in P. subst out.
    destruct c as [err2| |]; simpl.
    + destruct (finish_log S (match err with Some _ => err | None => err2 end)
                  (record (Call_fsSrc patterns (tempDestination (self st)) :: events) st))
        as (fin & L & Xf & _).
      rewrite L. simpl. rewrite <- app_assoc. eexists. split; [reflexivity |].
      rewrite !execs_app. simpl. now rewrite X, Xf.
    + eexists. split; [reflexivity |]. simpl. exact X.
    + eexists. split; [reflexivity |]. simpl. exact X.
Qed.

(** How the function the waterfall ends in deals with an error. *)
Lemma after_waterfall_error S e st :
  (truthy (prop (options (self st)) "safe") = true ->
   after_waterfall S (Some e) st = (finish S (Some e) st, Completed (Some e)))
  /\ (truthy (prop (options (self st)) "safe") = false ->
      exists patterns events,
        fst (processOutputFiles S (self st))
        = Call_fsSrc patterns (tempDestination (self st)) :: events
        /\ globs events = []
        /\ snd (after_waterfall S (Some e) st) <> Pending
        /\ match snd (processOutputFiles S (self st)) with
           | Completed _ =>
               after_waterfall S (Some e) st
               = (finish S (Some e)
                    (record (Call_fsSrc patterns (tempDestination (self st)) :: events) st),
                  Completed (Some e))
           | other =>
               after_waterfall S (Some e) st
               = (record (Call_fsSrc patterns (tempDestination (self st)) :: events) st,
                  other)
           end).
Proof.
  unfold after_waterfall. split; intros Hsafe; rewrite Hsafe; [reflexivity |].
  destruct (processOutputFiles_log S (self st)) as (patterns & events & P & _ & G & Hp).
  destruct (processOutputFiles S (self st)) as [out c]. simpl in *. subst out.
  exists patterns, events. repeat split; try assumption.
  - destruct c; simpl; [discriminate | discriminate | contradiction].
  - destruct c; reflexivity.
Qed.

(** A process in the log was launched by [runTsc], after every task before
    it called back without an error. *)
Lemma compile_launch S (this : Compiler) r args :
  In args (execs (log (fst (compile S this r)))) ->
  exists st,
    waterfall
      [ checkAborted 0; makeTempDestinationDir; checkAborted 1;
        makeTreeKeeperFile; checkAborted 2; prepareTscArgumentsFile;
        checkAborted 3 ] S (mkState this (Registry._start r) [Emit_start])
    = (st, Next)
    /\ args = ["@" +:+ match tscArgumentsFile (self st) with
                        | Some f => f | None => "null" end]
    /\ calm (mkState this (Registry._start r) [Emit_start]) st.
Proof.
  unfold compile. cbn [self registry log]. rewrite tasks_split, waterfall_app.
  pose proof (before_runTsc_calm S (mkState this (Registry._start r) [Emit_start]))
    as Hcalm.
  destruct (waterfall _ S (mkState this (Registry._start r) [Emit_start]))
    as [st7 r7].
  cbn [fst] in Hcalm. pose proof Hcalm as (ev7 & L7 & X7 & _).
  assert (X0 : execs (log st7) = []) by (rewrite L7, execs_app, X7; reflexivity).
  destruct r7 as [|e|e|].
  - intros Hin. exists st7. split; [reflexivity |]. split; [|exact Hcalm].
    cbn [waterfall] in Hin.
    destruct (runTsc_log S st7) as (ev8 & L8 & X8 & _ & _ & _).
    destruct (runTsc S st7) as [st8 r8]. cbn [fst] in L8.
    assert (X8' : execs (log st8)
                  = [["@" +:+ match tscArgumentsFile (self st7) with
                              | Some f => f | None => "null" end]]).
    { rewrite L8, execs_app, X0. simpl. now rewrite X8. }
    assert (Hend : forall err st9, log st9 = log st8 ->
              In args (execs (log (fst (after_waterfall S err st9)))) ->
              args = ["@" +:+ match tscArgumentsFile (self st7) with
                              | Some f => f | None => "null" end]).
    { intros err st9 L9 H.
      destruct (after_waterfall_log S err st9) as (ev & L & X).
      rewrite L, execs_app, X, L9, X8', app_nil_r in H.
      destruct H as [H | []]. now symmetry. }
    destruct r8 as [|e|e|].
    + unfold checkAborted in Hin. cbn [self registry log] in Hin.
      destruct (Registry.isAborted (interfere S 4 (registry st8)));
        refine (Hend _ _ _ Hin); reflexivity.
    + apply (Hend _ _ eq_refl) in Hin. exact Hin.
    + cbn [fst] in Hin. rewrite X8' in Hin. destruct Hin as [H | []]. now symmetry.
    + cbn [fst] in Hin. rewrite X8' in Hin. destruct Hin as [H | []]. now symmetry.
  - intros Hin. exfalso.
    destruct (after_waterfall_log S (Some e) st7) as (ev & L & X).
    rewrite L, execs_app, X, X0 in Hin. exact Hin.
  - intros Hin. exfalso. cbn [fst] in Hin. rewrite X0 in Hin. exact Hin.
  - intros Hin. exfalso. cbn [fst] in Hin. rewrite X0 in Hin. exact Hin.
Qed.

(** An invocation whose process exits with a code other than zero comes
    out of the waterfall with the error of line 200. *)
Lemma compile_exit_code S (this : Compiler) r args n :
  In args (execs (log (fst (compile S this r)))) ->
  proc_exit (tsc_exec S args (tscOptions this)) = Some (Some n) ->
  n <> 0 ->
  exists st,
    compile S this r
    = after_waterfall S
        (Some (Error ("tsc command has exited with code:" +:+ show_Z n))) st
    /\ options (self st) = options this
    /\ globs (log st) = [].
Proof.
  intros Hin Hexit Hn.
  destruct (compile_launch S this r args Hin) as (st7 & E7 & Hargs & Hcalm).
  destruct Hcalm as (ev7 & L7 & _ & G7 & O7 & T7). cbn [self log] in *.
  destruct (runTsc_log S st7) as (ev8 & L8 & _ & G8 & Self8 & R8).
  rewrite <- Hargs, T7, Hexit in R8.
  assert (R8' : snd (runTsc S st7)
                = Err (Error ("tsc command has exited with code:" +:+ show_Z n))).
  { rewrite R8. destruct n; [contradiction | reflexivity | reflexivity]. }
  exists (fst (runTsc S st7)). split; [|split].
  - unfold compile. cbn [self registry log]. rewrite tasks_split, waterfall_app, E7.
    cbn [waterfall]. destruct (runTsc S st7) as [st8 r8]. cbn [fst snd] in *.
    clear R8. subst r8. reflexivity.
  - now rewrite Self8.
  - rewrite L8, L7, !globs_app, G7. simpl. exact G8.
Qed.

Example compile_failure_relocates :
  snd (compile (sample_system false 2) (sample_compiler ∅) Registry.initial)
  = Completed (Some (Error "tsc command has exited with code:2"))
  /\ globs (log (fst (compile (sample_system false 2) (sample_compiler ∅)
                        Registry.initial)))
     = [(["**/*{.js,.js.map,.d.ts}"; "!**/.gulp-tsc-tmp-2.*"],
         Some "/w/gulp-tsc-tmp-1")]
  /\ registry (fst (compile (sample_system false 2) (sample_compiler ∅)
                      Registry.initial))
     = Registry.initial.
Proof. repeat split; vm_compute; reflexivity. Qed.

Example compile_output_crash :
  snd (compile (broken_map_system 2) (sample_compiler {[ "sourceMap" := JBool true ]})
         Registry.initial)
  = Crashed (mkExn "SyntaxError" "Unexpected end of input").
Proof. vm_compute. reflexivity. Qed.

Example compile_success :
  snd (compile (sample_system false 0) (sample_compiler {[ "outDir" := JStr "dist" ]})
         Registry.initial)
  = Completed None
  /\ execs (log (fst (compile (sample_system false 0)
                        (sample_compiler {[ "outDir" := JStr "dist" ]})
                        Registry.initial)))
     = [["@/w/gulp-tsc-tmp-1/tscArguments"]].
Proof. split; vm_compute; reflexivity. Qed.

(** ** The placeholder file *)


(** ** The properties on the sample data *)

Lemma buildTscArguments_contract_witness :
  config_ok (at_work (sample_compiler {[ "out" := JStr "all.js" ]})) = true
  /\ exists args,
       buildTscArguments "/w" (at_work (sample_compiler {[ "out" := JStr "all.js" ]})) None
       = Ok args
       /\ ~ In (JStr "--declaration") args.
Proof.
  assert (Hok : config_ok (at_work (sample_compiler {[ "out" := JStr "all.js" ]})) = true)
    by reflexivity.
  split; [exact Hok |].
  destruct (buildTscArguments_contract "/w"
              (at_work (sample_compiler {[ "out" := JStr "all.js" ]})) None Hok)
    as (flags & dest & Heq & Hunset & _).
  eexists. split; [exact Heq |].
  apply (Hunset "declaration" "--declaration"); [|reflexivity].
  unfold option_flags. simpl. tauto.
Defined.

Lemma suppressImplicitAnyIndexErrors_gated_witness :
  config_ok (sample_compiler {[ "suppressImplicitAnyIndexErrors" := JBool true ]}) = true
  /\ truthy (prop (options (sample_compiler
                     {[ "suppressImplicitAnyIndexErrors" := JBool true ]}))
               "suppressImplicitAnyIndexErrors") = true
  /\ exists args,
       buildTscArguments "/w"
         (sample_compiler {[ "suppressImplicitAnyIndexErrors" := JBool true ]})
         (Some "1.4") = Ok args
       /\ ~ In (JStr "--suppressImplicitAnyIndexErrors") args.
Proof.
  assert (Hok : config_ok (sample_compiler
                  {[ "suppressImplicitAnyIndexErrors" := JBool true ]}) = true)
    by reflexivity.
  assert (Hset : truthy (prop (options (sample_compiler
                    {[ "suppressImplicitAnyIndexErrors" := JBool true ]}))
                    "suppressImplicitAnyIndexErrors") = true) by reflexivity.
  split; [exact Hok |]. split; [exact Hset |].
  destruct (suppressImplicitAnyIndexErrors_gated "/w"
              (sample_compiler {[ "suppressImplicitAnyIndexErrors" := JBool true ]})
              (Some "1.4") Hok Hset) as (args & Heq & Hiff).
  exists args. split; [exact Heq |].
  intros Hin. apply Hiff in Hin. discriminate Hin.
Defined.



Lemma pathFilter_mapping_first_match_witness :
  prop (options (sample_compiler {[ "pathFilter" := JObj [("src", JStr "out")] ]}))
    "pathFilter" = JObj [("src", JStr "out")]
  /\ file_relative "/w" (mkFile "/w/dist" "/w/dist" "/w/dist/src/x.js" None None)
     = Ok "src/x.js"
  /\ filterOutput "/w"
       (sample_compiler {[ "pathFilter" := JObj [("src", JStr "out")] ]})
       (mkFile "/w/dist" "/w/dist" "/w/dist/src/x.js" None None)
     = Ok (JFile (mkFile "/w/dist" "/w/dist" "/w/dist/out/x.js" None None))
  /\ file_relative "/w" (mkFile "/w/dist" "/w/dist" "/w/dist/out/x.js" None None)
     = Ok "out/x.js".
Proof.
  assert (H1 : prop (options (sample_compiler
                  {[ "pathFilter" := JObj [("src", JStr "out")] ]}))
                 "pathFilter" = JObj [("src", JStr "out")]) by reflexivity.
  assert (H2 : file_relative "/w" (mkFile "/w/dist" "/w/dist" "/w/dist/src/x.js" None None)
               = Ok "src/x.js") by reflexivity.
  split; [exact H1 |]. split; [exact H2 |].
  destruct (pathFilter_mapping_first_match "/w" _ _ "src/x.js" _ H1 H2) as [Hfirst _].
  assert (Hpre : forall k v, In (k, JStr v) [] ->
                   String.prefix (Path.normalize k +:+ "/") "src/x.js" = false)
    by (intros k v []).
  destruct (Hfirst [] "src" "out" [] eq_refl Hpre eq_refl) as [Hout Hrel].
  split; [exact Hout |].
  apply Hrel; try reflexivity; repeat constructor.
Defined.



(** * Further properties

    The rest of [lib/compiler.js]: what the functions do beyond the
    statements above. *)

(** ** The lifecycle registry, continued *)

Lemma step_conserves a r :
  snd (Registry.step a r) ++ Registry.abortCallbacks (fst (Registry.step a r))
  = Registry.abortCallbacks r ++ registered [a].
Proof.
  destruct a as [| |[fn|]]; simpl.
  - now rewrite app_nil_r.
  - unfold Registry.on_end. simpl.
    destruct ((Registry.running r - 1 =? 0) && Registry.aborted r); simpl;
      now rewrite !app_nil_r.
  - unfold Registry.abortAll. simpl.
    destruct (Registry.running r =? 0); simpl; now rewrite ?app_nil_r.
  - unfold Registry.abortAll. simpl.
    destruct (Registry.running r =? 0); simpl; now rewrite ?app_nil_r.
Qed.

(** X1. Whatever happens to the registry, no callback is lost, called
    twice or called out of turn: the callbacks called so far, in the order
    of the calls, followed by the queue, are the queue at the beginning
    followed by the callbacks handed to [abortAll] since, in that order. *)
Theorem callbacks_conserved (actions : list Registry.action) (r : Registry.t) :
  concat (map snd (Registry.trace actions r))
    ++ Registry.abortCallbacks (Registry.run actions r)
  = Registry.abortCallbacks r ++ registered actions.
Proof.
  revert r. induction actions as [|a rest IH]; intros r.
  - simpl. now rewrite app_nil_r.
  - cbn [Registry.trace Registry.run].
    pose proof (step_conserves a r) as Hstep.
    destruct (Registry.step a r) as [r' called]. cbn [fst snd] in *.
    cbn [map concat snd]. rewrite <- app_assoc, IH, app_assoc, Hstep.
    rewrite <- app_assoc. f_equal. unfold registered. simpl.
    now rewrite app_nil_r.
Qed.

Lemma matched_step a d r :
  Registry.running r = Z.of_nat d ->
  (Registry.aborted r = true -> 0 < Registry.running r) ->
  (Registry.abortCallbacks r <> [] -> Registry.aborted r = true) ->
  matched d [a] = true ->
  Registry.running (fst (Registry.step a r)) = Z.of_nat (depth_after d [a])
  /\ (Registry.aborted (fst (Registry.step a r)) = true ->
      0 < Registry.running (fst (Registry.step a r)))
  /\ (Registry.abortCallbacks (fst (Registry.step a r)) <> [] ->
      Registry.aborted (fst (Registry.step a r)) = true).
Proof.
  intros Hrun Hflag Hqueue Hm. destruct a as [| |cb]; simpl in *.
  - repeat split; [lia | intros H; specialize (Hflag H); lia | exact Hqueue].
  - destruct d as [|d]; [discriminate |].
    unfold Registry.on_end. simpl.
    destruct (Registry.running r - 1 =? 0) eqn:E; simpl.
    + apply Z.eqb_eq in E. destruct (Registry.aborted r) eqn:Ea; simpl.
      * repeat split; [lia | discriminate | congruence].
      * repeat split; [lia | discriminate | exact Hqueue].
    + apply Z.eqb_neq in E.
      repeat split; [lia | intros H; specialize (Hflag H); lia | exact Hqueue].
  - unfold Registry.abortAll.
    destruct cb as [fn|]; simpl; destruct (Registry.running r =? 0) eqn:E; simpl;
      rewrite ?Z.eqb_eq, ?Z.eqb_neq in E;
      repeat split; intros; try lia; try discriminate; try congruence;
      try reflexivity.
Qed.

Lemma matched_run actions d r :
  Registry.running r = Z.of_nat d ->
  (Registry.aborted r = true -> 0 < Registry.running r) ->
  (Registry.abortCallbacks r <> [] -> Registry.aborted r = true) ->
  matched d actions = true ->
  Registry.running (Registry.run actions r) = Z.of_nat (depth_after d actions)
  /\ (Registry.aborted (Registry.run actions r) = true ->
      0 < Registry.running (Registry.run actions r))
  /\ (Registry.abortCallbacks (Registry.run actions r) <> [] ->
      Registry.aborted (Registry.run actions r) = true).
Proof.
  revert d r. induction actions as [|a rest IH]; intros d r Hrun Hflag Hqueue Hm.
  - simpl. now repeat split.
  - assert (Ha : matched d [a] = true).
    { destruct a; simpl in *; try reflexivity. now destruct d. }
    destruct (matched_step a d r Hrun Hflag Hqueue Ha) as (R & F & Q).
    cbn [Registry.run].
    assert (Hrest : matched (depth_after d [a]) rest = true).
    { destruct a; simpl in *; try exact Hm. destruct d; [discriminate | exact Hm]. }
    destruct (IH _ _ R F Q Hrest) as (R' & F' & Q').
    assert (Hd : depth_after (depth_after d [a]) rest = depth_after d (a :: rest))
      by (destruct a; reflexivity).
    rewrite Hd in R'. now repeat split.
Qed.

(** X2. From the registry a process starts with, and as long as every
    ['end'] is that of an invocation started before: the counter is the
    number of invocations in flight, the flag is set only while some
    invocation is in flight, and callbacks wait in the queue only while
    the flag is set. *)
Theorem registry_invariant (actions : list Registry.action) :
  matched 0 actions = true ->
  Registry.running (Registry.run actions Registry.initial)
  = Z.of_nat (depth_after 0 actions)
  /\ (Registry.aborted (Registry.run actions Registry.initial) = true ->
      0 < Registry.running (Registry.run actions Registry.initial))
  /\ (Registry.abortCallbacks (Registry.run actions Registry.initial) <> [] ->
      Registry.aborted (Registry.run actions Registry.initial) = true).
Proof.
  intros Hm. apply (matched_run actions 0 Registry.initial); simpl;
    try reflexivity; try discriminate; try exact Hm. congruence.
Qed.

Lemma registry_invariant_witness :
  matched 0 [Registry.Start; Registry.AbortAll (Some 7%nat); Registry.Start;
             Registry.End; Registry.End] = true
  /\ Registry.running
       (Registry.run [Registry.Start; Registry.AbortAll (Some 7%nat); Registry.Start;
                      Registry.End; Registry.End] Registry.initial) = 0.
Proof.
  assert (Hm : matched 0 [Registry.Start; Registry.AbortAll (Some 7%nat);
                          Registry.Start; Registry.End; Registry.End] = true)
    by reflexivity.
  split; [exact Hm |].
  destruct (registry_invariant _ Hm) as [Hrun _]. exact Hrun.
Defined.

(** ** The argument builder, continued *)







(** X4. What the builder does with a [module], [target] or [out] that is
    set to something that is not a string: [module] and [target] have no
    [toLowerCase] and [toUpperCase], and [path.resolve] refuses the [out];
    in each case a [TypeError] leaves the builder, whatever the other
    options are. *)
Theorem buildTscArguments_type_errors cwd (this : Compiler) (version : option string) :
  (truthy (prop (options this) "module") = true ->
   stringy (prop (options this) "module") = false ->
   buildTscArguments cwd this version
   = Throw (TypeError "toLowerCase is not a function"))
  /\ (stringy (prop (options this) "module") = true ->
      truthy (prop (options this) "target") = true ->
      stringy (prop (options this) "target") = false ->
      buildTscArguments cwd this version
      = Throw (TypeError "toUpperCase is not a function"))
  /\ (stringy (prop (options this) "module") = true ->
      stringy (prop (options this) "target") = true ->
      truthy (prop (options this) "out") = true ->
      stringy (prop (options this) "out") = false ->
      forall t, tempDestination this = Some t -> Path.nonempty t = true ->
      buildTscArguments cwd this version
      = Throw (TypeError "Arguments to path.resolve must be strings")).
Proof.
  split; [| split].
  - intros Ht Hs. unfold buildTscArguments. cbn zeta. rewrite Ht.
    destruct (prop (options this) "module"); simpl in *; try discriminate;
      reflexivity.
  - intros Hm Ht Hs. unfold buildTscArguments. cbn zeta.
    rewrite (lower_step _ _ _ Hm). cbn [mbind result_bind]. rewrite Ht.
    destruct (prop (options this) "target"); simpl in *; try discriminate;
      reflexivity.
  - intros Hm Htg Ht Hs t Htemp Hne. unfold buildTscArguments. cbn zeta.
    rewrite (lower_step _ _ _ Hm). cbn [mbind result_bind].
    rewrite (upper_step _ _ _ Htg). cbn [mbind result_bind].
    rewrite Htemp, Hne, Ht.
    destruct (prop (options this) "out"); simpl in *; try discriminate;
      reflexivity.
Qed.

Lemma buildTscArguments_type_errors_witness :
  buildTscArguments "/w" (sample_compiler {["module" := JNum 1]}) None
  = Throw (TypeError "toLowerCase is not a function").
Proof.
  destruct (buildTscArguments_type_errors "/w" (sample_compiler {["module" := JNum 1]})
              None) as [H _].
  apply H; vm_compute; reflexivity.
Defined.

(** ** The invocation, continued *)

Lemma created_dir_app S acc l1 l2 :
  created_dir S acc (l1 ++ l2) = created_dir S (created_dir S acc l1) l2.
Proof.
  revert acc. induction l1 as [|e l1 IH]; intros acc; [reflexivity |].
  destruct e; simpl; apply IH.
Qed.

Lemma created_file_app S acc l1 l2 :
  created_file S acc (l1 ++ l2) = created_file S (created_file S acc l1) l2.
Proof.
  revert acc. induction l1 as [|e l1 IH]; intros acc; [reflexivity |].
  destruct e; simpl; apply IH.
Qed.

(** Events other than the two calls to [temp] make nothing. *)
Lemma created_unchanged S acc_dir acc_file events :
  forallb (fun e => match e with
                    | Call_mkdir _ | Call_open _ => false
                    | _ => true
                    end) events = true ->
  created_dir S acc_dir events = acc_dir
  /\ created_file S acc_file events = acc_file.
Proof.
  induction events as [|e events IH]; intros H; [now split |].
  simpl in H. apply andb_true_iff in H as [He H].
  destruct e; try discriminate; simpl; now apply IH.
Qed.

Lemma relocating_working events :
  forallb relocating events = true -> forallb working events = true.
Proof.
  induction events as [|e events IH]; intros H; [reflexivity |].
  simpl in *. apply andb_true_iff in H as [He H].
  rewrite (IH H). destruct e; try discriminate; reflexivity.
Qed.

Lemma relocating_unchanged S acc_dir acc_file events :
  forallb relocating events = true ->
  created_dir S acc_dir events = acc_dir
  /\ created_file S acc_file events = acc_file.
Proof.
  intros H. apply created_unchanged.
  induction events as [|e events IH]; [reflexivity |].
  simpl in *. apply andb_true_iff in H as [He H].
  rewrite (IH H). destruct e; try discriminate; reflexivity.
Qed.

Lemma advance_refl S st : advance S st st.
Proof.
  split; [exists []; now rewrite app_nil_r | split; auto].
Qed.

Lemma advance_trans S st1 st2 st3 :
  advance S st1 st2 -> advance S st2 st3 -> advance S st1 st3.
Proof.
  intros [(e1 & L1 & W1) [R1 T1]] [(e2 & L2 & W2) [R2 T2]]. split; [| split].
  - exists (e1 ++ e2). rewrite L2, L1, <- app_assoc. split; [reflexivity |].
    now rewrite forallb_app, W1, W2.
  - intros P HP H. apply (R2 P HP). now apply (R1 P HP).
  - auto.
Qed.

Lemma checkAborted_advance k S st : advance S st (fst (checkAborted k S st)).
Proof.
  unfold checkAborted. simpl.
  destruct (Registry.isAborted (interfere S k (registry st))); simpl;
    (split; [exists []; now rewrite app_nil_r | split; [intros P HP H; now apply HP |]]);
    unfold tidy; simpl; trivial.
Qed.

Lemma makeTempDestinationDir_advance S st :
  advance S st (fst (makeTempDestinationDir S st)).
Proof.
  unfold makeTempDestinationDir.
  destruct (path_resolve _ _) as [dir|e]; [|apply advance_refl].
  destruct (temp_mkdir S dir) as [dirPath|err] eqn:Emk; simpl;
    (split; [exists [Call_mkdir dir]; now split | split; [auto |]]);
    unfold tidy; simpl; intros [Hd Hf];
    rewrite created_dir_app, created_file_app; simpl; rewrite Emk; now split.
Qed.

Lemma makeTreeKeeperFile_advance S st : advance S st (fst (makeTreeKeeperFile S st)).
Proof.
  unfold makeTreeKeeperFile.
  destruct (_ || _ || _); [apply advance_refl |].
  destruct (sourceFiles (self st)) as [|first rest]; [apply advance_refl |].
  destruct (temp_open S (file_base first)) as [[path fd]|err] eqn:Eop; simpl.
  - destruct (fs_write_close S fd); simpl;
      (split; [exists [Call_open (file_base first)]; now split | split; [auto |]]);
      unfold tidy; simpl; intros [Hd Hf];
      rewrite created_dir_app, created_file_app; simpl; rewrite Eop; now split.
  - split; [exists [Call_open (file_base first)]; now split | split; [auto |]].
    unfold tidy; simpl; intros [Hd Hf].
    rewrite created_dir_app, created_file_app; simpl; rewrite Eop; now split.
Qed.

Lemma prepareTscArgumentsFile_advance S st :
  advance S st (fst (prepareTscArgumentsFile S st)).
Proof.
  unfold prepareTscArgumentsFile.
  destruct (buildTscArguments _ _ _) as [tscArguments|e]; [|apply advance_refl].
  destruct (tempDestination (self st)) as [dir|] eqn:Etemp; [|apply advance_refl].
  destruct (fs_writeFile S _ _); simpl;
    (split; [eexists [Call_writeFile _ _]; now split | split; [auto |]]);
    unfold tidy; simpl; intros [Hd Hf];
    rewrite created_dir_app, created_file_app; simpl; rewrite <- Etemp; now split.
Qed.

Lemma outputs_working (l : list output) :
  forallb working
    (map (fun o => match o with
                   | Stdout chunk => Emit_stdout chunk
                   | Stderr chunk => Emit_stderr chunk
                   | ProcessError e => Emit_error e
                   end) l) = true
  /\ forallb (fun e => match e with
                       | Call_mkdir _ | Call_open _ => false
                       | _ => true
                       end)
       (map (fun o => match o with
                      | Stdout chunk => Emit_stdout chunk
                      | Stderr chunk => Emit_stderr chunk
                      | ProcessError e => Emit_error e
                      end) l) = true.
Proof. induction l as [|[] l [IH1 IH2]]; simpl; now split. Qed.

Lemma runTsc_advance S st : advance S st (fst (runTsc S st)).
Proof.
  unfold runTsc.
  set (args := ["@" +:+ match tscArgumentsFile (self st) with
                        | Some f => f | None => "null" end]).
  destruct (outputs_working (proc_output (tsc_exec S args (tscOptions (self st)))))
    as [W Q].
  destruct (created_unchanged S (created_dir S None (log st))
              (created_file S None (log st)) _ Q) as [Qd Qf].
  assert (H : forall res,
            advance S st
              (fst (record (map (fun o => match o with
                                          | Stdout chunk => Emit_stdout chunk
                                          | Stderr chunk => Emit_stderr chunk
                                          | ProcessError e => Emit_error e
                                          end)
                              (proc_output (tsc_exec S args (tscOptions (self st)))))
                      (record [Call_exec args] st), res : task_result))).
  { intros res. split; [| split; [auto |]].
    - eexists. simpl. rewrite <- app_assoc. split; [reflexivity |]. simpl. exact W.
    - unfold tidy. simpl. intros [Hd Hf].
      rewrite !created_dir_app, !created_file_app. simpl. rewrite Qd, Qf. now split. }
  destruct (proc_exit _) as [[[| |]|]|]; apply H.
Qed.

Lemma waterfall_advance ts S st :
  Forall (fun t : task => forall S st, advance S st (fst (t S st))) ts ->
  advance S st (fst (waterfall ts S st)).
Proof.
  intros H. revert st. induction H as [|t ts Ht Hts IH]; intros st; simpl.
  - apply advance_refl.
  - pose proof (Ht S st) as Hc. destruct (t S st) as [st' [| | |]]; simpl in *;
      try exact Hc.
    eapply advance_trans; [exact Hc | apply IH].
Qed.

Lemma tasks_advancing :
  Forall (fun t : task => forall S st, advance S st (fst (t S st))) tasks.
Proof.
  unfold tasks.
  repeat (constructor;
          [ intros S st;
            first [ apply checkAborted_advance | apply makeTempDestinationDir_advance
                  | apply makeTreeKeeperFile_advance
                  | apply prepareTscArgumentsFile_advance | apply runTsc_advance ]
          | ]).
  constructor.
Qed.

Lemma drain_relocating stages files source_error :
  forallb relocating (fst (drain stages files source_error)) = true.
Proof.
  induction files as [|file rest IH]; simpl.
  - now destruct source_error.
  - destruct (through stages (JFile file)); simpl; try reflexivity; try exact IH.
    destruct (drain stages rest source_error) as [events c]. simpl in *. exact IH.
Qed.

Lemma processOutputFiles_relocating S (this : Compiler) :
  forallb relocating (fst (processOutputFiles S this)) = true.
Proof.
  unfold processOutputFiles.
  destruct (fsSrc S _ (tempDestination this)) as [files source_error].
  destruct (output_root _ this) as [outDir|e]; [| reflexivity].
  pose proof (drain_relocating (output_stages (engine S) this outDir) files source_error)
    as H.
  destruct (drain _ files source_error) as [events c]. simpl in *. exact H.
Qed.

Lemma abortCallbacks_close l :
  forallb (fun e => negb (working e)) (map Call_abortCallback l) = true.
Proof. induction l as [|x l IH]; [reflexivity | exact IH]. Qed.

(** What [finish(err)] does, in order. *)
Lemma finish_shape S err st :
  log (finish S err st)
  = log st ++ [Call_rimraf (tempDestination (self st));
               Call_unlink (treeKeeperFile (self st)); Emit_end]
      ++ map Call_abortCallback
           (snd (Registry.on_end (interfere S 5 (registry st))))
      ++ [Callback err]
  /\ self (finish S err st) = self st
  /\ registry (finish S err st) = fst (Registry.on_end (interfere S 5 (registry st))).
Proof.
  unfold finish, cleanup, record. simpl.
  destruct (Registry.on_end _) as [r called]. simpl.
  repeat split. now rewrite <- !app_assoc.
Qed.

(** What the function the waterfall ends in does: the relocation, unless
    there is an error in safe mode, and then [finish], unless the
    relocation does not come back. *)
Lemma after_waterfall_shape S err st :
  exists events,
    forallb relocating events = true
    /\ match snd (after_waterfall S err st) with
       | Completed e =>
           log (fst (after_waterfall S err st))
           = log st ++ events
               ++ [Call_rimraf (tempDestination (self st));
                   Call_unlink (treeKeeperFile (self st)); Emit_end]
               ++ map Call_abortCallback
                    (snd (Registry.on_end (interfere S 5 (registry st))))
               ++ [Callback e]
           /\ self (fst (after_waterfall S err st)) = self st
           /\ registry (fst (after_waterfall S err st))
              = fst (Registry.on_end (interfere S 5 (registry st)))
       | _ =>
           log (fst (after_waterfall S err st)) = log st ++ events
           /\ self (fst (after_waterfall S err st)) = self st
           /\ registry (fst (after_waterfall S err st)) = registry st
       end.
Proof.
  unfold after_waterfall.
  destruct (match err with Some _ => _ | None => false end).
  - exists []. split; [reflexivity |]. cbn [fst snd].
    destruct (finish_shape S err st) as (L & Sf & R). now repeat split.
  - pose proof (processOutputFiles_relocating S (self st)) as Hrel.
    destruct (processOutputFiles S (self st)) as [out c]. cbn [fst] in Hrel.
    exists out. split; [exact Hrel |].
    destruct c as [err2| |]; cbn [fst snd].
    + destruct (finish_shape S (match err with Some _ => err | None => err2 end)
                  (record out st)) as (L & Sf & R).
      rewrite L, Sf, R. simpl. rewrite <- !app_assoc. now repeat split.
    + now repeat split.
    + now repeat split.
Qed.

(** X5. What can be seen of an invocation, in order: ['start'] first, then
    nothing but work. When its callback is called, that is the last thing
    the invocation does, once, right after it has removed the temporary
    directory and the placeholder it knows of, emitted ['end'] and, the
    registry permitting, called the abort callbacks, in this order; [end]
    is emitted once. An invocation that is taken down by an exception or
    waits for a process for ever does none of these. *)
Theorem compile_log_shape S (this : Compiler) (r : Registry.t) :
  match snd (compile S this r) with
  | Completed err =>
      exists body called,
        log (fst (compile S this r))
        = Emit_start :: body
            ++ [Call_rimraf (tempDestination (self (fst (compile S this r))));
                Call_unlink (treeKeeperFile (self (fst (compile S this r))));
                Emit_end]
            ++ map Call_abortCallback called ++ [Callback err]
        /\ forallb working body = true
  | _ =>
      exists body,
        log (fst (compile S this r)) = Emit_start :: body
        /\ forallb working body = true
  end.
Proof.
  unfold compile. cbn [self registry log].
  destruct (waterfall_advance tasks S (mkState this (Registry._start r) [Emit_start])
              tasks_advancing) as [(evs & L & W) _].
  destruct (waterfall tasks S _) as [st res]. cbn [fst log] in L.
  assert (Hafter : forall err,
    match snd (after_waterfall S err st) with
    | Completed err0 =>
        exists body called,
          log (fst (after_waterfall S err st))
          = Emit_start :: body
              ++ [Call_rimraf (tempDestination (self (fst (after_waterfall S err st))));
                  Call_unlink (treeKeeperFile (self (fst (after_waterfall S err st))));
                  Emit_end]
              ++ map Call_abortCallback called ++ [Callback err0]
          /\ forallb working body = true
    | _ =>
        exists body,
          log (fst (after_waterfall S err st)) = Emit_start :: body
          /\ forallb working body = true
    end).
  { intros err. destruct (after_waterfall_shape S err st) as (out & Hrel & Hshape).
    apply relocating_working in Hrel.
    destruct (snd (after_waterfall S err st)) as [e| |];
      destruct Hshape as (La & Sa & Ra); rewrite La, L; try rewrite Sa.
    - exists (evs ++ out), (snd (Registry.on_end (interfere S 5 (registry st)))).
      split; [simpl; rewrite <- ?app_assoc; reflexivity |].
      now rewrite forallb_app, W, Hrel.
    - exists (evs ++ out). split; [simpl; rewrite <- ?app_assoc; reflexivity |].
      now rewrite forallb_app, W, Hrel.
    - exists (evs ++ out). split; [simpl; rewrite <- ?app_assoc; reflexivity |].
      now rewrite forallb_app, W, Hrel. }
  destruct res as [|e|e|].
  - destruct (after_waterfall S None st) as [st' c] eqn:E. specialize (Hafter None).
    rewrite E in Hafter. exact Hafter.
  - destruct (after_waterfall S (Some e) st) as [st' c] eqn:E.
    specialize (Hafter (Some e)). rewrite E in Hafter. exact Hafter.
  - cbn [fst snd]. exists evs. now split.
  - cbn [fst snd]. exists evs. now split.
Qed.

(** X6. A compiler that starts with no temporary directory and no
    placeholder, and whose callback is called: what [cleanup] removes just
    before is the directory [temp.mkdir] has made for this invocation and
    the file [temp.open] has made for it, also when a later task failed,
    and nothing when none was made. *)
Theorem cleanup_removes_what_was_made S (this : Compiler) (r : Registry.t) err :
  tempDestination this = None ->
  treeKeeperFile this = None ->
  snd (compile S this r) = Completed err ->
  exists before after,
    log (fst (compile S this r))
    = before
        ++ Call_rimraf (created_dir S None before)
        :: Call_unlink (created_file S None before)
        :: Emit_end :: after
    /\ forallb (fun e => negb (working e)) after = true.
Proof.
  intros Htemp Hkeep. unfold compile. cbn [self registry log].
  destruct (waterfall_advance tasks S (mkState this (Registry._start r) [Emit_start])
              tasks_advancing) as [(evs & L & W) [_ T]].
  assert (T0 : tidy S (mkState this (Registry._start r) [Emit_start])).
  { unfold tidy. simpl. now split. }
  specialize (T T0). clear T0.
  destruct (waterfall tasks S _) as [st res]. cbn [fst log] in *.
  assert (Hafter : forall e0,
            snd (after_waterfall S e0 st) = Completed err ->
            exists before after,
              log (fst (after_waterfall S e0 st))
              = before
                  ++ Call_rimraf (created_dir S None before)
                  :: Call_unlink (created_file S None before)
                  :: Emit_end :: after
              /\ forallb (fun e => negb (working e)) after = true).
  { intros e0 Hc. destruct (after_waterfall_shape S e0 st) as (out & Hrel & Hshape).
    rewrite Hc in Hshape. destruct Hshape as (La & _ & _).
    destruct T as [Td Tf].
    destruct (relocating_unchanged S (created_dir S None (log st))
                (created_file S None (log st)) out Hrel) as [Qd Qf].
    exists (log st ++ out),
      (map Call_abortCallback (snd (Registry.on_end (interfere S 5 (registry st))))
       ++ [Callback err]).
    split.
    - rewrite La, !created_dir_app, !created_file_app, Qd, Qf, <- Td, <- Tf.
      rewrite <- !app_assoc. reflexivity.
    - rewrite forallb_app, abortCallbacks_close. reflexivity. }
  destruct res as [|e|e|].
  - destruct (after_waterfall S None st) as [st' c] eqn:E. intros Hc.
    specialize (Hafter None). rewrite E in Hafter. exact (Hafter Hc).
  - destruct (after_waterfall S (Some e) st) as [st' c] eqn:E. intros Hc.
    specialize (Hafter (Some e)). rewrite E in Hafter. exact (Hafter Hc).
  - discriminate.
  - discriminate.
Qed.

Lemma cleanup_removes_what_was_made_witness :
  snd (compile (sample_system false 2) (sample_compiler ∅) Registry.initial)
  = Completed (Some (Error "tsc command has exited with code:2"))
  /\ exists before after,
       log (fst (compile (sample_system false 2) (sample_compiler ∅) Registry.initial))
       = before
           ++ Call_rimraf (created_dir (sample_system false 2) None before)
           :: Call_unlink (created_file (sample_system false 2) None before)
           :: Emit_end :: after
       /\ forallb (fun e => negb (working e)) after = true.
Proof.
  assert (Hc : snd (compile (sample_system false 2) (sample_compiler ∅) Registry.initial)
               = Completed (Some (Error "tsc command has exited with code:2")))
    by (vm_compute; reflexivity).
  split; [exact Hc |].
  exact (cleanup_removes_what_was_made (sample_system false 2) (sample_compiler ∅)
           Registry.initial _ eq_refl eq_refl Hc).
Defined.

(** X7. As long as no other turn of the event loop touches the registry,
    an invocation whose callback is called has given back the place it
    took: the registry is what the ['end'] listener makes of it and the
    counter is back where it was. An invocation that is taken down or
    waits for ever keeps its place, so that the counter never comes back
    to zero and the callbacks of a later [abortAll] stay queued. *)
Theorem compile_registry S (this : Compiler) (r : Registry.t) :
  (forall k r', interfere S k r' = r') ->
  match snd (compile S this r) with
  | Completed _ =>
      registry (fst (compile S this r)) = fst (Registry.on_end (Registry._start r))
      /\ Registry.running (registry (fst (compile S this r))) = Registry.running r
  | _ =>
      registry (fst (compile S this r)) = Registry._start r
      /\ Registry.running (registry (fst (compile S this r))) = Registry.running r + 1
  end.
Proof.
  intros Hsteady. unfold compile. cbn [self registry log].
  destruct (waterfall_advance tasks S (mkState this (Registry._start r) [Emit_start])
              tasks_advancing) as [_ [R _]].
  specialize (R (fun r' => r' = Registry._start r)). cbn beta in R.
  assert (Hreg : registry (fst (waterfall tasks S
                    (mkState this (Registry._start r) [Emit_start])))
                 = Registry._start r).
  { apply R; [| reflexivity]. intros k r' ->. apply Hsteady. }
  clear R. destruct (waterfall tasks S _) as [st res]. cbn [fst] in Hreg.
  assert (Hend : Registry.running (fst (Registry.on_end (Registry._start r)))
                 = Registry.running r).
  { unfold Registry.on_end, Registry._start. simpl.
    destruct (_ && _); simpl; lia. }
  assert (Hafter : forall err,
    match snd (after_waterfall S err st) with
    | Completed _ =>
        registry (fst (after_waterfall S err st))
        = fst (Registry.on_end (Registry._start r))
        /\ Registry.running (registry (fst (after_waterfall S err st)))
           = Registry.running r
    | _ =>
        registry (fst (after_waterfall S err st)) = Registry._start r
        /\ Registry.running (registry (fst (after_waterfall S err st)))
           = Registry.running r + 1
    end).
  { intros err. destruct (after_waterfall_shape S err st) as (out & _ & Hshape).
    destruct (snd (after_waterfall S err st)) as [e| |];
      destruct Hshape as (_ & _ & Ra); rewrite Ra; try rewrite Hsteady;
      rewrite Hreg; try (split; [reflexivity | exact Hend]);
      split; reflexivity. }
  destruct res as [|e|e|].
  - destruct (after_waterfall S None st) as [st' c] eqn:E. specialize (Hafter None).
    rewrite E in Hafter. exact Hafter.
  - destruct (after_waterfall S (Some e) st) as [st' c] eqn:E.
    specialize (Hafter (Some e)). rewrite E in Hafter. exact Hafter.
  - cbn [fst snd]. rewrite Hreg. now split.
  - cbn [fst snd]. rewrite Hreg. now split.
Qed.

Lemma compile_registry_witness :
  Registry.running
    (registry (fst (compile (sample_system false 2) (sample_compiler ∅)
                      Registry.initial))) = 0.
Proof.
  assert (Hsteady : forall k r', interfere (sample_system false 2) k r' = r')
    by reflexivity.
  assert (Hc : snd (compile (sample_system false 2) (sample_compiler ∅) Registry.initial)
               = Completed (Some (Error "tsc command has exited with code:2")))
    by (vm_compute; reflexivity).
  pose proof (compile_registry (sample_system false 2) (sample_compiler ∅)
                Registry.initial Hsteady) as H.
  rewrite Hc in H. destruct H as [_ H]. exact H.
Defined.

Lemma waterfall_abort_seen (pre post : list task) k S st :
  Forall (fun t : task => forall S st, advance S st (fst (t S st))) pre ->
  0 < Registry.running (registry st) ->
  (forall n r', 0 < Registry.running r' -> 0 < Registry.running (interfere S n r')) ->
  (forall r', 0 < Registry.running r' -> Registry.isAborted (interfere S k r') = true) ->
  snd (waterfall (pre ++ checkAborted k :: post) S st) <> Next.
Proof.
  intros Hpre Hrun Hkeep Habort. rewrite waterfall_app.
  destruct (waterfall_advance pre S st Hpre) as [_ [R _]].
  specialize (R (fun r' => 0 < Registry.running r') Hkeep Hrun).
  destruct (waterfall pre S st) as [st' res]. cbn [fst] in R.
  destruct res; try discriminate.
  cbn [waterfall]. unfold checkAborted. cbn [self registry log].
  rewrite (Habort _ R). discriminate.
Qed.

Lemma after_waterfall_failed S e st :
  snd (after_waterfall S (Some e) st) <> Completed None.
Proof.
  unfold after_waterfall. destruct (truthy _); [discriminate |].
  destruct (processOutputFiles S (self st)) as [out [err2| |]]; discriminate.
Qed.

(** An invocation that does not get through its tasks does not succeed. *)
Lemma compile_needs_next S (this : Compiler) r :
  snd (waterfall tasks S (mkState this (Registry._start r) [Emit_start])) <> Next ->
  snd (compile S this r) <> Completed None.
Proof.
  unfold compile. cbn [self registry log].
  destruct (waterfall tasks S _) as [st [|e|e|]]; cbn [snd]; intros H.
  - contradiction.
  - pose proof (after_waterfall_failed S e st) as Hf.
    destruct (after_waterfall S (Some e) st). exact Hf.
  - discriminate.
  - discriminate.
Qed.

(** An invocation that does not get through the tasks before [runTsc]
    launches nothing. *)
Lemma compile_no_launch S (this : Compiler) r :
  snd (waterfall
         [ checkAborted 0; makeTempDestinationDir; checkAborted 1;
           makeTreeKeeperFile; checkAborted 2; prepareTscArgumentsFile;
           checkAborted 3 ] S (mkState this (Registry._start r) [Emit_start])) <> Next ->
  execs (log (fst (compile S this r))) = [].
Proof.
  unfold compile. cbn [self registry log]. rewrite tasks_split, waterfall_app.
  pose proof (before_runTsc_calm S (mkState this (Registry._start r) [Emit_start]))
    as (ev7 & L7 & X7 & _).
  destruct (waterfall _ S (mkState this (Registry._start r) [Emit_start]))
    as [st7 r7]. cbn [fst snd log] in *.
  assert (X0 : execs (log st7) = []) by (rewrite L7, execs_app, X7; reflexivity).
  intros Hnext. destruct r7 as [|e|e|]; [contradiction | | exact X0 | exact X0].
  destruct (after_waterfall_log S (Some e) st7) as (ev & L & X).
  destruct (after_waterfall S (Some e) st7) as [st' c]. cbn [fst] in *.
  now rewrite L, execs_app, X, X0.
Qed.

Lemma advancing_prefix (pre post : list task) :
  tasks = pre ++ post ->
  Forall (fun t : task => forall S st, advance S st (fst (t S st))) pre.
Proof.
  intros H. pose proof tasks_advancing as Hall. rewrite H in Hall.
  apply Forall_app in Hall. tauto.
Qed.

(** X8. An abort that is asked for while the invocation runs is seen at
    the next check. When the flag is set at one of the five checks, the
    invocation does not end in success, whatever the outcome of the tasks
    before; when this is one of the first four, no compiler process is
    launched. *)
Theorem compile_abort_seen S (this : Compiler) (r : Registry.t) (k : nat) :
  (k < 5)%nat ->
  0 <= Registry.running r ->
  (forall n r', 0 < Registry.running r' -> 0 < Registry.running (interfere S n r')) ->
  (forall r', 0 < Registry.running r' -> Registry.isAborted (interfere S k r') = true) ->
  snd (compile S this r) <> Completed None
  /\ ((k < 4)%nat -> execs (log (fst (compile S this r))) = []).
Proof.
  intros Hk Hrun Hkeep Habort.
  assert (Hstart : 0 < Registry.running
                         (registry (mkState this (Registry._start r) [Emit_start])))
    by (simpl; lia).
  assert (Hseen : forall pre post rest,
            tasks = pre ++ checkAborted k :: rest ->
            snd (waterfall (pre ++ checkAborted k :: post) S
                   (mkState this (Registry._start r) [Emit_start])) <> Next).
  { intros pre post rest Htasks.
    apply (waterfall_abort_seen pre post k S _
             (advancing_prefix pre (checkAborted k :: rest) Htasks)
             Hstart Hkeep Habort). }
  destruct k as [|[|[|[|[|k]]]]]; try lia.
  - split.
    + apply compile_needs_next. exact (Hseen [] _ _ eq_refl).
    + intros _. apply compile_no_launch. exact (Hseen [] _ _ eq_refl).
  - split.
    + apply compile_needs_next.
      exact (Hseen [checkAborted 0; makeTempDestinationDir] _ _ eq_refl).
    + intros _. apply compile_no_launch.
      exact (Hseen [checkAborted 0; makeTempDestinationDir] _ _ eq_refl).
  - split.
    + apply compile_needs_next.
      exact (Hseen [checkAborted 0; makeTempDestinationDir; checkAborted 1;
                    makeTreeKeeperFile] _ _ eq_refl).
    + intros _. apply compile_no_launch.
      exact (Hseen [checkAborted 0; makeTempDestinationDir; checkAborted 1;
                    makeTreeKeeperFile] _ _ eq_refl).
  - split.
    + apply compile_needs_next.
      exact (Hseen [checkAborted 0; makeTempDestinationDir; checkAborted 1;
                    makeTreeKeeperFile; checkAborted 2; prepareTscArgumentsFile]
               _ _ eq_refl).
    + intros _. apply compile_no_launch.
      exact (Hseen [checkAborted 0; makeTempDestinationDir; checkAborted 1;
                    makeTreeKeeperFile; checkAborted 2; prepareTscArgumentsFile]
               [] _ eq_refl).
  - split; [| lia].
    apply compile_needs_next.
    exact (Hseen [checkAborted 0; makeTempDestinationDir; checkAborted 1;
                  makeTreeKeeperFile; checkAborted 2; prepareTscArgumentsFile;
                  checkAborted 3; runTsc] _ _ eq_refl).
Qed.

Lemma compile_abort_seen_witness :
  snd (compile (aborting_system 2) (sample_compiler ∅) Registry.initial)
  <> Completed None
  /\ execs (log (fst (compile (aborting_system 2) (sample_compiler ∅)
                        Registry.initial))) = [].
Proof.
  assert (Hkeep : forall n r', 0 < Registry.running r' ->
                    0 < Registry.running (interfere (aborting_system 2) n r')).
  { intros n r' H. simpl. destruct (Nat.eqb n 2); [| exact H].
    unfold Registry.abortAll. simpl.
    destruct (Registry.running r' =? 0) eqn:E; simpl; [| exact H].
    apply Z.eqb_eq in E. lia. }
  assert (Habort : forall r', 0 < Registry.running r' ->
                     Registry.isAborted (interfere (aborting_system 2) 2%nat r') = true).
  { intros r' H. simpl. unfold Registry.abortAll. simpl.
    destruct (Registry.running r' =? 0) eqn:E; simpl; [| reflexivity].
    apply Z.eqb_eq in E. lia. }
  assert (Hk : (2 < 5)%nat) by lia.
  assert (Hrun : 0 <= Registry.running Registry.initial) by (simpl; lia).
  destruct (compile_abort_seen (aborting_system 2) (sample_compiler ∅)
              Registry.initial 2 Hk Hrun Hkeep Habort) as [H1 H2].
  split; [exact H1 | apply H2; lia].
Defined.

(** ** The argument file and the process *)

Lemma quoted_concat (l : list string) :
  l <> [] ->
  quote +:+ String.concat (quote +:+ newline +:+ quote) l +:+ quote
  = String.concat newline (map (fun a => quote +:+ a +:+ quote) l).
Proof.
  induction l as [|x l IH]; [congruence |]. intros _.
  destruct l as [|y l]; [reflexivity |].
  change (String.concat (quote +:+ newline +:+ quote) (x :: y :: l))
    with (x +:+ (quote +:+ newline +:+ quote)
            +:+ String.concat (quote +:+ newline +:+ quote) (y :: l)).
  change (String.concat newline (map (fun a => quote +:+ a +:+ quote) (x :: y :: l)))
    with ((quote +:+ x +:+ quote) +:+ newline
            +:+ String.concat newline (map (fun a => quote +:+ a +:+ quote) (y :: l))).
  rewrite <- IH by discriminate.
  now rewrite !string_app_assoc.
Qed.

(** X9. [prepareTscArgumentsFile] on a compiler that has its temporary
    directory and whose arguments can be built: the file is
    [tscArguments] in the temporary directory, the compiler object
    remembers it, what is written is one line for each argument, the
    argument between double quotes and nothing escaped, and the task ends
    as the write does. *)
Theorem prepareTscArgumentsFile_writes S (st : state) args dir :
  buildTscArguments (cwd (engine S)) (self st) (getVersion S (self st)) = Ok args ->
  tempDestination (self st) = Some dir ->
  args <> [] ->
  let file := Path.join [dir; "tscArguments"] in
  let content :=
    String.concat newline
      (map (fun a => quote +:+ to_string (engine S) a +:+ quote) args) in
  log (fst (prepareTscArgumentsFile S st)) = log st ++ [Call_writeFile file content]
  /\ tscArgumentsFile (self (fst (prepareTscArgumentsFile S st))) = Some file
  /\ snd (prepareTscArgumentsFile S st)
     = match fs_writeFile S file content with
       | Some err => Err err
       | None => Next
       end.
Proof.
  intros Hargs Hdir Hne file content.
  assert (Hcontent :
            quote +:+ String.concat (quote +:+ newline +:+ quote)
                        (map (to_string (engine S)) args) +:+ quote
            = content).
  { unfold content. rewrite quoted_concat.
    - now rewrite map_map.
    - destruct args; [congruence | discriminate]. }
  unfold prepareTscArgumentsFile. rewrite Hargs, Hdir. fold file.
  rewrite Hcontent. destruct (fs_writeFile S file content); now repeat split.
Qed.

Lemma prepareTscArgumentsFile_writes_witness :
  log (fst (prepareTscArgumentsFile (sample_system false 0)
              (mkState (at_work (sample_compiler ∅)) Registry.initial [])))
  = [Call_writeFile "/w/gulp-tsc-tmp-1/tscArguments"
       (String.concat newline
          (map (fun a => quote +:+ a +:+ quote)
             ["--module"; "commonjs"; "--target"; "ES3";
              "--outDir"; "/w/gulp-tsc-tmp-1"; "/w/src/a.ts";
              "/w/src/.gulp-tsc-tmp-2.ts"]))].
Proof.
  assert (Hargs :
    buildTscArguments (cwd (engine (sample_system false 0)))
      (at_work (sample_compiler ∅))
      (getVersion (sample_system false 0) (at_work (sample_compiler ∅)))
    = Ok (map JStr ["--module"; "commonjs"; "--target"; "ES3";
                    "--outDir"; "/w/gulp-tsc-tmp-1"; "/w/src/a.ts";
                    "/w/src/.gulp-tsc-tmp-2.ts"]))
    by (vm_compute; reflexivity).
  assert (Hne : map JStr ["--module"; "commonjs"; "--target"; "ES3";
                          "--outDir"; "/w/gulp-tsc-tmp-1"; "/w/src/a.ts";
                          "/w/src/.gulp-tsc-tmp-2.ts"] <> []) by discriminate.
  destruct (prepareTscArgumentsFile_writes (sample_system false 0)
              (mkState (at_work (sample_compiler ∅)) Registry.initial [])
              _ "/w/gulp-tsc-tmp-1" Hargs eq_refl Hne) as [H _].
  exact H.
Defined.

Lemma waterfall_cons_next (t : task) (rest : list task) S st st' :
  waterfall (t :: rest) S st = (st', Next) ->
  exists st1, t S st = (st1, Next) /\ waterfall rest S st1 = (st', Next).
Proof.
  simpl. destruct (t S st) as [st1 [| | |]]; try discriminate.
  intros H. now exists st1.
Qed.

Lemma checkAborted_next k S st st1 :
  checkAborted k S st = (st1, Next) -> self st1 = self st /\ log st1 = log st.
Proof.
  unfold checkAborted. cbn [self registry log].
  destruct (Registry.isAborted _); [discriminate |].
  intros H. injection H as <-. now split.
Qed.

Lemma makeTempDestinationDir_next S st st1 :
  makeTempDestinationDir S st = (st1, Next) ->
  exists t dir,
    prop (options (self st)) "tmpDir" = JStr t
    /\ temp_mkdir S (Path.resolve (cwd (engine S)) [cwd (engine S); t]) = Ok dir
    /\ tempDestination (self st1) = Some dir.
Proof.
  unfold makeTempDestinationDir.
  destruct (prop (options (self st)) "tmpDir") as [| |b|n|t| | | |] eqn:Et;
    simpl; try discriminate.
  destruct (temp_mkdir S _) as [dir|err] eqn:Emk; [| discriminate].
  intros H. injection H as <-. now exists t, dir.
Qed.

Lemma makeTreeKeeperFile_keeps S st :
  tempDestination (self (fst (makeTreeKeeperFile S st))) = tempDestination (self st).
Proof.
  unfold makeTreeKeeperFile.
  destruct (_ || _ || _); [reflexivity |].
  destruct (sourceFiles (self st)) as [|first rest]; [reflexivity |].
  destruct (temp_open S (file_base first)) as [[path fd]|err]; [| reflexivity].
  destruct (fs_write_close S fd); reflexivity.
Qed.

Lemma prepareTscArgumentsFile_next S st st1 :
  prepareTscArgumentsFile S st = (st1, Next) ->
  exists dir content,
    tempDestination (self st) = Some dir
    /\ tscArgumentsFile (self st1) = Some (Path.join [dir; "tscArguments"])
    /\ log st1 = log st ++ [Call_writeFile (Path.join [dir; "tscArguments"]) content]
    /\ fs_writeFile S (Path.join [dir; "tscArguments"]) content = None
    /\ tempDestination (self st1) = Some dir.
Proof.
  unfold prepareTscArgumentsFile.
  destruct (buildTscArguments _ _ _) as [args|e]; [| discriminate].
  destruct (tempDestination (self st)) as [dir|] eqn:Ed; [| discriminate].
  destruct (fs_writeFile S _ _) eqn:Ew; [discriminate |].
  intros H. injection H as <-. eexists dir, _. repeat split. exact Ew.
Qed.

(** Once the tasks before [runTsc] are through, the process is launched,
    once. *)
Lemma compile_after_launch S (this : Compiler) r st7 :
  waterfall
    [ checkAborted 0; makeTempDestinationDir; checkAborted 1;
      makeTreeKeeperFile; checkAborted 2; prepareTscArgumentsFile;
      checkAborted 3 ] S (mkState this (Registry._start r) [Emit_start])
  = (st7, Next) ->
  exists after,
    log (fst (compile S this r))
    = log st7
        ++ Call_exec ["@" +:+ match tscArgumentsFile (self st7) with
                              | Some f => f | None => "null" end] :: after
    /\ execs after = [].
Proof.
  intros E7. unfold compile. cbn [self registry log].
  rewrite tasks_split, waterfall_app, E7. cbn [waterfall].
  destruct (runTsc_log S st7) as (ev8 & L8 & X8 & _ & _ & _).
  destruct (runTsc S st7) as [st8 r8]. cbn [fst] in L8.
  assert (Hend : forall err st9, log st9 = log st8 ->
            exists after,
              log (fst (after_waterfall S err st9))
              = log st7
                  ++ Call_exec ["@" +:+ match tscArgumentsFile (self st7) with
                                        | Some f => f | None => "null" end] :: after
              /\ execs after = []).
  { intros err st9 L9.
    destruct (after_waterfall_log S err st9) as (ev & L & X).
    exists (ev8 ++ ev). rewrite L, L9, L8, <- app_assoc. split; [reflexivity |].
    now rewrite execs_app, X8, X. }
  destruct r8 as [|e|e|].
  - unfold checkAborted. cbn [self registry log].
    destruct (Registry.isAborted (interfere S 4 (registry st8))).
    + destruct (Hend (Some (Error "aborted"))
                  (mkState (self st8) (interfere S 4 (registry st8)) (log st8))
                  eq_refl) as (after & L & X).
      destruct (after_waterfall S _ _). now exists after.
    + cbn [waterfall].
      destruct (Hend None
                  (mkState (self st8) (interfere S 4 (registry st8)) (log st8))
                  eq_refl) as (after & L & X).
      destruct (after_waterfall S _ _). now exists after.
  - destruct (Hend (Some e) st8 eq_refl) as (after & L & X).
    destruct (after_waterfall S _ _). now exists after.
  - exists ev8. now split.
  - exists ev8. now split.
Qed.

(** X10. A compiler process in the log of an invocation: it is the only
    one; [temp.mkdir] had made a directory under the working directory
    resolved with [tmpDir], the argument file had been written into that
    directory without an error, and writing it is the last thing that was
    done before the launch; the process gets one argument, [@] followed by
    the path of that file. *)
Theorem compile_launch_contract S (this : Compiler) (r : Registry.t) args :
  In args (execs (log (fst (compile S this r)))) ->
  exists t dir content before after,
    prop (options this) "tmpDir" = JStr t
    /\ temp_mkdir S (Path.resolve (cwd (engine S)) [cwd (engine S); t]) = Ok dir
    /\ fs_writeFile S (Path.join [dir; "tscArguments"]) content = None
    /\ args = ["@" +:+ Path.join [dir; "tscArguments"]]
    /\ log (fst (compile S this r))
       = before
           ++ Call_writeFile (Path.join [dir; "tscArguments"]) content
           :: Call_exec args :: after
    /\ execs before = [] /\ execs after = [].
Proof.
  intros Hin.
  destruct (compile_launch S this r args Hin) as (st7 & E7 & Hargs & Hcalm).
  destruct (compile_after_launch S this r st7 E7) as (after & Lc & Xa).
  destruct Hcalm as (ev7 & L7 & X7 & _).
  destruct (waterfall_cons_next _ _ _ _ _ E7) as (st1 & T1 & E1).
  destruct (waterfall_cons_next _ _ _ _ _ E1) as (st2 & T2 & E2).
  destruct (waterfall_cons_next _ _ _ _ _ E2) as (st3 & T3 & E3).
  destruct (waterfall_cons_next _ _ _ _ _ E3) as (st4 & T4 & E4).
  destruct (waterfall_cons_next _ _ _ _ _ E4) as (st5 & T5 & E5).
  destruct (waterfall_cons_next _ _ _ _ _ E5) as (st6 & T6 & E6).
  destruct (waterfall_cons_next _ _ _ _ _ E6) as (st7' & T7 & E8).
  cbn [waterfall] in E8. injection E8 as ->.
  apply checkAborted_next in T1 as [S1 _]. cbn [self] in S1.
  apply makeTempDestinationDir_next in T2 as (t & dir & Ht & Hmk & Hdir).
  rewrite S1 in Ht.
  apply checkAborted_next in T3 as [S3 _].
  pose proof (makeTreeKeeperFile_keeps S st3) as K4. rewrite T4 in K4. cbn [fst] in K4.
  apply checkAborted_next in T5 as [S5 _].
  apply prepareTscArgumentsFile_next in T6 as (dir' & content & Hd & Hf & L6 & Hw & _).
  apply checkAborted_next in T7 as [S7 L7'].
  rewrite S5, K4, S3, Hdir in Hd. injection Hd as <-.
  rewrite S7, Hf in Hargs, Lc.
  exists t, dir, content, (log st5), after.
  repeat split; try assumption.
  - rewrite Lc, L7', L6, <- app_assoc, <- Hargs. reflexivity.
  - assert (X : execs (log st7) = []).
    { rewrite L7, execs_app, X7. reflexivity. }
    rewrite L7', L6, execs_app in X. simpl in X. now rewrite app_nil_r in X.
Qed.

Lemma compile_launch_contract_witness :
  exists t dir content before after,
    prop (options (sample_compiler ∅)) "tmpDir" = JStr t
    /\ temp_mkdir (sample_system false 0)
         (Path.resolve (cwd (engine (sample_system false 0)))
            [cwd (engine (sample_system false 0)); t]) = Ok dir
    /\ fs_writeFile (sample_system false 0) (Path.join [dir; "tscArguments"]) content
       = None
    /\ ["@/w/gulp-tsc-tmp-1/tscArguments"] = ["@" +:+ Path.join [dir; "tscArguments"]]
    /\ log (fst (compile (sample_system false 0) (sample_compiler ∅) Registry.initial))
       = before
           ++ Call_writeFile (Path.join [dir; "tscArguments"]) content
           :: Call_exec ["@/w/gulp-tsc-tmp-1/tscArguments"] :: after
    /\ execs before = [] /\ execs after = [].
Proof.
  assert (Hin : In ["@/w/gulp-tsc-tmp-1/tscArguments"]
                  (execs (log (fst (compile (sample_system false 0) (sample_compiler ∅)
                                      Registry.initial)))))
    by (vm_compute; left; reflexivity).
  exact (compile_launch_contract (sample_system false 0) (sample_compiler ∅)
           Registry.initial _ Hin).
Defined.

(** What becomes of an invocation that has launched its process. *)
Lemma compile_after_exec S (this : Compiler) r args :
  In args (execs (log (fst (compile S this r)))) ->
  exists st8,
    options (self st8) = options this
    /\ (exists dir, tempDestination (self st8) = Some dir)
    /\ compile S this r
       = match proc_exit (tsc_exec S args (tscOptions this)) with
         | None => (st8, Pending)
         | Some (Some 0) =>
             if Registry.isAborted (interfere S 4 (registry st8))
             then after_waterfall S (Some (Error "aborted"))
                    (mkState (self st8) (interfere S 4 (registry st8)) (log st8))
             else after_waterfall S None
                    (mkState (self st8) (interfere S 4 (registry st8)) (log st8))
         | Some code => after_waterfall S (Some (Error (exit_message code))) st8
         end
    /\ forall P : Registry.t -> Prop,
         (forall k r', P r' -> P (interfere S k r')) ->
         P (Registry._start r) -> P (registry st8).
Proof.
  intros Hin.
  destruct (compile_launch S this r args Hin) as (st7 & E7 & Hargs & Hcalm).
  destruct Hcalm as (ev7 & L7 & _ & G7 & O7 & T7). cbn [self log] in *.
  destruct (runTsc_log S st7) as (ev8 & L8 & _ & G8 & Self8 & R8).
  rewrite <- Hargs, T7 in R8.
  assert (Hdir : exists dir, tempDestination (self st7) = Some dir).
  { destruct (waterfall_cons_next _ _ _ _ _ E7) as (st1 & T1 & E1).
    destruct (waterfall_cons_next _ _ _ _ _ E1) as (st2 & T2 & E2).
    destruct (waterfall_cons_next _ _ _ _ _ E2) as (st3 & T3 & E3).
    destruct (waterfall_cons_next _ _ _ _ _ E3) as (st4 & T4 & E4).
    destruct (waterfall_cons_next _ _ _ _ _ E4) as (st5 & T5 & E5).
    destruct (waterfall_cons_next _ _ _ _ _ E5) as (st6 & T6 & E6).
    destruct (waterfall_cons_next _ _ _ _ _ E6) as (st7' & T7' & E8).
    cbn [waterfall] in E8. injection E8 as ->.
    apply prepareTscArgumentsFile_next in T6 as (dir & content & _ & _ & _ & _ & Hd).
    apply checkAborted_next in T7' as [S7 _].
    exists dir. now rewrite S7. }
  exists (fst (runTsc S st7)). split; [now rewrite Self8 |].
  split; [now rewrite Self8 |]. split.
  - unfold compile. cbn [self registry log]. rewrite tasks_split, waterfall_app, E7.
    cbn [waterfall]. destruct (runTsc S st7) as [st8 r8]. cbn [fst snd] in *.
    subst r8. destruct (proc_exit _) as [[[| |]|]|]; try reflexivity.
    unfold checkAborted. cbn [self registry log].
    destruct (Registry.isAborted _); reflexivity.
  - intros P HP H0.
    pose proof (waterfall_advance
                  ([ checkAborted 0; makeTempDestinationDir; checkAborted 1;
                     makeTreeKeeperFile; checkAborted 2; prepareTscArgumentsFile;
                     checkAborted 3 ]) S (mkState this (Registry._start r) [Emit_start])
                  (advancing_prefix _ _ tasks_split))
      as [_ [R _]].
    rewrite E7 in R. cbn [fst registry] in R.
    destruct (runTsc_advance S st7) as [_ [R8' _]].
    apply (R8' P HP). now apply (R P HP).
Qed.

(** X11. An invocation that has launched its process ends as the process
    does. While the process does not exit, the callback is not called.
    When a signal ends it, the error carries [code:null]. When it exits
    with zero and nobody asks for an abort, the callback gets what the
    relocation of the output files comes to, run on the compiler object as
    the tasks left it, with its options and its temporary directory. *)
Theorem compile_process_exit S (this : Compiler) (r : Registry.t) args :
  In args (execs (log (fst (compile S this r)))) ->
  (proc_exit (tsc_exec S args (tscOptions this)) = None ->
   snd (compile S this r) = Pending)
  /\ (proc_exit (tsc_exec S args (tscOptions this)) = Some None ->
      truthy (prop (options this) "safe") = true ->
      snd (compile S this r)
      = Completed (Some (Error "tsc command has exited with code:null")))
  /\ (proc_exit (tsc_exec S args (tscOptions this)) = Some (Some 0) ->
      Registry.aborted r = false ->
      (forall k r', Registry.aborted r' = false ->
                    Registry.aborted (interfere S k r') = false) ->
      exists this' dir,
        options this' = options this
        /\ tempDestination this' = Some dir
        /\ snd (compile S this r) = snd (processOutputFiles S this')).
Proof.
  intros Hin.
  destruct (compile_after_exec S this r args Hin) as (st8 & O8 & [dir Hdir] & Hc & R).
  split; [| split].
  - intros Hexit. rewrite Hc, Hexit. reflexivity.
  - intros Hexit Hsafe. rewrite Hc, Hexit.
    destruct (after_waterfall_error S (Error (exit_message None)) st8) as [Hs _].
    rewrite O8 in Hs. rewrite (Hs Hsafe). reflexivity.
  - intros Hexit Hclear Hkeep. exists (self st8), dir.
    split; [exact O8 |]. split; [exact Hdir |].
    rewrite Hc, Hexit.
    assert (Hflag : Registry.isAborted (interfere S 4 (registry st8)) = false).
    { unfold Registry.isAborted. apply Hkeep.
      apply (R (fun r' => Registry.aborted r' = false) Hkeep). exact Hclear. }
    rewrite Hflag. unfold after_waterfall. cbn [self].
    destruct (processOutputFiles S (self st8)) as [out [err2| |]]; reflexivity.
Qed.

Lemma compile_process_exit_witness :
  exists this' dir,
    options this' = options (sample_compiler {[ "outDir" := JStr "dist" ]})
    /\ tempDestination this' = Some dir
    /\ snd (compile (sample_system false 0)
              (sample_compiler {[ "outDir" := JStr "dist" ]}) Registry.initial)
       = snd (processOutputFiles (sample_system false 0) this').
Proof.
  assert (Hin : In ["@/w/gulp-tsc-tmp-1/tscArguments"]
                  (execs (log (fst (compile (sample_system false 0)
                                      (sample_compiler {[ "outDir" := JStr "dist" ]})
                                      Registry.initial)))))
    by (vm_compute; left; reflexivity).
  destruct (compile_process_exit (sample_system false 0)
              (sample_compiler {[ "outDir" := JStr "dist" ]}) Registry.initial _ Hin)
    as (_ & _ & H).
  apply H; [reflexivity | reflexivity | intros k r' Hr; exact Hr].
Defined.

(** ** The output rewriter, continued *)

Lemma relative_is_relative cwd from to :
  Path.isAbsolute (Path.relative cwd from to) = false
  /\ Path.join_parts (Path.parts (Path.relative cwd from to)) = Path.relative cwd from to.
Proof.
  unfold Path.relative.
  assert (Hseg : Forall (fun x => Path.segment x = true)
                   (Path.relative_parts (Path.parts (Path.resolve cwd [from]))
                      (Path.parts (Path.resolve cwd [to]))))
    by (apply relative_parts_segments, parts_all_segments).
  split.
  - now apply join_segments_relative.
  - now rewrite parts_join.
Qed.

(** X12. [fixOutputFilePath] without a path filter: the file goes on with
    the output root as its base and working directory, its old path kept
    as [originalPath] and its contents untouched, at the place under the
    output root that it had under its old base. When that place is a plain
    path below the base, the relative path of the file is what it was, so
    the tree of the outputs is the tree the compiler made; and when the
    output root is the old base, as it is without [outDir], the file stays
    where it is. *)
Theorem fixOutputFilePath_mirrors cwd (this : Compiler) dir (file : File) :
  Path.isAbsolute cwd = true ->
  truthy (prop (options this) "pathFilter") = false ->
  Path.nonempty (file_base file) = true ->
  Path.nonempty (file_path file) = true ->
  Path.nonempty dir = true ->
  let rel := Path.relative cwd (file_base file) (file_path file) in
  let moved :=
    mkFile dir dir (Path.resolve cwd [dir; rel]) (Some (file_path file))
      (file_contents file) in
  fixOutputFilePath cwd this (Some dir) file = Pushed (JFile moved)
  /\ (Forall (fun x => Path.plain x = true) (Path.parts rel) ->
      file_relative cwd moved = Ok rel)
  /\ (dir = file_base file ->
      file_path moved = Path.resolve cwd [file_path file]).
Proof.
  intros Habs Hfilter Hbase Hpath Hdir rel moved. split; [| split].
  - unfold fixOutputFilePath, file_relative. now rewrite Hbase, Hpath, Hfilter.
  - intros Hplain. unfold file_relative, moved. cbn [file_base file_path].
    rewrite Hdir, resolve_nonempty. cbn [negb]. f_equal.
    destruct (relative_is_relative cwd (file_base file) (file_path file)) as [Hrel Hjoin].
    fold rel in Hrel, Hjoin.
    change (Path.resolve cwd [dir; rel]) with (Path.resolve cwd [dir; rel; ""]).
    rewrite (relative_resolve_below cwd dir rel "" Habs Hrel eq_refl Hplain);
      [| rewrite parts_empty; constructor].
    now rewrite parts_empty, app_nil_r.
  - intros ->. unfold moved, rel. cbn [file_path].
    now apply resolve_relative.
Qed.

Lemma fixOutputFilePath_mirrors_witness :
  fixOutputFilePath "/w" (sample_compiler ∅) (Some "/w/dist") sample_output
  = Pushed (JFile (mkFile "/w/dist" "/w/dist" "/w/dist/src/x.js"
                     (Some "/w/gulp-tsc-tmp-1/src/x.js") (Some "var x;")))
  /\ file_relative "/w"
       (mkFile "/w/dist" "/w/dist" "/w/dist/src/x.js"
          (Some "/w/gulp-tsc-tmp-1/src/x.js") (Some "var x;"))
     = Ok "src/x.js".
Proof.
  assert (Hfilter : truthy (prop (options (sample_compiler ∅)) "pathFilter") = false)
    by (vm_compute; reflexivity).
  assert (Hplain : Forall (fun x => Path.plain x = true)
                     (Path.parts (Path.relative "/w" (file_base sample_output)
                                    (file_path sample_output))))
    by (vm_compute; repeat constructor).
  destruct (fixOutputFilePath_mirrors "/w" (sample_compiler ∅) "/w/dist" sample_output
              eq_refl Hfilter eq_refl eq_refl eq_refl) as (Hmove & Hrel & _).
  split; [exact Hmove | exact (Hrel Hplain)].
Defined.

(** X13. A [pathFilter] that is set to something that is neither a
    function nor an object: the first compiled file makes
    [fixOutputFilePath] call back with ['Unknown type for pathFilter'] and
    no file is published. As the last stream of the chain this error ends
    the relocation and is what its callback gets; with a rewriting stage
    piped in behind, nobody listens to it and it takes the process down. *)
Theorem pathFilter_unknown_type (E : Engine) (this : Compiler) dir
    (file : File) (rest : list File) source_error :
  truthy (prop (options this) "pathFilter") = true ->
  (forall f, prop (options this) "pathFilter" <> JFun f) ->
  (forall props, prop (options this) "pathFilter" <> JObj props) ->
  Path.nonempty (file_base file) = true ->
  Path.nonempty (file_path file) = true ->
  fixOutputFilePath (cwd E) this (Some dir) file
  = Failed (Error "Unknown type for pathFilter")
  /\ drain (output_stages E this (Some dir)) (file :: rest) source_error
     = ([], if sourcemap_stage this || reference_stage this
            then Crashed (Error "Unknown type for pathFilter")
            else Completed (Some (Error "Unknown type for pathFilter"))).
Proof.
  intros Ht Hfun Hobj Hbase Hpath.
  assert (Hfix : fixOutputFilePath (cwd E) this (Some dir) file
                 = Failed (Error "Unknown type for pathFilter")).
  { unfold fixOutputFilePath, file_relative. rewrite Hbase, Hpath, Ht. cbn [negb].
    unfold filterOutput. rewrite Ht. cbn [negb].
    destruct (prop (options this) "pathFilter") as [| |b|n|s|items|props|f|f];
      try reflexivity.
    - now destruct (Hobj props).
    - now destruct (Hfun f). }
  split; [exact Hfix |].
  unfold output_stages. cbn [drain through]. rewrite Hfix.
  destruct (sourcemap_stage this), (reference_stage this); reflexivity.
Qed.

Lemma pathFilter_unknown_type_witness :
  drain (output_stages sample_engine (sample_compiler {["pathFilter" := JNum 1]})
           (Some "/w/dist")) [sample_output] None
  = ([], Completed (Some (Error "Unknown type for pathFilter"))).
Proof.
  assert (Ht : truthy (prop (options (sample_compiler {["pathFilter" := JNum 1]}))
                         "pathFilter") = true) by (vm_compute; reflexivity).
  assert (Hv : prop (options (sample_compiler {["pathFilter" := JNum 1]})) "pathFilter"
               = JNum 1) by (vm_compute; reflexivity).
  assert (Hfun : forall f, prop (options (sample_compiler {["pathFilter" := JNum 1]}))
                             "pathFilter" <> JFun f)
    by (intros f; rewrite Hv; discriminate).
  assert (Hobj : forall props, prop (options (sample_compiler {["pathFilter" := JNum 1]}))
                                 "pathFilter" <> JObj props)
    by (intros props; rewrite Hv; discriminate).
  destruct (pathFilter_unknown_type sample_engine
              (sample_compiler {["pathFilter" := JNum 1]}) "/w/dist" sample_output
              [] None Ht Hfun Hobj eq_refl eq_refl) as [_ H].
  assert (Hs : sourcemap_stage (sample_compiler {["pathFilter" := JNum 1]})
               || reference_stage (sample_compiler {["pathFilter" := JNum 1]}) = false)
    by (vm_compute; reflexivity).
  rewrite Hs in H. exact H.
Defined.

Lemma drain_publishes (stage : File -> File) (stages : list (jsval -> transformed))
    (files : list File) :
  Forall (fun f => through stages (JFile f) = Data (JFile (stage f))) files ->
  drain stages files None
  = (map (fun f => Emit_data (JFile (stage f))) files, Completed None).
Proof.
  induction 1 as [|f files Hf _ IH]; [reflexivity |].
  cbn [drain]. rewrite Hf, IH. reflexivity.
Qed.

(** X14. [processOutputFiles] with no path filter and neither rewriting
    stage, when the source stream yields its files without an error: it
    asks [vinyl-fs] once, in the temporary directory, emits one ['data']
    event for every file, in the order of the stream, each file moved
    under the output root, and then calls back without an error. *)
Theorem processOutputFiles_publishes S (this : Compiler) dir (files : list File) :
  truthy (prop (options this) "pathFilter") = false ->
  sourcemap_stage this = false ->
  reference_stage this = false ->
  output_root (cwd (engine S)) this = Ok (Some dir) ->
  (forall patterns, fsSrc S patterns (tempDestination this) = (files, None)) ->
  Forall (fun f => Path.nonempty (file_base f) = true
                   /\ Path.nonempty (file_path f) = true) files ->
  exists patterns,
    processOutputFiles S this
    = (Call_fsSrc patterns (tempDestination this)
         :: map (fun f =>
                   Emit_data
                     (JFile (mkFile dir dir
                               (Path.resolve (cwd (engine S))
                                  [dir; Path.relative (cwd (engine S))
                                          (file_base f) (file_path f)])
                               (Some (file_path f)) (file_contents f)))) files,
       Completed None).
Proof.
  intros Hfilter Hmap Href Hroot Hsrc Hfiles.
  unfold processOutputFiles. rewrite Hsrc, Hroot.
  unfold output_stages. rewrite Hmap, Href. cbn [app].
  rewrite (drain_publishes
             (fun f => mkFile dir dir
                         (Path.resolve (cwd (engine S))
                            [dir; Path.relative (cwd (engine S))
                                    (file_base f) (file_path f)])
                         (Some (file_path f)) (file_contents f))).
  - eexists. reflexivity.
  - eapply Forall_impl; [exact Hfiles |].
    intros f [Hbase Hpath]. cbn [through].
    unfold fixOutputFilePath, file_relative. now rewrite Hbase, Hpath, Hfilter.
Qed.

Lemma processOutputFiles_publishes_witness :
  exists patterns,
    processOutputFiles (sample_system false 0)
      (at_work (sample_compiler {[ "outDir" := JStr "dist" ]}))
    = (Call_fsSrc patterns (Some "/w/gulp-tsc-tmp-1")
         :: [Emit_data (JFile (mkFile "/w/dist" "/w/dist" "/w/dist/a.js"
                                 (Some "/w/gulp-tsc-tmp-1/a.js") (Some "var a;")))],
       Completed None).
Proof.
  assert (Hfilter : truthy (prop (options (at_work (sample_compiler
                                {[ "outDir" := JStr "dist" ]}))) "pathFilter") = false)
    by (vm_compute; reflexivity).
  assert (Hmap : sourcemap_stage (at_work (sample_compiler {[ "outDir" := JStr "dist" ]}))
                 = false) by (vm_compute; reflexivity).
  assert (Href : reference_stage (at_work (sample_compiler {[ "outDir" := JStr "dist" ]}))
                 = false) by (vm_compute; reflexivity).
  assert (Hroot : output_root (cwd (engine (sample_system false 0)))
                    (at_work (sample_compiler {[ "outDir" := JStr "dist" ]}))
                  = Ok (Some "/w/dist")) by (vm_compute; reflexivity).
  assert (Hfiles : Forall (fun f => Path.nonempty (file_base f) = true
                                    /\ Path.nonempty (file_path f) = true)
                     [mkFile "/w/gulp-tsc-tmp-1" "/w/gulp-tsc-tmp-1"
                        "/w/gulp-tsc-tmp-1/a.js" None (Some "var a;")])
    by (repeat constructor).
  destruct (processOutputFiles_publishes (sample_system false 0)
              (at_work (sample_compiler {[ "outDir" := JStr "dist" ]})) "/w/dist"
              _ Hfilter Hmap Href Hroot (fun _ => eq_refl) Hfiles) as [patterns H].
  exists patterns. rewrite H. vm_compute. reflexivity.
Defined.

(** X15. Without a path filter, a file whose new path holds neither
    [.js.map] nor [.d.ts] anywhere, which is what lines 306 and 328 test
    for, without an anchor: whichever of the two rewriting stages are
    piped in, the file comes out of the chain moved and with the contents
    it had. *)
Theorem plain_outputs_untouched (E : Engine) (this : Compiler) dir (file : File) :
  truthy (prop (options this) "pathFilter") = false ->
  Path.nonempty (file_base file) = true ->
  Path.nonempty (file_path file) = true ->
  let moved :=
    mkFile dir dir
      (Path.resolve (cwd E)
         [dir; Path.relative (cwd E) (file_base file) (file_path file)])
      (Some (file_path file)) (file_contents file) in
  contains ".js.map" (file_path moved) = false ->
  contains ".d.ts" (file_path moved) = false ->
  through (output_stages E this (Some dir)) (JFile file) = Data (JFile moved).
Proof.
  intros Hfilter Hbase Hpath moved Hmap Hdts.
  assert (Hfix : fixOutputFilePath (cwd E) this (Some dir) file = Pushed (JFile moved)).
  { unfold fixOutputFilePath, file_relative. now rewrite Hbase, Hpath, Hfilter. }
  assert (Hs : fixSourcemapPath E (JFile moved) = Pushed (JFile moved)).
  { unfold fixSourcemapPath. rewrite Hmap. now destruct (file_contents moved). }
  assert (Hr : fixReferencePath E (JFile moved) = Pushed (JFile moved)).
  { unfold fixReferencePath. rewrite Hdts. now destruct (file_contents moved). }
  unfold output_stages.
  destruct (sourcemap_stage this), (reference_stage this); cbn [app through];
    rewrite Hfix, ?Hs, ?Hr; reflexivity.
Qed.

Lemma plain_outputs_untouched_witness :
  through (output_stages sample_engine
             (sample_compiler {[ "sourceMap" := JBool true ]}) (Some "/w/dist"))
    (JFile sample_output)
  = Data (JFile (mkFile "/w/dist" "/w/dist" "/w/dist/src/x.js"
                   (Some "/w/gulp-tsc-tmp-1/src/x.js") (Some "var x;"))).
Proof.
  assert (Hfilter : truthy (prop (options (sample_compiler
                                {[ "sourceMap" := JBool true ]})) "pathFilter") = false)
    by (vm_compute; reflexivity).
  exact (plain_outputs_untouched sample_engine
           (sample_compiler {[ "sourceMap" := JBool true ]}) "/w/dist" sample_output
           Hfilter eq_refl eq_refl eq_refl eq_refl).
Defined.

Lemma assoc_set_same k v props : assoc k (assoc_set k v props) = v.
Proof.
  induction props as [|[k' v'] props IH]; simpl.
  - now rewrite String.eqb_refl.
  - destruct (String.eqb k' k) eqn:E; simpl.
    + now rewrite String.eqb_refl.
    + now rewrite E.
Qed.

Lemma assoc_set_other k k' v props :
  k' <> k -> assoc k' (assoc_set k v props) = assoc k' props.
Proof.
  intros Hne. induction props as [|[k0 v0] props IH]; simpl.
  - destruct (String.eqb k k') eqn:E; [| reflexivity].
    apply String.eqb_eq in E. congruence.
  - destruct (String.eqb k0 k) eqn:E; simpl.
    + apply String.eqb_eq in E. subst k0.
      destruct (String.eqb k k') eqn:E'; [| reflexivity].
      apply String.eqb_eq in E'. congruence.
    + now rewrite IH.
Qed.

Lemma assoc_set_keys k v props :
  In k (map fst props) -> map fst (assoc_set k v props) = map fst props.
Proof.
  induction props as [|[k0 v0] props IH]; simpl; [contradiction |].
  intros Hin. destruct (String.eqb k0 k) eqn:E; simpl.
  - apply String.eqb_eq in E. now subst.
  - f_equal. apply IH. destruct Hin as [-> | Hin]; [| exact Hin].
    now rewrite String.eqb_refl in E.
Qed.

Lemma assoc_defined k props : assoc k props <> JUndefined -> In k (map fst props).
Proof.
  induction props as [|[k0 v0] props IH]; simpl; [congruence |].
  destruct (String.eqb k0 k) eqn:E.
  - apply String.eqb_eq in E. now left.
  - intros H. right. now apply IH.
Qed.

(** X16. A source map that [fixSourcemapPath] rewrites keeps everything
    but its [sources]: the object that is serialised has the properties of
    the parsed one, in the same order and with the same values, with
    [sources] an array of as many strings as before; and but for its
    contents the file is what it was. *)
Theorem sourcemap_keeps_properties (E : Engine) (file : File) text props srcs orig :
  file_contents file = Some text ->
  contains ".js.map" (file_path file) = true ->
  file_originalPath file = Some orig ->
  JSON_parse E text = Ok (JObj props) ->
  assoc "sources" props = JArr (map JStr srcs) ->
  srcs <> [] ->
  exists props' rewritten,
    fixSourcemapPath E (JFile file)
    = Pushed (JFile (mkFile (file_cwd file) (file_base file) (file_path file)
                       (file_originalPath file)
                       (Some (JSON_stringify E (JObj props')))))
    /\ map fst props' = map fst props
    /\ (forall k, k <> "sources" -> assoc k props' = assoc k props)
    /\ assoc "sources" props' = JArr (map JStr rewritten)
    /\ length rewritten = length srcs.
Proof.
  intros Htext Hmap Horig Hparse Hsources Hne.
  exists (assoc_set "sources"
            (JArr (map JStr
                     (map (fun s => Path.relative (cwd E) (Path.dirname (file_path file))
                                      (Path.resolve (cwd E) [Path.dirname orig; s])) srcs)))
            props),
    (map (fun s => Path.relative (cwd E) (Path.dirname (file_path file))
                     (Path.resolve (cwd E) [Path.dirname orig; s])) srcs).
  split; [| split; [| split; [| split]]].
  - unfold fixSourcemapPath. rewrite Htext, Hmap.
    unfold rewrite_sources. rewrite Hparse. simpl. rewrite Hsources.
    assert (Hlen : truthy (JArr (map JStr srcs))
                   && gt_zero E (js_length (JArr (map JStr srcs))) = true).
    { simpl. destruct srcs; [contradiction | reflexivity]. }
    rewrite Hlen. rewrite (mapM_rebase (cwd E) file orig srcs Horig). reflexivity.
  - apply assoc_set_keys, assoc_defined. rewrite Hsources. discriminate.
  - intros k Hk. now apply assoc_set_other.
  - apply assoc_set_same.
  - now rewrite length_map.
Qed.

Lemma sourcemap_keeps_properties_witness :
  exists props' rewritten,
    fixSourcemapPath sample_engine (JFile sample_map)
    = Pushed (JFile (mkFile "/w/out" "/w/out" "/w/out/a.js.map"
                       (Some "/w/gulp-tsc-tmp-1/a.js.map")
                       (Some (JSON_stringify sample_engine (JObj props')))))
    /\ map fst props' = ["version"; "file"; "sources"]
    /\ (forall k, k <> "sources" ->
        assoc k props'
        = assoc k [("version", JNum 3); ("file", JStr "a.js");
                   ("sources", JArr [JStr "../src/a.ts"])])
    /\ assoc "sources" props' = JArr (map JStr rewritten)
    /\ length rewritten = 1%nat.
Proof.
  assert (Hne : ["../src/a.ts"] <> []) by discriminate.
  exact (sourcemap_keeps_properties sample_engine sample_map "{}"
           [("version", JNum 3); ("file", JStr "a.js");
            ("sources", JArr [JStr "../src/a.ts"])]
           ["../src/a.ts"] "/w/gulp-tsc-tmp-1/a.js.map"
           eq_refl eq_refl eq_refl eq_refl eq_refl Hne).
Defined.

(** X17. A source map that [JSON.parse] rejects: nothing in
    [fixSourcemapPath] catches the exception, so that with the source-map
    stage piped in the relocation does not call back; the exception takes
    the process down at the first such file, and the files behind it are
    not published. *)
Theorem sourcemap_parse_error_crashes (E : Engine) (this : Compiler) dir
    (file : File) (rest : list File) source_error text e :
  truthy (prop (options this) "pathFilter") = false ->
  sourcemap_stage this = true ->
  Path.nonempty (file_base file) = true ->
  Path.nonempty (file_path file) = true ->
  file_contents file = Some text ->
  contains ".js.map"
    (Path.resolve (cwd E)
       [dir; Path.relative (cwd E) (file_base file) (file_path file)]) = true ->
  JSON_parse E text = Throw e ->
  drain (output_stages E this (Some dir)) (file :: rest) source_error = ([], Crashed e).
Proof.
  intros Hfilter Hstage Hbase Hpath Htext Hmap Hparse.
  unfold output_stages. rewrite Hstage. cbn [app drain through].
  unfold fixOutputFilePath, file_relative. rewrite Hbase, Hpath, Hfilter. cbn [negb].
  unfold fixSourcemapPath. cbn [file_contents file_path]. rewrite Htext, Hmap.
  unfold rewrite_sources. rewrite Hparse. reflexivity.
Qed.

Lemma sourcemap_parse_error_crashes_witness :
  drain (output_stages (engine (broken_map_system 0))
           (sample_compiler {[ "sourceMap" := JBool true ]}) (Some "/w/dist"))
    [mkFile "/w/gulp-tsc-tmp-1" "/w/gulp-tsc-tmp-1" "/w/gulp-tsc-tmp-1/a.js.map"
       None (Some "{"); sample_output] None
  = ([], Crashed (mkExn "SyntaxError" "Unexpected end of input")).
Proof.
  assert (Hfilter : truthy (prop (options (sample_compiler
                                {[ "sourceMap" := JBool true ]})) "pathFilter") = false)
    by (vm_compute; reflexivity).
  assert (Hstage : sourcemap_stage (sample_compiler {[ "sourceMap" := JBool true ]})
                   = true) by (vm_compute; reflexivity).
  exact (sourcemap_parse_error_crashes (engine (broken_map_system 0))
           (sample_compiler {[ "sourceMap" := JBool true ]}) "/w/dist"
           (mkFile "/w/gulp-tsc-tmp-1" "/w/gulp-tsc-tmp-1" "/w/gulp-tsc-tmp-1/a.js.map"
              None (Some "{"))
           [sample_output] None "{" _ Hfilter Hstage eq_refl eq_refl eq_refl eq_refl
           eq_refl).
Defined.



(** ** The placeholder and the patterns of the relocation *)

Lemma rev_app_app (a b acc : string) :
  String.rev_app (a +:+ b) acc = String.rev_app b (String.rev_app a acc).
Proof.
  revert acc. induction a as [|c a IH]; intros acc; [reflexivity |].
  rewrite string_app_cons. simpl. apply IH.
Qed.

Lemma substring_app (a b : string) :
  String.substring 0 (String.length a) (a +:+ b) = a.
Proof.
  induction a as [|c a IH].
  - now destruct b.
  - rewrite string_app_cons. simpl. now rewrite IH.
Qed.

Lemma length_app (a b : string) :
  String.length (a +:+ b) = (String.length a + String.length b)%nat.
Proof.
  induction a as [|c a IH]; [reflexivity |].
  rewrite string_app_cons. simpl. now rewrite IH.
Qed.

Lemma slash_free_app (a b : string) :
  Path.slash_free (a +:+ b) = Path.slash_free a && Path.slash_free b.
Proof.
  induction a as [|c a IH]; [reflexivity |].
  rewrite string_app_cons. simpl. rewrite IH. now rewrite andb_assoc.
Qed.

(** [path.basename] of a file name with its extension, behind a directory. *)
Lemma basename_ts (d name : string) :
  Path.segment name = true ->
  Path.basename (d +:+ "/" +:+ name +:+ ".ts") ".ts" = name.
Proof.
  intros Hseg. unfold Path.basename.
  assert (Hfile : Path.segment (name +:+ ".ts") = true).
  { unfold Path.segment in *. apply andb_true_iff in Hseg as [Hne Hsf].
    rewrite slash_free_app, Hsf. destruct name; [discriminate | reflexivity]. }
  assert (Hparts : Path.parts (name +:+ ".ts") = [name +:+ ".ts"]).
  { apply (parts_join [name +:+ ".ts"]). now constructor. }
  rewrite parts_app_slash, Hparts, last_last.
  assert (Hends : Path.ends_with ".ts" (name +:+ ".ts") = true).
  { unfold Path.ends_with, String.rev. rewrite rev_app_app.
    destruct (String.rev_app name ""); vm_compute; reflexivity. }
  rewrite Hends. cbn [Path.nonempty andb].
  rewrite length_app. cbn [String.length]. rewrite Nat.add_sub.
  apply substring_app.
Qed.

(** X19. The patterns [processOutputFiles] hands to [vinyl-fs], always in
    the temporary directory: the compiled files by their three extensions
    and, when there is a placeholder, the exclusion of every file that has
    the name of the placeholder with another extension, so that what the
    compiler makes of the placeholder is never published. Without a
    placeholder there is no exclusion. *)
Theorem processOutputFiles_patterns S (this : Compiler) :
  (treeKeeperFile this = None ->
   globs (fst (processOutputFiles S this))
   = [(["**/*{.js,.js.map,.d.ts}"], tempDestination this)])
  /\ (forall d name,
        treeKeeperFile this = Some (d +:+ "/" +:+ name +:+ ".ts") ->
        Path.segment name = true ->
        globs (fst (processOutputFiles S this))
        = [(["**/*{.js,.js.map,.d.ts}"; "!**/" +:+ name +:+ ".*"],
            tempDestination this)]).
Proof.
  assert (Hglobs : forall patterns,
            (let '(files, source_error) := fsSrc S patterns (tempDestination this) in
             match output_root (cwd (engine S)) this with
             | Throw e => ([Call_fsSrc patterns (tempDestination this)], Crashed e)
             | Ok outDir =>
                 let '(events, c) :=
                   drain (output_stages (engine S) this outDir) files source_error in
                 (Call_fsSrc patterns (tempDestination this) :: events, c)
             end) = processOutputFiles S this ->
            globs (fst (processOutputFiles S this)) = [(patterns, tempDestination this)]).
  { intros patterns <-.
    destruct (fsSrc S patterns (tempDestination this)) as [files source_error].
    destruct (output_root _ this) as [outDir|e]; [| reflexivity].
    pose proof (drain_log (output_stages (engine S) this outDir) files source_error)
      as (_ & G & _).
    destruct (drain _ files source_error) as [events c]. simpl in *. now rewrite G. }
  split.
  - intros Hnone. apply Hglobs. unfold processOutputFiles. now rewrite Hnone.
  - intros d name Hsome Hseg. apply Hglobs. unfold processOutputFiles.
    rewrite Hsome, (basename_ts d name Hseg).
    assert (Hne : Path.nonempty (d +:+ "/" +:+ name +:+ ".ts") = true).
    { destruct d; reflexivity. }
    now rewrite Hne.
Qed.

Lemma processOutputFiles_patterns_witness :
  globs (fst (processOutputFiles (sample_system false 0)
                (at_work (sample_compiler ∅))))
  = [(["**/*{.js,.js.map,.d.ts}"; "!**/.gulp-tsc-tmp-2.*"], Some "/w/gulp-tsc-tmp-1")].
Proof.
  destruct (processOutputFiles_patterns (sample_system false 0)
              (at_work (sample_compiler ∅))) as [_ H].
  exact (H "/w/src" ".gulp-tsc-tmp-2" eq_refl eq_refl).
Defined.

(** ** Options that are not what the builder expects, and the constructor *)

(** X20. An invocation whose [module] or [target] is set to something that
    is not a string launches no compiler process and does not succeed:
    unless an earlier task fails or sees an abort, the [TypeError] of the
    builder leaves [prepareTscArgumentsFile] and takes the process down,
    and the callback is not called. *)
Theorem compile_option_not_a_string S (this : Compiler) (r : Registry.t) :
  (truthy (prop (options this) "module") = true
   /\ stringy (prop (options this) "module") = false)
  \/ (stringy (prop (options this) "module") = true
      /\ truthy (prop (options this) "target") = true
      /\ stringy (prop (options this) "target") = false) ->
  execs (log (fst (compile S this r))) = []
  /\ snd (compile S this r) <> Completed None
  /\ (snd (waterfall [ checkAborted 0; makeTempDestinationDir; checkAborted 1;
                       makeTreeKeeperFile; checkAborted 2 ] S
             (mkState this (Registry._start r) [Emit_start])) = Next ->
      exists e, snd (compile S this r) = Crashed e /\ exn_name e = "TypeError").
Proof.
  intros Hbad.
  assert (Hthrow : forall this' version,
            options this' = options this ->
            exists e, buildTscArguments (cwd (engine S)) this' version = Throw e
                      /\ exn_name e = "TypeError").
  { intros this' version Ho. unfold buildTscArguments. cbn zeta. rewrite Ho.
    destruct Hbad as [[H1 H2] | (H1 & H2 & H3)].
    - rewrite H1.
      destruct (prop (options this) "module"); simpl in *; try discriminate;
        eexists; split; reflexivity.
    - rewrite (lower_step _ _ _ H1). cbn [mbind result_bind]. rewrite H2.
      destruct (prop (options this) "target"); simpl in *; try discriminate;
        eexists; split; reflexivity. }
  assert (Hcalm : calm (mkState this (Registry._start r) [Emit_start])
                    (fst (waterfall
                            [ checkAborted 0; makeTempDestinationDir; checkAborted 1;
                              makeTreeKeeperFile; checkAborted 2 ] S
                            (mkState this (Registry._start r) [Emit_start])))).
  { apply waterfall_calm.
    repeat (constructor;
            [ intros S' st';
              first [ apply checkAborted_calm | apply makeTempDestinationDir_calm
                    | apply makeTreeKeeperFile_calm ]
            | ]).
    constructor. }
  assert (Hstop : forall post,
            match waterfall
                    ([ checkAborted 0; makeTempDestinationDir; checkAborted 1;
                       makeTreeKeeperFile; checkAborted 2 ]
                     ++ prepareTscArgumentsFile :: post) S
                    (mkState this (Registry._start r) [Emit_start]) with
            | (_, Next) => False
            | (_, Crash e) =>
                snd (waterfall [ checkAborted 0; makeTempDestinationDir; checkAborted 1;
                                 makeTreeKeeperFile; checkAborted 2 ] S
                       (mkState this (Registry._start r) [Emit_start])) = Next ->
                exn_name e = "TypeError"
            | (_, _) =>
                snd (waterfall [ checkAborted 0; makeTempDestinationDir; checkAborted 1;
                                 makeTreeKeeperFile; checkAborted 2 ] S
                       (mkState this (Registry._start r) [Emit_start])) <> Next
            end).
  { intros post. rewrite waterfall_app.
    destruct (waterfall _ S (mkState this (Registry._start r) [Emit_start]))
      as [st5 r5]. cbn [fst snd] in *.
    destruct Hcalm as (_ & _ & _ & _ & O5 & _). cbn [self] in O5.
    destruct r5 as [|e|e|]; try discriminate.
    cbn [waterfall]. unfold prepareTscArgumentsFile.
    destruct (Hthrow (self st5) (getVersion S (self st5)) O5) as (e & -> & Hname).
    intros _. exact Hname. }
  split; [| split].
  - apply compile_no_launch.
    pose proof (Hstop [checkAborted 3]) as H. cbn [app] in H.
    destruct (waterfall
                [ checkAborted 0; makeTempDestinationDir; checkAborted 1;
                  makeTreeKeeperFile; checkAborted 2; prepareTscArgumentsFile;
                  checkAborted 3 ] S _) as [st [|e|e|]]; cbn [snd];
      [contradiction | discriminate | discriminate | discriminate].
  - apply compile_needs_next.
    pose proof (Hstop [checkAborted 3; runTsc; checkAborted 4]) as H.
    change ([checkAborted 0; makeTempDestinationDir; checkAborted 1;
             makeTreeKeeperFile; checkAborted 2]
            ++ prepareTscArgumentsFile :: [checkAborted 3; runTsc; checkAborted 4])
      with tasks in H.
    destruct (waterfall tasks S _) as [st [|e|e|]]; cbn [snd];
      [contradiction | discriminate | discriminate | discriminate].
  - intros Hnext. unfold compile. cbn [self registry log].
    pose proof (Hstop [checkAborted 3; runTsc; checkAborted 4]) as H.
    change ([checkAborted 0; makeTempDestinationDir; checkAborted 1;
             makeTreeKeeperFile; checkAborted 2]
            ++ prepareTscArgumentsFile :: [checkAborted 3; runTsc; checkAborted 4])
      with tasks in H.
    destruct (waterfall tasks S _) as [st [|e|e|]]; cbn [snd].
    + contradiction.
    + now destruct (H Hnext).
    + exists e. split; [reflexivity | exact (H Hnext)].
    + now destruct (H Hnext).
Qed.

Lemma compile_option_not_a_string_witness :
  execs (log (fst (compile (sample_system false 0)
                     (sample_compiler {["module" := JNum 1]}) Registry.initial))) = []
  /\ exists e,
       snd (compile (sample_system false 0)
              (sample_compiler {["module" := JNum 1]}) Registry.initial) = Crashed e
       /\ exn_name e = "TypeError".
Proof.
  assert (Hbad :
    (truthy (prop (options (sample_compiler {["module" := JNum 1]})) "module") = true
     /\ stringy (prop (options (sample_compiler {["module" := JNum 1]})) "module") = false)
    \/ (stringy (prop (options (sample_compiler {["module" := JNum 1]})) "module") = true
        /\ truthy (prop (options (sample_compiler {["module" := JNum 1]})) "target") = true
        /\ stringy (prop (options (sample_compiler {["module" := JNum 1]})) "target")
           = false)).
  { left. split; vm_compute; reflexivity. }
  destruct (compile_option_not_a_string (sample_system false 0)
              (sample_compiler {["module" := JNum 1]}) Registry.initial Hbad)
    as (Hx & _ & Hcrash).
  split; [exact Hx |]. apply Hcrash. vm_compute. reflexivity.
Defined.

(** X21. What the constructor stores, the two spellings of [sourceMap]
    apart: an option the caller gives is stored as given, also when the
    constructor knows no option of that name and also when the value is
    [undefined], which takes the place of the default; an option the
    caller does not give has its default. The compiler starts without a
    temporary directory, an argument file or a placeholder, with the
    source files it was given or none, and with [tscPath] and [tscSearch]
    as the options of the [tsc] module. *)
Theorem constructor_options files (o : gmap string jsval) :
  (forall k v, k <> "sourceMap" -> k <> "sourcemap" ->
     o !! k = Some v ->
     options (new_Compiler files (Some o)) !! k = Some v)
  /\ (forall k, k <> "sourceMap" -> k <> "sourcemap" ->
        o !! k = None ->
        options (new_Compiler files (Some o)) !! k
        = defaults (defaultModule (Some o)) !! k)
  /\ sourceFiles (new_Compiler files (Some o)) = default [] files
  /\ tscOptions (new_Compiler files (Some o))
     = (prop (options (new_Compiler files (Some o))) "tscPath",
        prop (options (new_Compiler files (Some o))) "tscSearch")
  /\ tempDestination (new_Compiler files (Some o)) = None
  /\ tscArgumentsFile (new_Compiler files (Some o)) = None
  /\ treeKeeperFile (new_Compiler files (Some o)) = None.
Proof.
  split; [| split; [| repeat split]].
  - intros k v H1 H2 Hk. cbn [new_Compiler options extend].
    rewrite lookup_delete_ne by congruence.
    rewrite lookup_insert_ne by congruence.
    now apply lookup_union_Some_l.
  - intros k H1 H2 Hk. cbn [new_Compiler options extend].
    rewrite lookup_delete_ne by congruence.
    rewrite lookup_insert_ne by congruence.
    now apply lookup_union_r.
Qed.

(** ** A failure before the temporary directory exists *)

(** X22. Outside safe mode the relocation runs after every failure, also
    the failure to make the temporary directory: [vinyl-fs] is then asked
    for the compiled files with no directory to look in, and the callback,
    when the relocation comes back, gets the error of [temp.mkdir]; no
    process is launched, and in safe mode the relocation is not run. *)
Theorem compile_without_directory S (this : Compiler) (r : Registry.t) t err :
  tempDestination this = None ->
  Registry.isAborted (interfere S 0 (Registry._start r)) = false ->
  prop (options this) "tmpDir" = JStr t ->
  temp_mkdir S (Path.resolve (cwd (engine S)) [cwd (engine S); t]) = Throw err ->
  execs (log (fst (compile S this r))) = []
  /\ (truthy (prop (options this) "safe") = true ->
      globs (log (fst (compile S this r))) = []
      /\ snd (compile S this r) = Completed (Some err))
  /\ (truthy (prop (options this) "safe") = false ->
      (exists patterns, globs (log (fst (compile S this r))) = [(patterns, None)])
      /\ match snd (compile S this r) with
         | Completed e => e = Some err
         | Crashed _ => True
         | Pending => False
         end).
Proof.
  intros Htemp Hflag Htmp Hmk.
  assert (Hc : compile S this r
               = after_waterfall S (Some err)
                   (mkState this (interfere S 0 (Registry._start r))
                      ([Emit_start]
                       ++ [Call_mkdir (Path.resolve (cwd (engine S))
                                         [cwd (engine S); t])]))).
  { unfold compile, tasks. cbn [self registry log waterfall].
    unfold checkAborted at 1. cbn [self registry log]. rewrite Hflag.
    unfold makeTempDestinationDir. cbn [self registry log]. rewrite Htmp.
    cbn [path_resolve mapM mbind result_bind]. rewrite Hmk. reflexivity. }
  rewrite Hc.
  destruct (after_waterfall_error S err
              (mkState this (interfere S 0 (Registry._start r))
                 ([Emit_start]
                  ++ [Call_mkdir (Path.resolve (cwd (engine S)) [cwd (engine S); t])])))
    as [Hsafe Hunsafe]. cbn [self] in Hsafe, Hunsafe.
  split; [| split].
  - destruct (after_waterfall_log S (Some err)
                (mkState this (interfere S 0 (Registry._start r))
                   ([Emit_start]
                    ++ [Call_mkdir (Path.resolve (cwd (engine S)) [cwd (engine S); t])])))
      as (ev & L & X).
    rewrite L, execs_app, X. reflexivity.
  - intros Hmode. rewrite (Hsafe Hmode). cbn [fst snd]. split; [| reflexivity].
    destruct (finish_log S (Some err)
                (mkState this (interfere S 0 (Registry._start r))
                   ([Emit_start]
                    ++ [Call_mkdir (Path.resolve (cwd (engine S)) [cwd (engine S); t])])))
      as (ev & L & _ & G).
    rewrite L, !globs_app, G. reflexivity.
  - intros Hmode.
    destruct (Hunsafe Hmode) as (patterns & events & _ & G & Hp & Hrun).
    rewrite Htemp in Hrun.
    destruct (snd (processOutputFiles S this)) as [err2|e|]; rewrite Hrun in *;
      cbn [fst snd] in *.
    + split; [| reflexivity]. exists patterns.
      destruct (finish_log S (Some err)
                  (record (Call_fsSrc patterns None :: events)
                     (mkState this (interfere S 0 (Registry._start r))
                        ([Emit_start]
                         ++ [Call_mkdir (Path.resolve (cwd (engine S))
                                           [cwd (engine S); t])]))))
        as (ev & L & _ & Gf).
      rewrite L. cbn [record log]. rewrite !globs_app, Gf. simpl. now rewrite G.
    + split; [| exact I]. exists patterns. cbn [record log].
      rewrite !globs_app. simpl. now rewrite G.
    + contradiction.
Qed.

Lemma compile_without_directory_witness :
  (exists patterns,
     globs (log (fst (compile mkdir_failing_system (sample_compiler ∅) Registry.initial)))
     = [(patterns, None)])
  /\ snd (compile mkdir_failing_system (sample_compiler ∅) Registry.initial)
     = Completed (Some (Error "EACCES: permission denied")).
Proof.
  assert (Htmp : prop (options (sample_compiler ∅)) "tmpDir" = JStr "")
    by (vm_compute; reflexivity).
  assert (Hmode : truthy (prop (options (sample_compiler ∅)) "safe") = false)
    by (vm_compute; reflexivity).
  destruct (compile_without_directory mkdir_failing_system (sample_compiler ∅)
              Registry.initial "" (Error "EACCES: permission denied")
              eq_refl eq_refl Htmp eq_refl) as (_ & _ & H).
  destruct (H Hmode) as [Hg Hc]. split; [exact Hg |].
  destruct (snd (compile mkdir_failing_system (sample_compiler ∅) Registry.initial))
    as [e| |] eqn:E; [now subst | | contradiction].
  exfalso. revert E. vm_compute. discriminate.
Defined.

(** * The failures of an invocation, and the source-map stage

    The statements about a process that fails, a placeholder that cannot
    be made and the two spellings of [sourceMap], followed to the callback
    of the invocation and to the files that are published. *)





















(** C10. The stored [sourceMap] is [options.sourceMap || options.sourcemap]
    and the compiler keeps no [sourcemap] property; so when either is
    truthy, [--sourcemap] is among the arguments and the source-map stage
    is piped in whenever no [sourceRoot] is set, as it is when the options
    name none: the streams of [processOutputFiles] are then
    [fixOutputFilePath], [fixSourcemapPath] and, if it is on, the
    reference stage, and a source map that the relocation finds is
    published with its [sources] rewritten. *)
Theorem constructor_sourceMap_spellings wd files (o : gmap string jsval)
    (this : Compiler) (version : option string) :
  options this = options (new_Compiler files (Some o)) ->
  prop (options this) "sourceMap" = js_or (prop o "sourceMap") (prop o "sourcemap")
  /\ options this !! "sourcemap" = None
  /\ (truthy (prop o "sourceMap") = true \/ truthy (prop o "sourcemap") = true ->
      (config_ok this = true ->
       exists args,
         buildTscArguments wd this version = Ok args
         /\ In (JStr "--sourcemap") args)
      /\ sourcemap_stage this = negb (truthy (prop (options this) "sourceRoot"))
      /\ (o !! "sourceRoot" = None -> sourcemap_stage this = true)
      /\ (forall (E : Engine) outDir,
            output_stages E this outDir
            = (fun v => match v with
                        | JFile file => fixOutputFilePath (cwd E) this outDir file
                        | _ => Raised (TypeError "file.relative is undefined")
                        end)
              :: (if truthy (prop (options this) "sourceRoot")
                  then [] else [fixSourcemapPath E])
              ++ (if reference_stage this then [fixReferencePath E] else []))
      /\ (forall (S : System) out (file : File) text props srcs,
            truthy (prop (options this) "sourceRoot") = false ->
            truthy (prop (options this) "pathFilter") = false ->
            output_root (cwd (engine S)) this = Ok (Some out) ->
            (forall patterns,
               fsSrc S patterns (tempDestination this) = ([file], None)) ->
            Path.nonempty (file_base file) = true ->
            Path.nonempty (file_path file) = true ->
            file_contents file = Some text ->
            let moved := relocated (cwd (engine S)) out file in
            contains ".js.map" (file_path moved) = true ->
            contains ".d.ts" (file_path moved) = false ->
            JSON_parse (engine S) text = Ok (JObj props) ->
            assoc "sources" props = JArr (map JStr srcs) ->
            srcs <> [] ->
            exists patterns,
              processOutputFiles S this
              = ([Call_fsSrc patterns (tempDestination this);
                  Emit_data
                    (JFile
                       (set_contents moved
                          (JSON_stringify (engine S)
                             (JObj
                                (assoc_set "sources"
                                   (JArr
                                      (map JStr
                                         (map (fun s =>
                                                 Path.relative (cwd (engine S))
                                                   (Path.dirname (file_path moved))
                                                   (Path.resolve (cwd (engine S))
                                                      [Path.dirname (file_path file); s]))
                                            srcs)))
                                   props)))))],
                 Completed None))).
Proof.
  intros Hopts.
  assert (Hsm : prop (options this) "sourceMap"
                = js_or (prop o "sourceMap") (prop o "sourcemap"))
    by (rewrite Hopts; apply constructed_sourceMap).
  split; [exact Hsm |]. split.
  - rewrite Hopts. unfold new_Compiler. simpl. apply lookup_delete_eq.
  - intros Hspelled.
    assert (Htruthy : truthy (prop (options this) "sourceMap") = true).
    { rewrite Hsm. unfold js_or.
      destruct (truthy (prop o "sourceMap")) eqn:E; [exact E |].
      destruct Hspelled as [H | H]; [discriminate | exact H]. }
    assert (Hstage : sourcemap_stage this
                     = negb (truthy (prop (options this) "sourceRoot")))
      by (unfold sourcemap_stage; now rewrite Htruthy).
    split; [| split; [| split; [| split]]].
    + intros Hok. rewrite (buildTscArguments_regions wd this version Hok).
      eexists. split; [reflexivity |]. apply in_or_app. left.
      now apply flag_args_sourcemap.
    + exact Hstage.
    + intros Hroot. rewrite Hstage, Hopts, constructed_prop by discriminate.
      rewrite extend_unset; [reflexivity |].
      intros o' Ho'. injection Ho' as <-. exact Hroot.
    + intros E outDir. unfold output_stages. rewrite Hstage.
      now destruct (truthy (prop (options this) "sourceRoot")).
    + intros S out file text props srcs Hroot Hfilter Hout Hsrc Hbase Hpath Htext
        moved Hmap Hdts Hparse Hsources Hne.
      unfold processOutputFiles. rewrite Hsrc, Hout.
      unfold output_stages. rewrite Hstage, Hroot. cbn [negb app drain].
      assert (Hfix : fixOutputFilePath (cwd (engine S)) this (Some out) file
                     = Pushed (JFile moved)).
      { unfold fixOutputFilePath, file_relative. now rewrite Hbase, Hpath, Hfilter. }
      assert (Hlen : truthy (JArr (map JStr srcs))
                     && gt_zero (engine S) (js_length (JArr (map JStr srcs))) = true).
      { simpl. destruct srcs; [contradiction | reflexivity]. }
      assert (Hrew : fixSourcemapPath (engine S) (JFile moved)
                     = Pushed (JFile
                         (set_contents moved
                            (JSON_stringify (engine S)
                               (JObj
                                  (assoc_set "sources"
                                     (JArr
                                        (map JStr
                                           (map (fun s =>
                                                   Path.relative (cwd (engine S))
                                                     (Path.dirname (file_path moved))
                                                     (Path.resolve (cwd (engine S))
                                                        [Path.dirname (file_path file); s]))
                                              srcs)))
                                     props)))))).
      { unfold fixSourcemapPath. rewrite Hmap.
        change (file_contents moved) with (file_contents file). rewrite Htext.
        unfold rewrite_sources. rewrite Hparse. simpl. rewrite Hsources, Hlen.
        rewrite (mapM_rebase (cwd (engine S)) moved (file_path file) srcs eq_refl).
        reflexivity. }
      destruct (reference_stage this); cbn [through]; rewrite Hfix, Hrew.
      * unfold fixReferencePath. cbn [set_contents file_contents file_path].
        rewrite Hdts. eexists. reflexivity.
      * eexists. reflexivity.
Qed.

Lemma constructor_sourceMap_spellings_witness :
  options (at_work (sample_compiler {[ "sourcemap" := JBool true ]}))
  = options (new_Compiler (Some [sample_source]) (Some {[ "sourcemap" := JBool true ]}))
  /\ prop (options (at_work (sample_compiler {[ "sourcemap" := JBool true ]}))) "sourceMap"
     = JBool true
  /\ sourcemap_stage (at_work (sample_compiler {[ "sourcemap" := JBool true ]})) = true
  /\ (exists first,
        output_stages sample_engine
          (at_work (sample_compiler {[ "sourcemap" := JBool true ]})) (Some "/w/out")
        = [first; fixSourcemapPath sample_engine])
  /\ exists args,
       buildTscArguments "/w" (at_work (sample_compiler {[ "sourcemap" := JBool true ]}))
         None = Ok args
       /\ In (JStr "--sourcemap") args.
Proof.
  assert (H1 : options (at_work (sample_compiler {[ "sourcemap" := JBool true ]}))
               = options (new_Compiler (Some [sample_source])
                            (Some {[ "sourcemap" := JBool true ]}))) by reflexivity.
  split; [exact H1 |].
  destruct (constructor_sourceMap_spellings "/w" _ _ _ None H1) as (Hstored & _ & Hon).
  split; [exact Hstored |].
  assert (Hok : config_ok (at_work (sample_compiler {[ "sourcemap" := JBool true ]})) = true)
    by reflexivity.
  destruct (Hon (or_intror eq_refl)) as (Hargs & _ & Hstage & Hpiped & _).
  split; [apply Hstage; reflexivity |].
  split; [| exact (Hargs Hok)].
  eexists. rewrite (Hpiped sample_engine (Some "/w/out")). reflexivity.
Defined.
